(** * CalX backend: sanitization, chunking and continuation of AI answers

    A shallow embedding of the sanitization service
    ([sanitizeAIResponse], [chunkResponse], [checkContentPolicy]) and of
    the AI service ([processAIQuery], [continueAIQuery]) of the CalX
    backend, with the properties its design document states about them,
    and further properties of these functions and of their neighbours:
    [cleanupExpiredChunks], [getApiKey], [generateQueryId], the stages of
    the sanitizer, and the comparison of firmware versions
    ([isNewerVersion], [checkForUpdates]).

    JavaScript strings are sequences of UTF-16 code units; they are
    modelled as lists of code units, so that [length], [substring] and the
    regular expressions (which have no [u] flag) count what the code
    counts. *)

From Stdlib Require Import NArith ZArith Ascii String.
From stdpp Require Import base list gmap.

Local Open Scope N_scope.

(** ** Strings *)

Definition char := N.
Definition jsstring := list char.

(** An ASCII literal as a JavaScript string. *)
Definition js (s : string) : jsstring :=
  map N_of_ascii (list_ascii_of_string s).

Definition LF : char := 10.
Definition SPACE : char := 32.

(** LineTerminator of the language: LF, CR, LS, PS. *)
Definition isLineTerminator (c : char) : bool :=
  (c =? 10) || (c =? 13) || (c =? 0x2028) || (c =? 0x2029).

(** The class [\s], which is also what [trim] strips: WhiteSpace and
    LineTerminator code points. *)
Definition isWhiteSpace (c : char) : bool :=
  ((9 <=? c) && (c <=? 13)) || (c =? 32) || (c =? 160) || (c =? 0x1680)
  || ((0x2000 <=? c) && (c <=? 0x200a))
  || (c =? 0x2028) || (c =? 0x2029) || (c =? 0x202f) || (c =? 0x205f)
  || (c =? 0x3000) || (c =? 0xfeff).

Definition isDigit (c : char) : bool := (48 <=? c) && (c <=? 57).

Fixpoint trimStart (s : jsstring) : jsstring :=
  match s with
  | c :: s' => if isWhiteSpace c then trimStart s' else s
  | [] => []
  end.

Definition trimEnd (s : jsstring) : jsstring := rev (trimStart (rev s)).

(** [String.prototype.trim] *)
Definition trim (s : jsstring) : jsstring := trimEnd (trimStart s).

(** [s.substring(a, b)]: both indices are clamped to [0, length] and
    swapped when out of order. *)
Definition clampIndex (s : jsstring) (i : Z) : nat :=
  Nat.min (Z.to_nat i) (length s).

Definition substring (s : jsstring) (a b : Z) : jsstring :=
  let i := clampIndex s a in
  let j := clampIndex s b in
  take (Nat.max i j - Nat.min i j) (drop (Nat.min i j) s).

(** [s.substring(a)] *)
Definition substringFrom (s : jsstring) (a : Z) : jsstring :=
  substring s a (Z.of_nat (length s)).

(** [s.split(sep)] for a one-character separator: never empty. *)
Fixpoint split (sep : char) (s : jsstring) : list jsstring :=
  match s with
  | [] => [[]]
  | c :: s' =>
      if c =? sep then [] :: split sep s'
      else match split sep s' with
           | l :: ls => (c :: l) :: ls
           | [] => [[c]]
           end
  end.

(** [a.join(sep)] *)
Fixpoint join (sep : jsstring) (ls : list jsstring) : jsstring :=
  match ls with
  | [] => []
  | [l] => l
  | l :: ls' => l ++ sep ++ join sep ls'
  end.

(** [a.slice(1, -1)] *)
Definition slice_1_m1 {A} (l : list A) : list A :=
  take (length l - 2) (drop 1 l).

(** Position of the last occurrence of [c] in [s] at index [i] or later,
    as an offset from the start of the whole string; -1 when absent. *)
Fixpoint lastIndexOfFrom (c : char) (s : jsstring) (i : Z) : Z :=
  match s with
  | [] => (-1)%Z
  | x :: s' =>
      let r := lastIndexOfFrom c s' (i + 1)%Z in
      if (r <? 0)%Z then (if x =? c then i else (-1)%Z) else r
  end.

(** [s.lastIndexOf(c)] *)
Definition lastIndexOf (c : char) (s : jsstring) : Z := lastIndexOfFrom c s 0.

(** ** Regular expressions

    The patterns of the service use literals, character classes,
    quantified single-character atoms (greedy or lazy), one capture group
    and the anchors [^] and [$].  The matcher is the backtracking matcher
    of the language, written in continuation-passing style: [k] is what
    remains to be matched, and a failure of [k] makes the quantifier try
    its next alternative. *)

Inductive regex :=
| RChar (c : char)                       (* a literal character *)
| RSet (p : char -> bool)                (* a class, [\s], [\d], [.] *)
| RSeq (r1 r2 : regex)
| RRep (greedy : bool) (lo : nat) (hi : option nat) (p : char -> bool)
                                         (* p* p+ p{lo,hi} p*? *)
| RGroup (r : regex)                     (* capture group 1 *)
| RBol                                   (* ^ *)
| REol                                   (* $ *)
| REmpty.                                (* the empty pattern *)

Record RegExp := mkRegExp {
  source : regex;
  global : bool;      (* flag g *)
  multiline : bool    (* flag m *)
}.

Definition belowMax (hi : option nat) (n : nat) : bool :=
  match hi with
  | None => true
  | Some h => Nat.ltb n h
  end.

Section Matcher.
Context {A : Type}.
(** What follows: previous character, rest of the input, number of
    characters consumed since the start of the match, capture. *)
Definition cont := option char -> jsstring -> nat -> option jsstring -> option A.

(** [count] atoms matched so far by the quantifier. *)
Fixpoint rrep (greedy : bool) (lo : nat) (hi : option nat) (p : char -> bool)
    (k : cont) (cap : option jsstring) (count : nat)
    (prev : option char) (s : jsstring) (n : nat) : option A :=
  let stop := if Nat.leb lo count then k prev s n cap else None in
  let more :=
    match s with
    | c :: s' =>
        if p c && belowMax hi count
        then rrep greedy lo hi p k cap (S count) (Some c) s' (S n)
        else None
    | [] => None
    end in
  if greedy
  then match more with Some x => Some x | None => stop end
  else match stop with Some x => Some x | None => more end.

Definition atBol (m : bool) (prev : option char) : bool :=
  match prev with
  | None => true
  | Some c => m && isLineTerminator c
  end.

Definition atEol (m : bool) (s : jsstring) : bool :=
  match s with
  | [] => true
  | c :: _ => m && isLineTerminator c
  end.
End Matcher.

Fixpoint rmatch {A} (m : bool) (r : regex) (prev : option char) (s : jsstring)
    (n : nat) (cap : option jsstring) (k : @cont A) : option A :=
  match r with
  | RChar c =>
      match s with
      | x :: s' => if x =? c then k (Some x) s' (S n) cap else None
      | [] => None
      end
  | RSet p =>
      match s with
      | x :: s' => if p x then k (Some x) s' (S n) cap else None
      | [] => None
      end
  | RSeq r1 r2 =>
      rmatch m r1 prev s n cap (fun prev' s' n' cap' => rmatch m r2 prev' s' n' cap' k)
  | RRep g lo hi p => rrep g lo hi p k cap 0 prev s n
  | RGroup r1 =>
      rmatch m r1 prev s n cap
        (fun prev' s' n' _ => k prev' s' n' (Some (take (n' - n) s)))
  | RBol => if atBol m prev then k prev s n cap else None
  | REol => if atEol m s then k prev s n cap else None
  | REmpty => k prev s n cap
  end.

(** A match of [r] starting exactly here: length of the match and
    capture. *)
Definition matchHere (r : RegExp) (prev : option char) (s : jsstring)
    : option (nat * option jsstring) :=
  rmatch (multiline r) (source r) prev s 0 None
    (fun _ _ n cap => Some (n, cap)).

(** Leftmost match at offset [i] or later ([s] is the input from [i] on):
    index, length, capture. *)
Fixpoint search (r : RegExp) (prev : option char) (s : jsstring) (i : nat)
    : option (nat * nat * option jsstring) :=
  match matchHere r prev s with
  | Some (n, cap) => Some (i, n, cap)
  | None =>
      match s with
      | [] => None
      | c :: s' => search r (Some c) s' (S i)
      end
  end.

(** [r.exec(text)] with [r.lastIndex = lastIndex]. *)
Definition exec (r : RegExp) (text : jsstring) (lastIndex : nat)
    : option (nat * nat * option jsstring) :=
  if Nat.ltb (length text) lastIndex then None
  else search r (last (take lastIndex text)) (drop lastIndex text) lastIndex.

(** [r.test(text)] for a regular expression object whose [lastIndex] is
    [lastIndex]: the answer and the new [lastIndex].  Without the flag g
    the search starts at 0 and [lastIndex] is left alone. *)
Definition test (r : RegExp) (text : jsstring) (lastIndex : nat) : bool * nat :=
  if global r then
    match exec r text lastIndex with
    | Some (i, n, _) => (true, (i + n)%nat)
    | None => (false, 0%nat)
    end
  else
    match exec r text 0 with
    | Some _ => (true, lastIndex)
    | None => (false, lastIndex)
    end.

(** The indices of the successive matches that the idiom
    [while ((match = pattern.exec(text)) !== null)] visits for a global
    pattern: after a match of length [n] at [i] the next search starts at
    [i + n].  [skip] characters of [s] still belong to the previous
    match.  (Every pattern looped over in the service consumes at least
    one character, so [lastIndex] always advances.) *)
Fixpoint execAll (r : RegExp) (prev : option char) (s : jsstring)
    (i : nat) (skip : nat) : list nat :=
  match skip with
  | S k =>
      match s with
      | [] => []
      | c :: s' => execAll r (Some c) s' (S i) k
      end
  | O =>
      match matchHere r prev s with
      | Some (n, _) =>
          i :: match s with
               | [] => []
               | c :: s' => execAll r (Some c) s' (S i) (n - 1)
               end
      | None =>
          match s with
          | [] => []
          | c :: s' => execAll r (Some c) s' (S i) 0
          end
      end
  end.

(** Expansion of a replacement string: [$1] is the capture (empty when
    the group took no part), [$&] the match, [$$] a dollar sign. *)
Fixpoint expand (tpl : jsstring) (m : jsstring) (cap : option jsstring) : jsstring :=
  match tpl with
  | 36 :: 49 :: tpl' => default [] cap ++ expand tpl' m cap
  | 36 :: 38 :: tpl' => m ++ expand tpl' m cap
  | 36 :: 36 :: tpl' => 36 :: expand tpl' m cap
  | c :: tpl' => c :: expand tpl' m cap
  | [] => []
  end.

(** [s.replace(r, f)], [f] receiving the match and the capture.  The
    input is scanned from the left; [skip] characters of [s] still belong
    to the match just replaced.  An empty match is replaced and the
    character after it copied. *)
Fixpoint replaceGo (r : RegExp) (f : jsstring -> option jsstring -> jsstring)
    (prev : option char) (s : jsstring) (skip : nat) : jsstring :=
  match skip with
  | S k =>
      match s with
      | [] => []
      | c :: s' => replaceGo r f (Some c) s' k
      end
  | O =>
      match matchHere r prev s with
      | Some (n, cap) =>
          f (take n s) cap ++
          (if global r then
             match s with
             | [] => []
             | c :: s' =>
                 (match n with O => [c] | _ => [] end)
                 ++ replaceGo r f (Some c) s' (n - 1)
             end
           else drop n s)
      | None =>
          match s with
          | [] => []
          | c :: s' => c :: replaceGo r f (Some c) s' 0
          end
      end
  end.

Definition replaceWith (r : RegExp) (f : jsstring -> option jsstring -> jsstring)
    (s : jsstring) : jsstring :=
  replaceGo r f None s 0.

(** [s.replace(r, tpl)] with a replacement string. *)
Definition replace (r : RegExp) (tpl : jsstring) (s : jsstring) : jsstring :=
  replaceWith r (expand tpl) s.

(** [(s.match(r) || []).length] for a global pattern. *)
Definition countMatches (r : RegExp) (s : jsstring) : nat :=
  length (execAll r None s 0 0).

(** ** Notation for patterns *)

Definition ch (a : ascii) : char := N_of_ascii a.
Arguments ch a%_char.

(** Concatenation of the parts of a pattern. *)
Fixpoint rseq (rs : list regex) : regex :=
  match rs with
  | [] => REmpty
  | [r] => r
  | r :: rs' => RSeq r (rseq rs')
  end.

Definition isChar (a : ascii) : char -> bool := fun c => c =? ch a.
Arguments isChar a%_char.
Definition isNot (a : ascii) : char -> bool := fun c => negb (c =? ch a).
Arguments isNot a%_char.
Definition oneOf (l : list ascii) : char -> bool :=
  fun c => existsb (fun a => c =? ch a) l.

Definition plus (p : char -> bool) : regex := RRep true 1 None p.
Definition star (p : char -> bool) : regex := RRep true 0 None p.
Definition lazyStar (p : char -> bool) : regex := RRep false 0 None p.

(** [/.../g], [/.../gm], [/.../] *)
Definition reG (r : regex) : RegExp := mkRegExp r true false.
Definition reGM (r : regex) : RegExp := mkRegExp r true true.
Definition rePlain (r : regex) : RegExp := mkRegExp r false false.

(** ** Sanitization service *)

Definition anyChar : char -> bool := fun c => isWhiteSpace c || negb (isWhiteSpace c).
Definition dot : char -> bool := fun c => negb (isLineTerminator c).

Definition fence : regex := rseq [RChar (ch "`"); RChar (ch "`"); RChar (ch "`")].

(** The fenced block: three backquotes, the shortest run of any
    characters, three backquotes. *)
Definition fencedCodePattern : RegExp := reG (rseq [fence; lazyStar anyChar; fence]).

(** [/`([^`]+)`/g] *)
Definition inlineCodePattern : RegExp :=
  reG (rseq [RChar (ch "`"); RGroup (plus (isNot "`")); RChar (ch "`")]).

Definition stripCodeBlocks (content : jsstring) : jsstring :=
  let result :=
    replaceWith fencedCodePattern
      (fun m _ =>
         let lines := split LF m in
         let codeLines := slice_1_m1 lines in
         join [LF] codeLines)
      content in
  replace inlineCodePattern (js "$1") result.

(** [/X([^c]+)X/g] for a delimiter [X] made of the character [c]. *)
Definition delimited (delim : list regex) (c : ascii) : RegExp :=
  reG (rseq (delim ++ [RGroup (plus (fun x => negb (x =? ch c)))] ++ delim)).

Definition markdownPatterns : list (RegExp * jsstring) :=
  [ (* /^#{1,6}\s+/gm *)
    (reGM (rseq [RBol; RRep true 1 (Some 6%nat) (isChar "#"); plus isWhiteSpace]), js "");
    (* /\*\*([^*]+)\*\*/g *)
    (delimited [RChar (ch "*"); RChar (ch "*")] "*", js "$1");
    (* /__([^_]+)__/g *)
    (delimited [RChar (ch "_"); RChar (ch "_")] "_", js "$1");
    (* /\*([^*]+)\*/g *)
    (delimited [RChar (ch "*")] "*", js "$1");
    (* /_([^_]+)_/g *)
    (delimited [RChar (ch "_")] "_", js "$1");
    (* /~~([^~]+)~~/g *)
    (delimited [RChar (ch "~"); RChar (ch "~")] "~", js "$1");
    (* /\[([^\]]+)\]\([^)]+\)/g *)
    (reG (rseq [RChar (ch "["); RGroup (plus (isNot "]")); RChar (ch "]");
                RChar (ch "("); plus (isNot ")"); RChar (ch ")")]), js "$1");
    (* images: "!", "[", any run of non-"]" captured, "]", "(", [^)]+, ")" *)
    (reG (rseq [RChar (ch "!"); RChar (ch "["); RGroup (star (isNot "]"));
                RChar (ch "]"); RChar (ch "("); plus (isNot ")"); RChar (ch ")")]),
     js "$1");
    (* /^>\s*/gm *)
    (reGM (rseq [RBol; RChar (ch ">"); star isWhiteSpace]), js "");
    (* /^[-*_]{3,}$/gm *)
    (reGM (rseq [RBol; RRep true 3 None (oneOf ["-"; "*"; "_"]%char); REol]), js "");
    (* /^[\s]*[-*+]\s+/gm, replaced by a bullet and a space *)
    (reGM (rseq [RBol; star isWhiteSpace; RSet (oneOf ["-"; "*"; "+"]%char);
                 plus isWhiteSpace]), [0x2022; SPACE]);
    (* /^[\s]*\d+\.\s+/gm *)
    (reGM (rseq [RBol; star isWhiteSpace; plus isDigit; RChar (ch ".");
                 plus isWhiteSpace]), js "") ].

(** [for (const [pattern, replacement] of table) result = result.replace(...)] *)
Definition replaceAll (table : list (RegExp * jsstring)) (content : jsstring) : jsstring :=
  fold_left (fun result pr => replace (fst pr) (snd pr) result) table content.

Definition stripMarkdown (content : jsstring) : jsstring :=
  replaceAll markdownPatterns content.

(** A row of the table whose pattern is one glyph. *)
Definition glyph (c : char) (replacement : string) : RegExp * jsstring :=
  (reG (RChar c), js replacement).

Definition SQRT : char := 0x221a.

Definition replacements : list (RegExp * jsstring) :=
  [ (* square root of a parenthesised argument, of a number, bare *)
    (reG (rseq [RChar SQRT; RChar (ch "("); RGroup (plus (isNot ")")); RChar (ch ")")]),
     js "sqrt($1)");
    (reG (rseq [RChar SQRT; RGroup (plus isDigit)]), js "sqrt($1)");
    glyph SQRT "sqrt";
    glyph 0x221a "sqrt";
    glyph 0x222b "Integral of ";
    glyph 0x2211 "Sum of ";
    glyph 0x03a3 "Sum of ";
    glyph 0x220f "Product of ";
    glyph 0x03a0 "Product of ";
    glyph 0x221e "infinity";
    glyph 0x00b1 "+/-";
    glyph 0x00d7 "*";
    glyph 0x22c5 "*";
    glyph 0x00f7 "/";
    glyph 0x2260 "!=";
    glyph 0x2264 "<=";
    glyph 0x2265 ">=";
    glyph 0x2248 "~=";
    glyph 0x221d " proportional to ";
    glyph 0x00b0 " degrees";
    glyph 0x03c0 "pi";
    glyph 0x03b8 "theta";
    glyph 0x03b1 "alpha";
    glyph 0x03b2 "beta";
    glyph 0x03b3 "gamma";
    glyph 0x03b4 "delta";
    glyph 0x0394 "Delta";
    glyph 0x03bb "lambda";
    glyph 0x03bc "mu";
    glyph 0x03c3 "sigma";
    glyph 0x03c9 "omega";
    glyph 0x03a9 "Omega";
    glyph 0x2192 "->";
    glyph 0x2190 "<-";
    glyph 0x2194 "<->";
    glyph 0x21d2 "=>";
    glyph 0x21d0 "<=";
    glyph 0x2080 "_0";
    glyph 0x2081 "_1";
    glyph 0x2082 "_2";
    glyph 0x2083 "_3";
    glyph 0x2084 "_4";
    glyph 0x2085 "_5";
    glyph 0x2086 "_6";
    glyph 0x2087 "_7";
    glyph 0x2088 "_8";
    glyph 0x2089 "_9";
    glyph 0x2099 "_n";
    glyph 0x2093 "_x";
    glyph 0x1d62 "_i";
    glyph 0x2c7c "_j";
    glyph 0x2070 "^0";
    glyph 0x00b9 "^1";
    glyph 0x00b2 "^2";
    glyph 0x00b3 "^3";
    glyph 0x2074 "^4";
    glyph 0x2075 "^5";
    glyph 0x2076 "^6";
    glyph 0x2077 "^7";
    glyph 0x2078 "^8";
    glyph 0x2079 "^9";
    glyph 0x207f "^n";
    glyph 0x00bd "1/2";
    glyph 0x2153 "1/3";
    glyph 0x00bc "1/4";
    glyph 0x2155 "1/5";
    glyph 0x2159 "1/6";
    glyph 0x2150 "1/7";
    glyph 0x215b "1/8";
    glyph 0x2151 "1/9";
    glyph 0x2152 "1/10";
    glyph 0x2154 "2/3";
    glyph 0x00be "3/4";
    glyph 0x2156 "2/5";
    glyph 0x2157 "3/5";
    glyph 0x2158 "4/5" ].

Definition convertMathSymbols (content : jsstring) : jsstring :=
  replaceAll replacements content.

(** [/\|(.+)\|/g] *)
Definition tablePattern : RegExp :=
  reG (rseq [RChar (ch "|"); RGroup (plus dot); RChar (ch "|")]).

(** [/^\|[-:| ]+\|$/] *)
Definition separatorPattern : RegExp :=
  rePlain (rseq [RBol; RChar (ch "|"); plus (oneOf ["-"; ":"; "|"; " "]%char);
                 RChar (ch "|"); REol]).

Definition nonEmpty (s : jsstring) : bool :=
  match s with [] => false | _ => true end.

(** The loop over the lines.  [tablePattern] has the flag g, so the
    regular expression object keeps its [lastIndex] from one call of
    [test] to the next; it is threaded here. *)
Fixpoint convertTablesLoop (lines : list jsstring) (lastIndex : nat) : list jsstring :=
  match lines with
  | [] => []
  | line :: rest =>
      if fst (test separatorPattern (trim line) 0) then
        convertTablesLoop rest lastIndex
      else
        let '(isRow, lastIndex') := test tablePattern line lastIndex in
        if isRow then
          let cells :=
            join (js " | ")
              (map trim
                 (List.filter (fun cell => nonEmpty (trim cell))
                    (split (ch "|") line))) in
          cells :: convertTablesLoop rest lastIndex'
        else line :: convertTablesLoop rest lastIndex'
  end.

Definition convertTables (content : jsstring) : jsstring :=
  let lines := split LF content in
  join [LF] (convertTablesLoop lines 0).

(** [/  +/g] *)
Definition spacesPattern : RegExp := reG (rseq [RChar SPACE; plus (isChar " ")]).

(** [/\n{3,}/g] *)
Definition newlinesPattern : RegExp := reG (RRep true 3 None (fun c => c =? LF)).

Definition normalizeWhitespace (content : jsstring) : jsstring :=
  let result := replace spacesPattern (js " ") content in
  let result := replace newlinesPattern [LF; LF] result in
  let result := join [LF] (map trim (split LF result)) in
  trim result.

Definition sanitizeAIResponse (content : jsstring) : jsstring :=
  let result := content in
  let result := stripCodeBlocks result in
  let result := stripMarkdown result in
  let result := convertMathSymbols result in
  let result := convertTables result in
  let result := normalizeWhitespace result in
  result.

Record PolicyCheck := mkPolicyCheck {
  safe : bool;
  reason : option jsstring
}.

Definition checkContentPolicy (_content : jsstring) : PolicyCheck :=
  mkPolicyCheck true None.

(** ** Chunking *)

Definition isInsideBrackets (text : jsstring) (position : Z) : bool :=
  let before := substring text 0 position in
  let openParens := countMatches (reG (RChar (ch "("))) before in
  let closeParens := countMatches (reG (RChar (ch ")"))) before in
  let openBrackets := countMatches (reG (RChar (ch "["))) before in
  let closeBrackets := countMatches (reG (RChar (ch "]"))) before in
  let openBraces := countMatches (reG (RChar (ch "{"))) before in
  let closeBraces := countMatches (reG (RChar (ch "}"))) before in
  Nat.ltb closeParens openParens
  || Nat.ltb closeBrackets openBrackets
  || Nat.ltb closeBraces openBraces.

(** [/\.\s/g], [/!\s/g], [/\?\s/g], [/\n/g] *)
Definition sentencePatterns : list RegExp :=
  [ reG (rseq [RChar (ch "."); RSet isWhiteSpace]);
    reG (rseq [RChar (ch "!"); RSet isWhiteSpace]);
    reG (rseq [RChar (ch "?"); RSet isWhiteSpace]);
    reG (RChar LF) ].

Definition findLastSentenceEnd (text : jsstring) : Z :=
  fold_left
    (fun lastPos pattern =>
       fold_left
         (fun lastPos index =>
            if negb (isInsideBrackets text (Z.of_nat index))
            then Z.max lastPos (Z.of_nat index + 1)
            else lastPos)
         (execAll pattern None text 0 0) lastPos)
    sentencePatterns (-1)%Z.

(** [/[,;:]\s/g] *)
Definition clausePattern : RegExp :=
  reG (rseq [RSet (oneOf [","; ";"; ":"]%char); RSet isWhiteSpace]).

Definition findLastClauseEnd (text : jsstring) : Z :=
  fold_left
    (fun lastPos index =>
       if negb (isInsideBrackets text (Z.of_nat index))
       then (Z.of_nat index + 1)%Z
       else lastPos)
    (execAll clausePattern None text 0 0) (-1)%Z.

(** [x > maxLen * 0.5] for integers [x] and [maxLen]: the product is
    exact in floating point, so the test is [2 * x > maxLen]. *)
Definition pastHalf (x : Z) (maxLen : nat) : bool :=
  (Z.of_nat maxLen <? 2 * x)%Z.

Definition findSafeBoundary (text : jsstring) : Z :=
  let maxLen := length text in
  let sentenceEnd := findLastSentenceEnd text in
  if pastHalf sentenceEnd maxLen then sentenceEnd
  else
    let clauseEnd := findLastClauseEnd text in
    if pastHalf clauseEnd maxLen then clauseEnd
    else
      let wordEnd := lastIndexOf SPACE text in
      if pastHalf wordEnd maxLen then wordEnd
      else Z.of_nat maxLen.

(** The [while] loop of [chunkResponse]; [None] when [fuel] iterations
    do not reach its exit. *)
Fixpoint chunkLoop (fuel : nat) (maxChunkSize : Z) (remaining : jsstring)
    (chunks : list jsstring) : option (list jsstring) :=
  match fuel with
  | O => None
  | S fuel' =>
      if Nat.ltb 0 (length remaining) then
        if (Z.of_nat (length remaining) <=? maxChunkSize)%Z then
          Some (chunks ++ [remaining])
        else
          let chunk := substring remaining 0 maxChunkSize in
          let boundary := findSafeBoundary chunk in
          chunkLoop fuel' maxChunkSize
            (trim (substringFrom remaining boundary))
            (chunks ++ [trim (substring chunk 0 boundary)])
      else Some chunks
  end.

(** [chunkResponse(content, maxChunkSize)].  The loop removes at least
    one character from [remaining] in each iteration when
    [maxChunkSize > 0], so [length content + 1] iterations are enough
    then ([chunkResponse_total] below); for [maxChunkSize <= 0] the loop
    of the source may never reach its exit: it then pushes one empty
    fragment after the other until [chunks.push] throws
    ([chunkResponseWithin] below), no array is returned, and the result
    here is [None]. *)
Definition chunkResponse (content : jsstring) (maxChunkSize : Z)
    : option (list jsstring) :=
  if (Z.of_nat (length content) <=? maxChunkSize)%Z then Some [content]
  else chunkLoop (S (length content)) maxChunkSize content [].








(** How a call of [chunkResponse] ends: it returns its array, or
    [chunks.push] throws the RangeError of an array that cannot grow. *)
Inductive outcome :=
| Returned (chunks : list jsstring)
| RangeError.

(** [chunks.push(x)] for an array that holds at most [maxLength]
    elements (2^32 - 1 in the language, fewer where the memory ends
    earlier); [None] is the RangeError. *)
Definition push (maxLength : nat) (chunks : list jsstring) (x : jsstring)
    : option (list jsstring) :=
  if Nat.ltb (length chunks) maxLength then Some (chunks ++ [x]) else None.

(** The loop of [chunkResponse] with the limit on the array. *)
Fixpoint chunkLoopWithin (maxLength : nat) (fuel : nat) (maxChunkSize : Z)
    (remaining : jsstring) (chunks : list jsstring) : option outcome :=
  match fuel with
  | O => None
  | S fuel' =>
      if Nat.ltb 0 (length remaining) then
        if (Z.of_nat (length remaining) <=? maxChunkSize)%Z then
          match push maxLength chunks remaining with
          | Some chunks' => Some (Returned chunks')
          | None => Some RangeError
          end
        else
          let chunk := substring remaining 0 maxChunkSize in
          let boundary := findSafeBoundary chunk in
          match push maxLength chunks (trim (substring chunk 0 boundary)) with
          | Some chunks' =>
              chunkLoopWithin maxLength fuel' maxChunkSize
                (trim (substringFrom remaining boundary)) chunks'
          | None => Some RangeError
          end
      else Some (Returned chunks)
  end.

(** [chunkResponse(content, maxChunkSize)] with the limit on the array.
    An iteration that does not shorten [remaining] still makes the array
    longer, so [length content + maxLength + 2] iterations are enough for
    every [maxChunkSize] ([chunkResponseWithin_total] below). *)
Definition chunkResponseWithin (maxLength : nat) (content : jsstring)
    (maxChunkSize : Z) : option outcome :=
  if (Z.of_nat (length content) <=? maxChunkSize)%Z then Some (Returned [content])
  else chunkLoopWithin maxLength (S (length content) + S maxLength) maxChunkSize
         content [].

(** The windows that the loop of [chunkResponse] searches and the
    boundary [findSafeBoundary] returns in each: the same loop, recording
    the cuts instead of the fragments. *)
Fixpoint boundariesLoop (fuel : nat) (maxChunkSize : Z) (remaining : jsstring)
    : list (jsstring * Z) :=
  match fuel with
  | O => []
  | S fuel' =>
      if Nat.ltb 0 (length remaining) then
        if (Z.of_nat (length remaining) <=? maxChunkSize)%Z then []
        else
          let chunk := substring remaining 0 maxChunkSize in
          let boundary := findSafeBoundary chunk in
          (chunk, boundary)
          :: boundariesLoop fuel' maxChunkSize
               (trim (substringFrom remaining boundary))
      else []
  end.

Definition boundaries (content : jsstring) (maxChunkSize : Z) : list (jsstring * Z) :=
  if (Z.of_nat (length content) <=? maxChunkSize)%Z then []
  else boundariesLoop (S (length content)) maxChunkSize content.

(** ** Whitespace of a text *)

(** No two consecutive space characters. *)
Fixpoint noDoubleSpace (s : jsstring) : bool :=
  match s with
  | a :: ((b :: _) as t) => negb ((a =? SPACE) && (b =? SPACE)) && noDoubleSpace t
  | _ => true
  end.

(** No three consecutive newlines. *)
Fixpoint noTripleNewline (s : jsstring) : bool :=
  match s with
  | a :: ((b :: c :: _) as t) =>
      negb ((a =? LF) && (b =? LF) && (c =? LF)) && noTripleNewline t
  | _ => true
  end.

Definition headWS (s : jsstring) : bool :=
  match s with
  | c :: _ => isWhiteSpace c
  | [] => false
  end.

Definition lastWS (s : jsstring) : bool := headWS (rev s).

(** Neither the first nor the last character is whitespace. *)
Definition edgeClean (s : jsstring) : bool := negb (headWS s) && negb (lastWS s).

(** The lines of a text have no leading or trailing whitespace. *)
Definition linesClean (s : jsstring) : bool := forallb edgeClean (split LF s).

(** All four parts of normal whitespace. *)
Definition whitespaceNormal (s : jsstring) : bool :=
  noDoubleSpace s && noTripleNewline s && linesClean s && edgeClean s.

(** ** Plain text *)

(** [r] matches somewhere in [s]. *)
Definition hasMatch (r : RegExp) (s : jsstring) : bool :=
  match search r None s 0 with
  | Some _ => true
  | None => false
  end.

(** The markup constructs and the glyphs that the sanitizer rewrites. *)
Definition markupPatterns : list RegExp :=
  [fencedCodePattern; inlineCodePattern]
  ++ map fst markdownPatterns ++ map fst replacements.

(** A line that [convertTables] drops or rewrites. *)
Definition isTableLine (line : jsstring) : bool :=
  fst (test separatorPattern (trim line) 0) || fst (test tablePattern line 0).

(** Already-plain text: none of the recognized markup constructs or
    mapped glyphs occurs in it, none of its lines is a table line, and
    its whitespace is normal. *)
Definition plainText (s : jsstring) : bool :=
  forallb (fun r => negb (hasMatch r s)) markupPatterns
  && forallb (fun line => negb (isTableLine line)) (split LF s)
  && whitespaceNormal s.

(** ** AI service *)

Inductive AIProvider :=
| OPENAI | ANTHROPIC | GEMINI | DEEPSEEK | PERPLEXITY | GROQ | OPENROUTER.

Record AIConfig := mkAIConfig {
  provider : AIProvider;
  model : jsstring;
  apiKey : option jsstring;      (* null when the device has no key *)
  maxChars : Z;
  temperature : Z
}.

Record Device := mkDevice {
  deviceId : jsstring;
  aiConfig : option AIConfig
}.

Record AIProviderConfig := mkAIProviderConfig {
  pcProvider : AIProvider;
  pcModel : jsstring;
  pcApiKey : jsstring;
  pcMaxChars : Z;
  pcTemperature : Z
}.

(** A row of the table [ai_chunks]. *)
Record AIChunk := mkAIChunk {
  chunkDeviceId : jsstring;
  chunks : list jsstring;
  cursor : nat;
  expiresAt : Z                  (* milliseconds *)
}.

(** The tables the service reads and writes.  [devices] and
    [activityLog] are keyed by the device's database id.  In [ai_chunks]
    the column [id] is the primary key and [query_id] has a unique index:
    the row that [findUnique({ where: { queryId } })] returns is the row
    that [where: { id: chunkRecord.id }] addresses afterwards, and the
    rows are keyed here by [queryId]. *)
Record Db := mkDb {
  devices : gmap jsstring Device;
  activityLog : gmap jsstring Z;
  aiChunks : gmap jsstring AIChunk
}.

Definition setAiChunks (db : Db) (t : gmap jsstring AIChunk) : Db :=
  mkDb (devices db) (activityLog db) t.

Definition setActivityLog (db : Db) (t : gmap jsstring Z) : Db :=
  mkDb (devices db) t (aiChunks db).

Inductive error :=
| NotFoundError (message : string)
| ValidationError (message : string)
| AppError (status : Z) (message : string)
| UniqueConstraintError.           (* raised by the database client *)

(** [chunk] is [None] where the source returns [undefined]. *)
Record AIQueryResponse := mkResponse {
  chunk : option jsstring;
  has_more : bool;
  respCursor : option jsstring
}.

Record Limits := mkLimits {
  aiOutputChunkSize : Z;
  aiChunkTTL : Z                 (* seconds *)
}.

(** [config.limits] *)
Definition configLimits : Limits := mkLimits 2500 3600.

Definition providerName (p : AIProvider) : string :=
  match p with
  | OPENAI => "OPENAI" | ANTHROPIC => "ANTHROPIC" | GEMINI => "GEMINI"
  | DEEPSEEK => "DEEPSEEK" | PERPLEXITY => "PERPLEXITY" | GROQ => "GROQ"
  | OPENROUTER => "OPENROUTER"
  end.

Definition blockedResponse : AIQueryResponse :=
  mkResponse (Some (js "Content blocked by policy")) false None.

Section Service.
(** The policy screen, the limits of the configuration, the API keys of
    the environment and the provider call ([None] when it throws). *)
Variable screen : jsstring -> PolicyCheck.
Variable limits : Limits.
Variable envKey : AIProvider -> option jsstring.
Variable callAIProvider : jsstring -> AIProviderConfig -> option jsstring.

(** [x || null] for a string: the empty string is falsy. *)
Definition truthy (x : option jsstring) : option jsstring :=
  match x with
  | Some (_ :: _) => x
  | _ => None
  end.

Definition getApiKey (p : AIProvider) (deviceApiKey : option jsstring)
    : option jsstring :=
  match truthy deviceApiKey with
  | Some k => Some k
  | None => truthy (envKey p)
  end.

(** [processAIQuery] up to the provider call: the failure it throws
    or the generated text. *)
Definition generate (db : Db) (deviceDbId : jsstring) (prompt : jsstring)
    : error + jsstring :=
  match devices db !! deviceDbId with
  | None => inl (NotFoundError "Device not found")
  | Some device =>
      match aiConfig device with
      | None => inl (ValidationError "AI not configured for this device")
      | Some aiConfig =>
          match getApiKey (provider aiConfig) (apiKey aiConfig) with
          | None =>
              inl (ValidationError
                     ("No API key configured for " ++ providerName (provider aiConfig)))
          | Some apiKey =>
              let providerConfig :=
                mkAIProviderConfig (provider aiConfig) (model aiConfig) apiKey
                  (maxChars aiConfig) (temperature aiConfig) in
              match callAIProvider prompt providerConfig with
              | None => inl (AppError 500 "AI provider error. Please try again.")
              | Some rawResponse => inr rawResponse
              end
          end
      end
  end.

(** [processAIQuery] from the sanitization on: what is done with a
    generated text that passed the policy screen.  [queryId] is the
    token that [generateQueryId()] draws and [now] the clock. *)
Definition deliver (db : Db) (deviceDbId : jsstring) (rawResponse : jsstring)
    (queryId : jsstring) (now : Z)
    : option ((error + AIQueryResponse) * Db) :=
  let sanitized := sanitizeAIResponse rawResponse in
  match chunkResponse sanitized (aiOutputChunkSize limits) with
  | None => None
  | Some chunks =>
      let db := setActivityLog db (<[deviceDbId := now]> (activityLog db)) in
      if Nat.eqb (length chunks) 1 then
        Some (inr (mkResponse (chunks !! 0%nat) false None), db)
      else
        match aiChunks db !! queryId with
        | Some _ => Some (inl UniqueConstraintError, db)
        | None =>
            let row :=
              mkAIChunk deviceDbId (drop 1 chunks) 1
                (now + aiChunkTTL limits * 1000)%Z in
            Some (inr (mkResponse (chunks !! 0%nat) true (Some queryId)),
                  setAiChunks db (<[queryId := row]> (aiChunks db)))
        end
  end.

(** The result is [None] when [chunkResponse] returns no array. *)
Definition processAIQueryWith (db : Db) (deviceDbId : jsstring) (prompt : jsstring)
    (queryId : jsstring) (now : Z)
    : option ((error + AIQueryResponse) * Db) :=
  match generate db deviceDbId prompt with
  | inl e => Some (inl e, db)
  | inr rawResponse =>
      let policyCheck := screen rawResponse in
      if negb (safe policyCheck) then Some (inr blockedResponse, db)
      else deliver db deviceDbId rawResponse queryId now
  end.
End Service.

(** [processAIQuery] as the service has it: screened by
    [checkContentPolicy], with the limits of the configuration. *)
Definition processAIQuery := processAIQueryWith checkContentPolicy configLimits.

Definition continueAIQuery (db : Db) (cursor_ : jsstring) (now : Z)
    : (error + AIQueryResponse) * Db :=
  match aiChunks db !! cursor_ with
  | None => (inl (NotFoundError "Query not found or expired"), db)
  | Some chunkRecord =>
      if (expiresAt chunkRecord <? now)%Z then
        (inl (NotFoundError "Query expired"),
         setAiChunks db (delete cursor_ (aiChunks db)))
      else
        let chunks := chunks chunkRecord in
        let currentIndex := cursor chunkRecord in
        if Nat.leb (length chunks) currentIndex then
          (inr (mkResponse (Some []) false None),
           setAiChunks db (delete cursor_ (aiChunks db)))
        else
          let currentChunk := chunks !! currentIndex in
          let hasMore := Nat.ltb (currentIndex + 1) (length chunks) in
          let db' :=
            if hasMore then
              setAiChunks db
                (<[cursor_ := mkAIChunk (chunkDeviceId chunkRecord) chunks
                                (currentIndex + 1) (expiresAt chunkRecord)]>
                   (aiChunks db))
            else setAiChunks db (delete cursor_ (aiChunks db)) in
          (inr (mkResponse currentChunk hasMore
                  (if hasMore then Some cursor_ else None)), db')
  end.

(** [cleanupExpiredChunks]: the rows deleted and the table left. *)
Definition cleanupExpiredChunks (db : Db) (now : Z) : nat * Db :=
  let expired := filter (fun kv => (expiresAt kv.2 < now)%Z) (aiChunks db) in
  (size expired,
   setAiChunks db (filter (fun kv => ¬ (expiresAt kv.2 < now)%Z) (aiChunks db))).

(** ** Query ids *)

(** A lowercase hexadecimal digit. *)
Definition hexDigit (n : N) : char := if n <? 10 then 48 + n else 87 + n.

Definition isHexDigit (c : char) : bool :=
  isDigit c || ((97 <=? c) && (c <=? 102)).

(** [buffer.toString('hex')]: two digits for each byte. *)
Definition hexByte (b : N) : jsstring := [hexDigit (b / 16); hexDigit (b mod 16)].

Definition toHex (bytes : list N) : jsstring := flat_map hexByte bytes.

(** [generateQueryId()], with the bytes that [crypto.randomBytes(12)]
    draws. *)
Definition generateQueryId (randomBytes : list N) : jsstring :=
  js "query_" ++ toHex randomBytes.

(** ** OTA service: versions *)

(** The run of decimal digits at the start of a string and its value. *)
Fixpoint digitRun (s : jsstring) : jsstring :=
  match s with
  | c :: s' => if isDigit c then c :: digitRun s' else []
  | [] => []
  end.

Definition digitsValue (ds : jsstring) : Z :=
  fold_left (fun acc c => (10 * acc + (Z.of_N c - 48))%Z) ds 0%Z.

(** A number that [parseInt] returns: NaN or an integer. *)
Inductive number :=
| NaN
| Num (z : Z).

(** [parseInt(s, 10)]: leading whitespace is skipped, one sign is read,
    and the digits up to the first other character are the value; NaN
    without a digit.  A Number holds every integer of up to 15 digits
    exactly; a longer run of digits is rounded, and the result is [None]
    here: such inputs are outside this model. *)
Definition parseInt10 (s : jsstring) : option number :=
  let inputString := trimStart s in
  let '(sign, digits) :=
    match inputString with
    | c :: rest =>
        if c =? ch "-" then ((-1)%Z, rest)
        else if c =? ch "+" then (1%Z, rest)
        else (1%Z, inputString)
    | [] => (1%Z, inputString)
    end in
  let run := digitRun digits in
  if Nat.ltb 15 (length run) then None
  else match run with
       | [] => Some NaN
       | _ => Some (Num (sign * digitsValue run))
       end.

(** [x || 0] for a number: NaN and zero are falsy. *)
Definition orZero (x : number) : Z :=
  match x with
  | NaN => 0%Z
  | Num z => z
  end.

(** [v.split('.').map((n) => parseInt(n, 10) || 0)] *)
Definition parseVersion (v : jsstring) : option (list Z) :=
  mapM (fun n => orZero <$> parseInt10 n) (split (ch ".") v).

(** [parts[i] || 0]: a missing part counts as zero. *)
Definition part (parts : list Z) (i : nat) : Z := default 0%Z (parts !! i).

(** The loop of [isNewerVersion] from index [i] on, with [steps]
    iterations left. *)
Fixpoint newerFrom (steps : nat) (i : nat) (newParts currentParts : list Z) : bool :=
  match steps with
  | O => false
  | S steps' =>
      let newPart := part newParts i in
      let currentPart := part currentParts i in
      if (currentPart <? newPart)%Z then true
      else if (newPart <? currentPart)%Z then false
      else newerFrom steps' (S i) newParts currentParts
  end.

Definition newerParts (newParts currentParts : list Z) : bool :=
  newerFrom (Nat.max (length newParts) (length currentParts)) 0 newParts currentParts.

Definition isNewerVersion (newVersion currentVersion : jsstring) : option bool :=
  newParts ← parseVersion newVersion;
  currentParts ← parseVersion currentVersion;
  Some (newerParts newParts currentParts).

Record Firmware := mkFirmware {
  fwVersion : jsstring;
  fwChecksum : jsstring;
  fwFileSize : Z
}.

Record UpdateCheckResponse := mkUpdateCheck {
  available : bool;
  version : option jsstring;
  checksum : option jsstring;
  file_size : option Z
}.

(** [checkForUpdates] on what its two queries return: the firmware
    version of the device ([None] without the device) and the firmware
    created last ([None] in an empty table). *)
Definition checkForUpdates (firmwareVersion : option jsstring)
    (latestFirmware : option Firmware) : option (error + UpdateCheckResponse) :=
  match firmwareVersion with
  | None => Some (inl (NotFoundError "Device not found"))
  | Some current =>
      match latestFirmware with
      | None => Some (inr (mkUpdateCheck false None None None))
      | Some latest =>
          newer ← isNewerVersion (fwVersion latest) current;
          if newer : bool then
            Some (inr (mkUpdateCheck true (Some (fwVersion latest))
                         (Some (fwChecksum latest)) (Some (fwFileSize latest))))
          else Some (inr (mkUpdateCheck false None None None))
      end
  end.

(** The order of the parts: the first part that differs is greater. *)
Definition greaterParts (p q : list Z) : Prop :=
  exists i, (part q i < part p i)%Z /\ forall j, (j < i)%nat -> part p j = part q j.

(** ** Vocabulary of the properties *)

(** A device with its own API key and a provider that answers a long
    text, for the statements about concrete queries. *)
Module Sample.
Definition device : Device :=
  mkDevice (js "calx-1")
    (Some (mkAIConfig OPENAI (js "gpt-4o-mini") (Some (js "key")) 4000 0)).
Definition db0 : Db := mkDb {[ js "dev" := device ]} ∅ ∅.
Definition noEnvKey : AIProvider -> option jsstring := fun _ => None.
(** A provider that answers 2600 letters, whatever the prompt. *)
Definition answer : jsstring := repeat (ch "a") 2600.
Definition provider : jsstring -> AIProviderConfig -> option jsstring :=
  fun _ _ => Some answer.
Definition second : jsstring := repeat (ch "a") 100.
End Sample.

Definition whitespaceOnly (s : jsstring) : bool := forallb isWhiteSpace s.

Definition occurrences (c : char) (s : jsstring) : nat :=
  length (List.filter (fun x => x =? c) s).

Definition isBracket (c : char) : bool :=
  existsb (fun a => c =? ch a) ["("; ")"; "["; "]"; "{"; "}"]%char.

(** At least as many closing as opening brackets of each kind. *)
Definition noExcessOpen (s : jsstring) : bool :=
  Nat.leb (occurrences (ch "(") s) (occurrences (ch ")") s)
  && Nat.leb (occurrences (ch "[") s) (occurrences (ch "]") s)
  && Nat.leb (occurrences (ch "{") s) (occurrences (ch "}") s).


(** A position that the sentence or the clause search may return: -1, or
    the position after a character that is not a bracket and that
    [isInsideBrackets] accepted. *)
Definition checkedCut (text : jsstring) (z : Z) : Prop :=
  z = (-1)%Z
  \/ exists idx c,
       z = (Z.of_nat idx + 1)%Z /\ text !! idx = Some c /\ isBracket c = false
       /\ isInsideBrackets text (Z.of_nat idx) = false.

(** [interleaved frags text]: [text] is the fragments in order, with a
    whitespace-only string (possibly empty) before, between and after
    them. *)
Inductive interleaved : list jsstring -> jsstring -> Prop :=
| interleaved_nil ws :
    whitespaceOnly ws = true -> interleaved [] ws
| interleaved_cons ws f frags rest :
    whitespaceOnly ws = true -> interleaved frags rest ->
    interleaved (f :: frags) (ws ++ f ++ rest).

(** [between frags text]: [text] is the fragments in order, with a
    whitespace-only string (possibly empty) between consecutive ones and
    nothing else. *)
Inductive between : list jsstring -> jsstring -> Prop :=
| between_one f : between [f] f
| between_cons f ws frags rest :
    whitespaceOnly ws = true -> between frags rest ->
    between (f :: frags) (f ++ ws ++ rest).

Definition withinSize (maxSize : Z) (f : jsstring) : Prop :=
  (Z.of_nat (length f) <= maxSize)%Z.

(** Length of the longest prefix whose characters satisfy [p]. *)
Fixpoint lead (p : char -> bool) (s : jsstring) : nat :=
  match s with
  | c :: s' => if p c then S (lead p s') else O
  | [] => O
  end.

Definition isSpace (c : char) : bool := c =? SPACE.

Definition isLF (c : char) : bool := c =? LF.

Definition startsWith (p : char -> bool) (s : jsstring) : bool :=
  match s with
  | c :: _ => p c
  | [] => false
  end.

Definition noLF (s : jsstring) : bool := forallb (fun c => negb (c =? LF)) s.

(** [needs Q r]: every match of [r] holds a character that satisfies
    [Q]. *)
Fixpoint needs (Q : char -> bool) (r : regex) : Prop :=
  match r with
  | RChar c => Q c = true
  | RSet p => forall c, p c = true -> Q c = true
  | RSeq r1 r2 => needs Q r1 \/ needs Q r2
  | RRep _ lo _ p => (0 < lo)%nat /\ forall c, p c = true -> Q c = true
  | RGroup r1 => needs Q r1
  | RBol | REol | REmpty => False
  end.

(** The characters of plain prose: ASCII letters, the space, and the
    punctuation marks . , ; : ? ! ' ( ) and the double quote. *)
Definition isProseChar (c : char) : bool :=
  ((65 <=? c) && (c <=? 90)) || ((97 <=? c) && (c <=? 122)) || (c =? 32)
  || (c =? 46) || (c =? 44) || (c =? 59) || (c =? 58) || (c =? 63) || (c =? 33)
  || (c =? 39) || (c =? 40) || (c =? 41) || (c =? 34).

Definition notProseChar (c : char) : bool := negb (isProseChar c).

(** A character that is not whitespace. *)
Definition visible (c : char) : bool := negb (isWhiteSpace c).

(** A fence: three backquotes. *)
Definition ticks : jsstring := [ch "`"; ch "`"; ch "`"].

(** The delimiter is not prose and not what the patterns before its own
    look for. *)
Definition otherMarkup (a : ascii) (c : char) : bool :=
  notProseChar c && negb (c =? ch a).

(** The bar of a table row. *)
Definition bar : char := ch "|".

(** A row: a bar, a body, a bar. *)
Definition rowOf (body : jsstring) : jsstring := bar :: body ++ [bar].

(** What [convertTables] writes for a row. *)
Definition cellsOf (line : jsstring) : jsstring :=
  join (js " | ")
    (map trim (List.filter (fun cell => nonEmpty (trim cell)) (split bar line))).

(** Two [c] side by side somewhere in the text. *)
Fixpoint adjacent (c : char) (s : jsstring) : bool :=
  match s with
  | x :: s' =>
      match s' with
      | y :: _ => ((x =? c) && (y =? c)) || adjacent c s'
      | [] => false
      end
  | [] => false
  end.

(** Every chunk of every stored session has at most [size] characters. *)
Definition chunksWithin (size : nat) (db : Db) : Prop :=
  map_Forall (fun _ row => Forall (fun c => (length c <= size)%nat) (chunks row))
    (aiChunks db).

(** An answer that is a response carries a chunk, of at most [size]
    characters. *)
Definition carriesChunk (size : nat) (r : error + AIQueryResponse) : Prop :=
  match r with
  | inl _ => True
  | inr resp => exists c, chunk resp = Some c /\ (length c <= size)%nat
  end.

(** A client that calls [continueAIQuery] on one cursor at the instants
    [nows], one call after the other: the answers and the tables left. *)
Fixpoint continueSeq (db : Db) (q : jsstring) (nows : list Z)
    : list (error + AIQueryResponse) * Db :=
  match nows with
  | [] => ([], db)
  | now :: nows' =>
      let '(r, db') := continueAIQuery db q now in
      let '(rs, db'') := continueSeq db' q nows' in
      (r :: rs, db'')
  end.

(** The answers that serve the chunks [rest] in order: [has_more] and the
    cursor on all but the last. *)
Fixpoint servedInOrder (q : jsstring) (rest : list jsstring)
    : list (error + AIQueryResponse) :=
  match rest with
  | [] => []
  | [c] => [inr (mkResponse (Some c) false None)]
  | c :: rest' => inr (mkResponse (Some c) true (Some q)) :: servedInOrder q rest'
  end.

(** The glyphs that the table of [convertMathSymbols] maps: the rows
    whose pattern is one character. *)
Definition mappedGlyphs : list char :=
  omap (fun pr => match source (fst pr) with
                  | RChar c => Some c
                  | _ => None
                  end) replacements.

Definition occursIn (c : char) (s : jsstring) : bool := existsb (fun x => x =? c) s.

(** [removes g table]: the table has a row that replaces every [g] by a
    text without [g] (and without a dollar sign), and no replacement text
    from that row on holds [g]. *)
Fixpoint removes (g : char) (table : list (RegExp * jsstring)) : bool :=
  match table with
  | [] => false
  | (r, tpl) :: rest =>
      (match source r with RChar c => (c =? g) && global r | _ => false end
       && negb (occursIn 36 tpl)
       && forallb (fun pr => negb (occursIn g (snd pr))) table)
      || removes g rest
  end.

(** * Properties *)

(** ** The continuation protocol *)

Section ContinuationFacts.
Implicit Types (db : Db) (q : jsstring) (now : Z).

Lemma continue_absent db q now :
  aiChunks db !! q = None ->
  continueAIQuery db q now = (inl (NotFoundError "Query not found or expired"), db).
Proof. intros H. unfold continueAIQuery. by rewrite H. Qed.

Lemma continue_expired db q now row :
  aiChunks db !! q = Some row -> (expiresAt row < now)%Z ->
  continueAIQuery db q now
  = (inl (NotFoundError "Query expired"), setAiChunks db (delete q (aiChunks db))).
Proof.
  intros H Hexp. unfold continueAIQuery. rewrite H.
  by rewrite (proj2 (Z.ltb_lt _ _) Hexp).
Qed.

(** A live session always yields a response, never a failure. *)
Lemma continue_live db q now row :
  aiChunks db !! q = Some row -> (now <= expiresAt row)%Z ->
  exists resp db', continueAIQuery db q now = (inr resp, db').
Proof.
  intros H Hlive. unfold continueAIQuery. rewrite H.
  rewrite (proj2 (Z.ltb_ge _ _) Hlive).
  destruct (Nat.leb _ _); eauto.
Qed.

(** Whatever [continueAIQuery] answers with [has_more = false], the
    session is gone afterwards. *)
Lemma continue_last_deletes db q now resp db' :
  continueAIQuery db q now = (inr resp, db') -> has_more resp = false ->
  aiChunks db' !! q = None.
Proof.
  unfold continueAIQuery. destruct (aiChunks db !! q) as [row|] eqn:E; [|done].
  destruct (expiresAt row <? now)%Z; [done|].
  destruct (Nat.leb (length (chunks row)) (cursor row)).
  - intros [= <- <-] _. simpl. apply lookup_delete_eq.
  - destruct (Nat.ltb (cursor row + 1) (length (chunks row))).
    + by intros [= <- <-].
    + intros [= <- <-] _. simpl. apply lookup_delete_eq.
Qed.
End ContinuationFacts.

(** C3: [continueAIQuery] fails with NotFound exactly when the cursor
    matches no stored session or the matched session's [expiresAt] lies
    in the past; it raises no other failure; and once a call has answered
    [has_more = false] (the session is deleted with the last fragment),
    every further call on that cursor is NotFound. *)
Theorem continueAIQuery_NotFound_exactly (db : Db) (q : jsstring) (now : Z) :
  ((exists msg, (continueAIQuery db q now).1 = inl (NotFoundError msg))
   <-> (aiChunks db !! q = None
        \/ exists row, aiChunks db !! q = Some row /\ (expiresAt row < now)%Z))
  /\ ((exists msg, (continueAIQuery db q now).1 = inl (NotFoundError msg))
      \/ exists resp, (continueAIQuery db q now).1 = inr resp)
  /\ (forall resp db' now',
        continueAIQuery db q now = (inr resp, db') -> has_more resp = false ->
        exists msg, (continueAIQuery db' q now').1 = inl (NotFoundError msg)).
Proof.
  split; [split|split].
  - intros [msg Hmsg].
    destruct (aiChunks db !! q) as [row|] eqn:E; [right|by left].
    exists row. split; [done|].
    destruct (Z.lt_ge_cases (expiresAt row) now) as [|Hlive]; [done|].
    destruct (continue_live db q now row E Hlive) as (resp & db' & Hc).
    rewrite Hc in Hmsg. discriminate.
  - intros [Hnone | (row & Hrow & Hexp)].
    + rewrite (continue_absent _ _ _ Hnone). eauto.
    + rewrite (continue_expired _ _ _ _ Hrow Hexp). eauto.
  - destruct (aiChunks db !! q) as [row|] eqn:E.
    + destruct (Z.lt_ge_cases (expiresAt row) now) as [Hexp|Hlive].
      * left. rewrite (continue_expired _ _ _ _ E Hexp). eauto.
      * right. destruct (continue_live db q now row E Hlive) as (resp & db' & Hc).
        rewrite Hc. eauto.
    + left. rewrite (continue_absent _ _ _ E). eauto.
  - intros resp db' now' Hc Hlast.
    rewrite (continue_absent db' q now' (continue_last_deletes _ _ _ _ _ Hc Hlast)).
    eauto.
Qed.

(** ** The policy screen *)

(** C9: whenever the policy screen reports the generated text unsafe,
    [processAIQuery] answers the fixed blocked-content fragment with
    [has_more = false] and leaves every table as it was: no continuation
    session is created.  The answer does not depend on the limits, so it
    is given even for a chunk size at which chunking returns no array:
    the text is neither sanitized nor chunked. *)
Theorem processAIQuery_policy_blocked
    (screen : jsstring -> PolicyCheck) (limits : Limits)
    (envKey : AIProvider -> option jsstring)
    (callAIProvider : jsstring -> AIProviderConfig -> option jsstring)
    (db : Db) (deviceDbId prompt queryId : jsstring) (now : Z)
    (rawResponse : jsstring) :
  generate envKey callAIProvider db deviceDbId prompt = inr rawResponse ->
  safe (screen rawResponse) = false ->
  processAIQueryWith screen limits envKey callAIProvider db deviceDbId prompt queryId now
  = Some (inr blockedResponse, db)
  /\ chunk blockedResponse = Some (js "Content blocked by policy")
  /\ has_more blockedResponse = false.
Proof.
  intros Hgen Hunsafe. unfold processAIQueryWith.
  rewrite Hgen. cbn zeta. by rewrite Hunsafe.
Qed.

Lemma processAIQuery_policy_blocked_witness :
  processAIQueryWith (fun _ => mkPolicyCheck false None) (mkLimits 0 3600)
    Sample.noEnvKey Sample.provider Sample.db0 (js "dev") (js "why?") (js "query_00") 0
  = Some (inr blockedResponse, Sample.db0)
  /\ chunk blockedResponse = Some (js "Content blocked by policy")
  /\ has_more blockedResponse = false.
Proof.
  apply (processAIQuery_policy_blocked _ _ _ _ _ _ _ _ _ Sample.answer); reflexivity.
Defined.

(** ** Continuation after a response of several chunks *)

(** What [deliver] does with a response of two chunks or more: the first
    is returned, the others are stored, with the cursor at 1. *)
Lemma deliver_several limits db deviceDbId rawResponse queryId now c0 c1 rest :
  chunkResponse (sanitizeAIResponse rawResponse) (aiOutputChunkSize limits)
  = Some (c0 :: c1 :: rest) ->
  aiChunks db !! queryId = None ->
  deliver limits db deviceDbId rawResponse queryId now
  = Some (inr (mkResponse (Some c0) true (Some queryId)),
          mkDb (devices db) (<[deviceDbId := now]> (activityLog db))
            (<[queryId := mkAIChunk deviceDbId (c1 :: rest) 1
                            (now + aiChunkTTL limits * 1000)%Z]> (aiChunks db))).
Proof.
  intros Hchunks Hfresh. unfold deliver. rewrite Hchunks. simpl.
  by rewrite Hfresh.
Qed.

(** The first continuation of a session stored with the cursor at 1 reads
    index 1 of the stored chunks: with one stored chunk it answers the
    empty string and [has_more = false], and deletes the session. *)
Lemma continue_one_stored db q now deviceDbId c1 expires :
  aiChunks db !! q = Some (mkAIChunk deviceDbId [c1] 1 expires) ->
  (now <= expires)%Z ->
  continueAIQuery db q now
  = (inr (mkResponse (Some []) false None),
     setAiChunks db (delete q (aiChunks db))).
Proof.
  intros Hrow Hlive. unfold continueAIQuery. rewrite Hrow. simpl.
  by rewrite (proj2 (Z.ltb_ge _ _) Hlive).
Qed.

(** With more stored chunks it answers the second of them. *)
Lemma continue_several_stored db q now deviceDbId c1 c2 rest expires :
  aiChunks db !! q = Some (mkAIChunk deviceDbId (c1 :: c2 :: rest) 1 expires) ->
  (now <= expires)%Z ->
  exists db', continueAIQuery db q now
  = (inr (mkResponse (Some c2) (negb (Nat.eqb (length rest) 0))
            (if negb (Nat.eqb (length rest) 0) then Some q else None)), db').
Proof.
  intros Hrow Hlive. unfold continueAIQuery. rewrite Hrow. simpl.
  rewrite (proj2 (Z.ltb_ge _ _) Hlive).
  destruct rest; simpl; eauto.
Qed.

Lemma Sample_chunks :
  chunkResponse (sanitizeAIResponse Sample.answer) (aiOutputChunkSize configLimits)
  = Some [repeat (ch "a") 2500; Sample.second].
Proof. vm_compute. reflexivity. Qed.

(** C1, on the code: a response of two chunks.  [processAIQuery] returns
    the first chunk with [has_more = true] and stores the second one with
    the cursor at 1; the first [continueAIQuery] then reads index 1 of the
    one stored chunk, answers the empty string with [has_more = false] and
    deletes the session: the second chunk is never served. *)
Theorem continuation_skips_first_stored_chunk :
  exists db1 db2,
    processAIQuery Sample.noEnvKey Sample.provider Sample.db0 (js "dev") (js "why?")
      (js "query_00") 0
    = Some (inr (mkResponse (Some (repeat (ch "a") 2500)) true (Some (js "query_00"))), db1)
    /\ aiChunks db1 !! js "query_00"
       = Some (mkAIChunk (js "dev") [Sample.second] 1 3600000)
    /\ continueAIQuery db1 (js "query_00") 0
       = (inr (mkResponse (Some []) false None), db2)
    /\ aiChunks db2 !! js "query_00" = None.
Proof.
  eexists _, _. split; [|split; [|split]].
  - unfold processAIQuery, processAIQueryWith.
    replace (generate Sample.noEnvKey Sample.provider Sample.db0 (js "dev") (js "why?"))
      with (@inr error jsstring Sample.answer) by reflexivity.
    cbn [checkContentPolicy safe negb].
    apply deliver_several; [exact Sample_chunks | reflexivity].
  - cbn [aiChunks]. apply lookup_insert_eq.
  - apply (continue_one_stored _ _ _ (js "dev") Sample.second 3600000); [|done].
    cbn [aiChunks]. apply lookup_insert_eq.
  - cbn [aiChunks setAiChunks]. apply lookup_delete_eq.
Qed.

(** ** Strings: trimming and substrings *)

Lemma whitespaceOnly_app a b :
  whitespaceOnly (a ++ b) = whitespaceOnly a && whitespaceOnly b.
Proof. apply forallb_app. Qed.

Lemma whitespaceOnly_rev a : whitespaceOnly (rev a) = whitespaceOnly a.
Proof.
  induction a as [|c a IH]; [done|]. simpl.
  rewrite whitespaceOnly_app, IH. simpl. rewrite andb_true_r. apply andb_comm.
Qed.

Lemma trimStart_split s :
  exists ws, s = ws ++ trimStart s /\ whitespaceOnly ws = true.
Proof.
  induction s as [|c s (ws & Hs & Hws)]; [by exists []|].
  simpl. destruct (isWhiteSpace c) eqn:Hc.
  - exists (c :: ws). split; [by rewrite Hs at 1|]. simpl. by rewrite Hc.
  - by exists [].
Qed.

Lemma trimEnd_split s :
  exists ws, s = trimEnd s ++ ws /\ whitespaceOnly ws = true.
Proof.
  unfold trimEnd. destruct (trimStart_split (rev s)) as (ws & Hs & Hws).
  exists (rev ws). split; [|by rewrite whitespaceOnly_rev].
  rewrite <- rev_app_distr, <- Hs. by rewrite rev_involutive.
Qed.

Lemma trim_split s :
  exists ws1 ws2,
    s = ws1 ++ trim s ++ ws2
    /\ whitespaceOnly ws1 = true /\ whitespaceOnly ws2 = true.
Proof.
  destruct (trimStart_split s) as (ws1 & H1 & Hw1).
  destruct (trimEnd_split (trimStart s)) as (ws2 & H2 & Hw2).
  exists ws1, ws2. unfold trim. by rewrite <- H2.
Qed.

Lemma trim_length s : (length (trim s) <= length s)%nat.
Proof.
  destruct (trim_split s) as (ws1 & ws2 & Hs & _).
  rewrite Hs at 2. rewrite !length_app. lia.
Qed.

Lemma take_min_length {A} (n : nat) (l : list A) :
  take (Nat.min n (length l)) l = take n l.
Proof.
  destruct (Nat.le_gt_cases n (length l)).
  - by rewrite Nat.min_l.
  - rewrite Nat.min_r by lia. by rewrite !take_ge by lia.
Qed.

Lemma substring_0 s b : substring s 0 b = take (Z.to_nat b) s.
Proof.
  unfold substring, clampIndex. simpl.
  rewrite Nat.sub_0_r. apply take_min_length.
Qed.

Lemma substringFrom_drop s a : substringFrom s a = drop (Z.to_nat a) s.
Proof.
  unfold substringFrom, substring, clampIndex.
  rewrite Nat2Z.id, Nat.min_id.
  rewrite Nat.max_r, Nat.min_l by lia.
  rewrite take_ge by (rewrite length_drop; lia).
  destruct (Nat.le_gt_cases (Z.to_nat a) (length s)).
  - by rewrite Nat.min_l.
  - rewrite Nat.min_r by lia. by rewrite !drop_ge by lia.
Qed.

(** ** The matcher: where its matches start *)

(** When every match of [r] starts with a character satisfying [Q], the
    indices that the [exec] loop visits are positions of such
    characters. *)
Lemma execAll_first (r : RegExp) (Q : char -> Prop)
    (HQ : forall prev s, matchHere r prev s <> None ->
                         exists c s', s = c :: s' /\ Q c) :
  forall s prev i skip,
    Forall (fun j => exists c, (i <= j)%nat /\ s !! (j - i)%nat = Some c /\ Q c)
           (execAll r prev s i skip).
Proof.
  assert (Hshift : forall c s i l,
    Forall (fun j => exists x, (S i <= j)%nat /\ s !! (j - S i)%nat = Some x /\ Q x) l ->
    Forall (fun j => exists x, (i <= j)%nat /\ (c :: s) !! (j - i)%nat = Some x /\ Q x) l).
  { intros c s i l Hl. eapply Forall_impl; [exact Hl|].
    intros j (x & Hij & Hx & HQx).
    exists x. split; [lia|]. split; [|done].
    replace (j - i)%nat with (S (j - S i)) by lia. done. }
  induction s as [|c s IH]; intros prev i skip.
  - destruct skip; simpl; [|done].
    destruct (matchHere r prev []) as [[n cap]|] eqn:E; [|done].
    destruct (HQ prev []) as (c & s' & Hs & _); [congruence|done].
  - destruct skip; simpl.
    + destruct (matchHere r prev (c :: s)) as [[n cap]|] eqn:E.
      * constructor; [|by apply Hshift].
        destruct (HQ prev (c :: s)) as (c' & s' & [= <- <-] & HQc); [congruence|].
        exists c. rewrite Nat.sub_diag. done.
      * by apply Hshift.
    + by apply Hshift.
Qed.

Lemma lastIndexOfFrom_spec c s i :
  (0 <= i)%Z ->
  lastIndexOfFrom c s i = (-1)%Z
  \/ (i <= lastIndexOfFrom c s i < i + Z.of_nat (length s))%Z.
Proof.
  revert i. induction s as [|x s IH]; intros i Hi; [by left|].
  cbn [lastIndexOfFrom length]. rewrite Nat2Z.inj_succ.
  destruct (IH (i + 1)%Z) as [-> | Hr]; [lia| |].
  - change (-1 <? 0)%Z with true. cbn iota.
    destruct (x =? c); [right|by left]. lia.
  - destruct (Z.ltb_spec (lastIndexOfFrom c s (i + 1)) 0); right; lia.
Qed.

(** ** Brackets *)








(** ** Where [findSafeBoundary] cuts *)

Lemma checkedCut_fold text (pick : Z -> Z -> Z)
    (Hpick : forall a b, pick a b = a \/ pick a b = b) :
  forall l z0,
    checkedCut text z0 ->
    Forall (fun j => exists c, text !! j = Some c /\ isBracket c = false) l ->
    checkedCut text
      (fold_left
         (fun lastPos index =>
            if negb (isInsideBrackets text (Z.of_nat index))
            then pick lastPos (Z.of_nat index + 1)%Z
            else lastPos) l z0).
Proof.
  induction l as [|j l IH]; intros z0 Hz0 Hl; [done|].
  apply Forall_cons in Hl as [(c & Hc & Hb) Hl].
  cbn [fold_left]. apply IH; [|done].
  destruct (isInsideBrackets text (Z.of_nat j)) eqn:E; [done|]. cbn [negb].
  destruct (Hpick z0 (Z.of_nat j + 1)%Z) as [-> | ->]; [done|].
  right. by exists j, c.
Qed.

Lemma execAll_terminators r text
    (Hr : forall prev s, matchHere r prev s <> None ->
                         exists c s', s = c :: s' /\ isBracket c = false) :
  Forall (fun j => exists c, text !! j = Some c /\ isBracket c = false)
         (execAll r None text 0 0).
Proof.
  eapply Forall_impl; [apply (execAll_first r _ Hr)|].
  intros j (c & _ & Hc & Hb). rewrite Nat.sub_0_r in Hc. eauto.
Qed.

(** The patterns [/X\s/g]: a match starts with the character [X]. *)
Lemma terminator_first (p : char -> bool) prev s :
  (forall c, p c = true -> isBracket c = false) ->
  matchHere (reG (rseq [RSet p; RSet isWhiteSpace])) prev s <> None ->
  exists c s', s = c :: s' /\ isBracket c = false.
Proof.
  intros Hp. destruct s as [|c s]; [done|].
  unfold matchHere. cbn [rmatch rseq source reG multiline].
  destruct (p c) eqn:E; [|done]. eauto.
Qed.

Lemma findLastSentenceEnd_checked text : checkedCut text (findLastSentenceEnd text).
Proof.
  unfold findLastSentenceEnd, sentencePatterns. cbn [fold_left].
  assert (Hmax : forall a b, Z.max a b = a \/ Z.max a b = b) by (intros; lia).
  repeat (apply (checkedCut_fold text Z.max Hmax); [|apply execAll_terminators]);
    [by left|..];
    (intros prev [|c s]; [done|]; unfold matchHere;
     cbn [rmatch rseq source reG multiline];
     match goal with
     | |- context [c =? ?x] => destruct (N.eqb_spec c x) as [->|]; [eauto|done]
     end).
Qed.

Lemma findLastClauseEnd_checked text : checkedCut text (findLastClauseEnd text).
Proof.
  unfold findLastClauseEnd.
  apply (checkedCut_fold text (fun _ b => b)); [by right|by left|].
  apply execAll_terminators. intros prev s. apply terminator_first.
  intros c. unfold oneOf. cbn [existsb]. rewrite orb_false_r.
  intros H. repeat (apply orb_prop in H as [H|H]);
    apply N.eqb_eq in H; by subst.
Qed.

Lemma checkedCut_range text z : checkedCut text z -> (z <= Z.of_nat (length text))%Z.
Proof.
  intros [-> | (idx & c & -> & Hc & _)]; [lia|].
  apply lookup_lt_Some in Hc. lia.
Qed.


Lemma findSafeBoundary_range text :
  text <> [] -> (1 <= findSafeBoundary text <= Z.of_nat (length text))%Z.
Proof.
  intros Hne. assert (0 < length text)%nat by (destruct text; [done|simpl; lia]).
  pose proof (checkedCut_range _ _ (findLastSentenceEnd_checked text)).
  pose proof (checkedCut_range _ _ (findLastClauseEnd_checked text)).
  pose proof (lastIndexOfFrom_spec SPACE text 0 ltac:(lia)) as Hw.
  fold (lastIndexOf SPACE text) in Hw.
  unfold findSafeBoundary, pastHalf.
  repeat match goal with
         | |- context [(?a <? ?b)%Z] => destruct (Z.ltb_spec a b)
         end; lia.
Qed.

(** ** Chunking: termination, bound and reconstruction *)

Lemma interleaved_prepend frags text ws :
  whitespaceOnly ws = true -> interleaved frags text -> interleaved frags (ws ++ text).
Proof.
  intros Hws [ws' Hws' | ws' f frags' rest Hws' Hrest].
  - constructor. by rewrite whitespaceOnly_app, Hws, Hws'.
  - rewrite app_assoc. constructor; [|done].
    by rewrite whitespaceOnly_app, Hws, Hws'.
Qed.

Lemma interleaved_append frags text ws :
  whitespaceOnly ws = true -> interleaved frags text -> interleaved frags (text ++ ws).
Proof.
  intros Hws. induction 1 as [ws' Hws' | ws' f frags' rest Hws' Hrest IH].
  - constructor. by rewrite whitespaceOnly_app, Hws', Hws.
  - rewrite <- !app_assoc. by constructor.
Qed.

Lemma interleaved_single text : interleaved [text] text.
Proof.
  replace text with ([] ++ text ++ []) at 2 by (by rewrite app_nil_r).
  by repeat constructor.
Qed.

(** One cut of the loop: the fragment and the new remainder rebuild the
    old remainder, and the remainder gets shorter. *)
Lemma cut_step (maxSize : Z) (remaining : jsstring) :
  (0 < maxSize)%Z -> (maxSize < Z.of_nat (length remaining))%Z ->
  let chunk := substring remaining 0 maxSize in
  let boundary := findSafeBoundary chunk in
  let fragment := trim (substring chunk 0 boundary) in
  let remaining' := trim (substringFrom remaining boundary) in
  withinSize maxSize fragment
  /\ (length remaining' < length remaining)%nat
  /\ exists ws1 ws2 ws3,
       remaining = ws1 ++ fragment ++ ws2 ++ remaining' ++ ws3
       /\ whitespaceOnly ws1 = true /\ whitespaceOnly ws2 = true
       /\ whitespaceOnly ws3 = true.
Proof.
  intros Hpos Hlong chunk boundary fragment remaining'.
  assert (Hchunk : length chunk = Z.to_nat maxSize).
  { unfold chunk. rewrite substring_0, length_take. lia. }
  assert (Hb : (1 <= boundary <= maxSize)%Z).
  { pose proof (findSafeBoundary_range chunk) as Hr.
    fold boundary in Hr. rewrite Hchunk in Hr.
    destruct chunk; [simpl in Hchunk; lia|]. specialize (Hr ltac:(done)). lia. }
  assert (Htake : substring chunk 0 boundary = take (Z.to_nat boundary) remaining).
  { unfold chunk. rewrite !substring_0, take_take. f_equal. lia. }
  split; [|split].
  - unfold withinSize. pose proof (trim_length (substring chunk 0 boundary)) as H.
    fold fragment in H.
    assert (length (substring chunk 0 boundary) <= Z.to_nat boundary)%nat
      by (rewrite Htake, length_take; lia).
    lia.
  - pose proof (trim_length (substringFrom remaining boundary)) as H.
    fold remaining' in H.
    assert (length (substringFrom remaining boundary)
            = length remaining - Z.to_nat boundary)%nat
      by (by rewrite substringFrom_drop, length_drop).
    lia.
  - destruct (trim_split (substring chunk 0 boundary)) as (ws1 & ws2 & H1 & Hw1 & Hw2).
    destruct (trim_split (substringFrom remaining boundary)) as (ws3 & ws4 & H2 & Hw3 & Hw4).
    fold fragment in H1. fold remaining' in H2.
    exists ws1, (ws2 ++ ws3), ws4. rewrite whitespaceOnly_app, Hw2, Hw3.
    repeat split; try done.
    rewrite <- (take_drop (Z.to_nat boundary) remaining) at 1.
    rewrite <- Htake, <- substringFrom_drop, H1, H2 at 1.
    by rewrite <- !app_assoc.
Qed.

Lemma chunkLoop_spec (maxSize : Z) (Hpos : (0 < maxSize)%Z) :
  forall fuel remaining chunks,
    (length remaining < fuel)%nat ->
    exists frags,
      chunkLoop fuel maxSize remaining chunks = Some (chunks ++ frags)
      /\ Forall (withinSize maxSize) frags
      /\ interleaved frags remaining.
Proof.
  induction fuel as [|fuel IH]; intros remaining chunks Hfuel; [lia|].
  cbn [chunkLoop].
  destruct (Nat.ltb_spec 0 (length remaining)) as [Hne|He].
  - destruct (Z.leb_spec (Z.of_nat (length remaining)) maxSize) as [Hfit|Hlong].
    + exists [remaining]. split; [done|]. split; [by repeat constructor|].
      apply interleaved_single.
    + destruct (cut_step maxSize remaining Hpos Hlong)
        as (Hsize & Hshort & ws1 & ws2 & ws3 & Hrem & Hw1 & Hw2 & Hw3).
      cbv zeta in Hsize, Hshort, Hrem.
      set (fragment := trim (substring (substring remaining 0 maxSize) 0
                               (findSafeBoundary (substring remaining 0 maxSize)))) in *.
      set (remaining' := trim (substringFrom remaining
                                 (findSafeBoundary (substring remaining 0 maxSize)))) in *.
      destruct (IH remaining' (chunks ++ [fragment]) ltac:(lia))
        as (frags & Hloop & Hall & Hint).
      exists (fragment :: frags). rewrite Hloop, <- app_assoc. split; [done|].
      split; [by constructor|].
      rewrite Hrem. constructor; [done|].
      apply interleaved_prepend; [done|]. by apply interleaved_append.
  - exists []. rewrite app_nil_r. split; [done|]. split; [done|].
    destruct remaining; [by constructor|simpl in He; lia].
Qed.

(** For a positive size [chunkResponse] returns: the fuel of its
    definition is enough. *)
Lemma chunkResponse_total (text : jsstring) (maxSize : Z) :
  (0 < maxSize)%Z ->
  exists frags,
    chunkResponse text maxSize = Some frags
    /\ Forall (withinSize maxSize) frags
    /\ interleaved frags text.
Proof.
  intros Hpos. unfold chunkResponse.
  destruct (Z.leb_spec (Z.of_nat (length text)) maxSize) as [Hfit|Hlong].
  - exists [text]. split; [done|]. split; [by repeat constructor|].
    apply interleaved_single.
  - destruct (chunkLoop_spec maxSize Hpos (S (length text)) text [] ltac:(lia))
      as (frags & Hloop & Hall & Hint).
    exists frags. by rewrite Hloop.
Qed.

(** More fuel does not change a result. *)
Lemma chunkLoop_fuel_mono maxSize fuel : forall fuel' remaining chunks out,
  chunkLoop fuel maxSize remaining chunks = Some out -> (fuel <= fuel')%nat ->
  chunkLoop fuel' maxSize remaining chunks = Some out.
Proof.
  induction fuel as [|fuel IH]; intros fuel' remaining chunks out H Hle; [done|].
  destruct fuel' as [|fuel']; [lia|]. cbn [chunkLoop] in *.
  destruct (Nat.ltb 0 (length remaining)); [|done].
  destruct (Z.of_nat (length remaining) <=? maxSize)%Z; [done|].
  apply IH; [done|lia].
Qed.

(** C4: for every text and every maxSize > 0, [chunkResponse] returns a
    sequence of fragments, and every fragment of it has length at most
    maxSize. *)
Theorem chunkResponse_fragments_bounded (text : jsstring) (maxSize : Z) :
  (0 < maxSize)%Z ->
  exists frags,
    chunkResponse text maxSize = Some frags
    /\ Forall (fun f => (Z.of_nat (length f) <= maxSize)%Z) frags.
Proof.
  intros Hpos. destruct (chunkResponse_total text maxSize Hpos) as (frags & H & Hall & _).
  by exists frags.
Qed.

Lemma chunkResponse_fragments_bounded_witness :
  exists frags,
    chunkResponse (js "First sentence. Second sentence. Third sentence.") 20 = Some frags
    /\ Forall (fun f => (Z.of_nat (length f) <= 20)%Z) frags.
Proof. apply chunkResponse_fragments_bounded. lia. Defined.

(** C8: for every text and every maxSize > 0 with
    [length text <= maxSize], [chunkResponse] returns the one-element
    sequence whose element is the text, unchanged. *)
Theorem chunkResponse_short (text : jsstring) (maxSize : Z) :
  (0 < maxSize)%Z -> (Z.of_nat (length text) <= maxSize)%Z ->
  chunkResponse text maxSize = Some [text].
Proof.
  intros _ Hfit. unfold chunkResponse.
  by rewrite (proj2 (Z.leb_le _ _) Hfit).
Qed.

Lemma chunkResponse_short_witness :
  chunkResponse (js "Short content.") 2500 = Some [js "Short content."].
Proof. apply chunkResponse_short; [lia | vm_compute; discriminate]. Defined.

(** ** Fragment boundaries and brackets *)


Lemma boundariesLoop_findSafeBoundary maxSize : forall fuel remaining i window boundary,
  boundariesLoop fuel maxSize remaining !! i = Some (window, boundary) ->
  boundary = findSafeBoundary window.
Proof.
  induction fuel as [|fuel IH]; intros remaining i window boundary H; [done|].
  cbn [boundariesLoop] in H.
  destruct (Nat.ltb 0 (length remaining)); [|done].
  destruct (Z.of_nat (length remaining) <=? maxSize)%Z; [done|].
  destruct i as [|i]; [by injection H as <- <-|]. by apply (IH _ _ _ _ H).
Qed.














(** The word rule does not look at brackets either: [(aaaa bbbb)] with
    maxSize 8 is cut at the space, after [(aaaa]. *)
Lemma chunkResponse_word_rule_inside_brackets :
  chunkResponse (js "(aaaa bbbb)") 8 = Some [js "(aaaa"; js "bbbb)"]
  /\ boundaries (js "(aaaa bbbb)") 8 = [(js "(aaaa bb", 5%Z)]
  /\ noExcessOpen (js "(aaaa") = false.
Proof. vm_compute. repeat split. Qed.

(** ** Replacement: unfolding equations *)

Lemma replaceGo_skip r f : forall k s prev,
  (k <= length s)%nat ->
  exists prev', replaceGo r f prev s k = replaceGo r f prev' (drop k s) 0.
Proof.
  induction k as [|k IH]; intros s prev Hk; [by exists prev|].
  destruct s as [|c s]; [simpl in Hk; lia|].
  cbn [replaceGo drop]. apply IH. simpl in Hk. lia.
Qed.

Lemma replaceGo_match r f prev s n cap :
  global r = true -> matchHere r prev s = Some (n, cap) ->
  (0 < n <= length s)%nat ->
  exists prev',
    replaceGo r f prev s 0 = f (take n s) cap ++ replaceGo r f prev' (drop n s) 0.
Proof.
  intros Hg Hm Hn. destruct s as [|c s]; [simpl in Hn; lia|].
  destruct n as [|n]; [lia|].
  cbn [replaceGo]. rewrite Hm, Hg.
  destruct (replaceGo_skip r f n s (Some c)) as (prev' & Hskip);
    [simpl in Hn; lia|].
  exists prev'. cbn [Nat.sub drop]. rewrite Nat.sub_0_r.
  by rewrite Hskip.
Qed.

Lemma replaceGo_no_match_here r f prev c s :
  matchHere r prev (c :: s) = None ->
  replaceGo r f prev (c :: s) 0 = c :: replaceGo r f (Some c) s 0.
Proof. intros Hm. cbn [replaceGo]. by rewrite Hm. Qed.

(** Without a match anywhere the text is returned as it is. *)
Lemma replaceGo_no_match r f : forall s prev i,
  search r prev s i = None -> replaceGo r f prev s 0 = s.
Proof.
  induction s as [|c s IH]; intros prev i H; cbn [search replaceGo] in *.
  - by destruct (matchHere r prev []) as [[n cap]|].
  - destruct (matchHere r prev (c :: s)) as [[n cap]|]; [done|].
    f_equal. by apply (IH _ (S i)).
Qed.

(** ** Greedy quantifiers at the end of a pattern *)

Lemma lead_length p s : (lead p s <= length s)%nat.
Proof. induction s as [|c s IH]; simpl; [lia|]. destruct (p c); simpl; lia. Qed.

Lemma lead_drop p s : lead p (drop (lead p s) s) = 0%nat.
Proof.
  induction s as [|c s IH]; [done|]. simpl.
  destruct (p c) eqn:E; [done|]. simpl. by rewrite E.
Qed.

(** A greedy, unbounded quantifier that ends the pattern takes the whole
    run. *)
Lemma rrep_greedy_end p lo : forall s count prev n cap,
  rrep true lo None p (fun _ _ n cap => Some (n, cap)) cap count prev s n
  = if Nat.leb lo (count + lead p s) then Some ((n + lead p s)%nat, cap) else None.
Proof.
  induction s as [|c s IH]; intros count prev n cap; cbn [rrep lead].
  - by rewrite !Nat.add_0_r.
  - destruct (p c); cbn [andb belowMax].
    + rewrite IH. rewrite <- !Nat.add_succ_comm.
      destruct (Nat.leb_spec lo (S count + lead p s)); [done|].
      destruct (Nat.leb_spec lo count); [lia|done].
    + by rewrite !Nat.add_0_r.
Qed.

Lemma matchHere_spaces prev s :
  matchHere spacesPattern prev s
  = if Nat.leb 2 (lead isSpace s) then Some (lead isSpace s, None) else None.
Proof.
  unfold matchHere. cbn [spacesPattern reG source multiline rseq rmatch plus].
  destruct s as [|c s]; [done|]. cbn [lead]. fold (isSpace c).
  destruct (isSpace c); [|done].
  rewrite (rrep_greedy_end (isChar " ") 1 s 0 (Some c) 1 None).
  change (isChar " ") with isSpace. done.
Qed.

Lemma matchHere_newlines prev s :
  matchHere newlinesPattern prev s
  = if Nat.leb 3 (lead isLF s) then Some (lead isLF s, None) else None.
Proof.
  unfold matchHere. cbn [newlinesPattern reG source multiline rmatch].
  apply (rrep_greedy_end isLF 3 s 0 prev 0 None).
Qed.

(** ** Whitespace normalization: spaces *)

Lemma lead_startsWith p s : startsWith p s = negb (Nat.eqb (lead p s) 0).
Proof. destruct s as [|c s]; [done|]. simpl. by destruct (p c). Qed.

Lemma startsWith_drop_lead p s : startsWith p (drop (lead p s) s) = false.
Proof. by rewrite lead_startsWith, lead_drop. Qed.

Lemma noDoubleSpace_cons c s :
  noDoubleSpace (c :: s)
  = negb (isSpace c && startsWith isSpace s) && noDoubleSpace s.
Proof. destruct s as [|b s]; [by rewrite andb_false_r|done]. Qed.

Lemma noDoubleSpace_app a b :
  noDoubleSpace (a ++ b) = true -> noDoubleSpace a = true /\ noDoubleSpace b = true.
Proof.
  induction a as [|c a IH]; [done|].
  rewrite <- app_comm_cons, !noDoubleSpace_cons.
  intros [Hc Hab]%andb_prop. destruct (IH Hab) as [Ha Hb].
  split; [|done]. rewrite Ha, andb_true_r.
  destruct a as [|x a]; [by rewrite andb_false_r|done].
Qed.

(** A match of [/  +/] at the head of a text that starts with one more
    space than allowed: two spaces in a row. *)
Lemma spaces_match_iff c s :
  Nat.leb 2 (lead isSpace (c :: s)) = isSpace c && startsWith isSpace s.
Proof.
  cbn [lead]. destruct (isSpace c); [|done].
  rewrite lead_startsWith. by destruct (lead isSpace s).
Qed.

(** The first replacement leaves no two consecutive spaces. *)
Lemma replace_spaces_spec : forall n s prev,
  (length s <= n)%nat ->
  let out := replaceGo spacesPattern (expand (js " ")) prev s 0 in
  noDoubleSpace out = true
  /\ (startsWith isSpace out = true -> startsWith isSpace s = true).
Proof.
  induction n as [|n IH]; intros s prev Hlen out; subst out.
  { destruct s; [|simpl in Hlen; lia]. done. }
  destruct s as [|c s]; [done|].
  destruct (matchHere spacesPattern prev (c :: s)) as [[m cap]|] eqn:Hm.
  - rewrite matchHere_spaces in Hm.
    destruct (Nat.leb_spec 2 (lead isSpace (c :: s))) as [H2|]; [|done].
    injection Hm as <- <-.
    pose proof (lead_length isSpace (c :: s)) as Hle.
    destruct (replaceGo_match spacesPattern (expand (js " ")) prev (c :: s)
                (lead isSpace (c :: s)) None eq_refl) as (prev' & ->);
      [by rewrite matchHere_spaces, (proj2 (Nat.leb_le _ _) H2)|lia|].
    change (expand (js " ") _ None) with [SPACE]. cbn [app].
    destruct (IH (drop (lead isSpace (c :: s)) (c :: s)) prev') as [Hout Hhead].
    { rewrite length_drop. simpl length in *. lia. }
    rewrite startsWith_drop_lead in Hhead.
    split.
    + rewrite noDoubleSpace_cons, Hout, andb_true_r.
      destruct (startsWith isSpace _); [by specialize (Hhead eq_refl)|].
      by rewrite andb_false_r.
    + intros _. pose proof (spaces_match_iff c s) as Hiff.
      rewrite (proj2 (Nat.leb_le _ _) H2) in Hiff.
      symmetry in Hiff. by apply andb_prop in Hiff as [? _].
  - rewrite (replaceGo_no_match_here _ _ _ _ _ Hm).
    rewrite matchHere_spaces, spaces_match_iff in Hm.
    destruct (IH s (Some c)) as [Hout Hhead]; [simpl in Hlen; lia|].
    split; [|done].
    rewrite noDoubleSpace_cons, Hout, andb_true_r.
    destruct (isSpace c); [|done]. cbn [andb] in *.
    destruct (startsWith isSpace (replaceGo _ _ _ s 0)); [|done].
    by rewrite (Hhead eq_refl) in Hm.
Qed.

Lemma noDoubleSpace_drop n s : noDoubleSpace s = true -> noDoubleSpace (drop n s) = true.
Proof.
  intros H. rewrite <- (take_drop n s) in H. by apply noDoubleSpace_app in H as [_ ?].
Qed.

(** The second replacement (of newlines) keeps it so. *)
Lemma replace_newlines_keeps_spaces : forall n s prev,
  (length s <= n)%nat -> noDoubleSpace s = true ->
  let out := replaceGo newlinesPattern (expand [LF; LF]) prev s 0 in
  noDoubleSpace out = true
  /\ (startsWith isSpace out = true -> startsWith isSpace s = true).
Proof.
  induction n as [|n IH]; intros s prev Hlen Hs out; subst out.
  { destruct s; [|simpl in Hlen; lia]. done. }
  destruct s as [|c s]; [done|].
  destruct (matchHere newlinesPattern prev (c :: s)) as [[m cap]|] eqn:Hm.
  - pose proof Hm as Hm'. rewrite matchHere_newlines in Hm.
    destruct (Nat.leb_spec 3 (lead isLF (c :: s))) as [H3|]; [|done].
    injection Hm as <- <-.
    pose proof (lead_length isLF (c :: s)) as Hle.
    destruct (replaceGo_match newlinesPattern (expand [LF; LF]) prev (c :: s)
                (lead isLF (c :: s)) None eq_refl Hm') as (prev' & ->); [lia|].
    change (expand [LF; LF] _ None) with [LF; LF]. cbn [app].
    destruct (IH (drop (lead isLF (c :: s)) (c :: s)) prev') as [Hout Hhead].
    { rewrite length_drop. simpl length in *. lia. }
    { by apply noDoubleSpace_drop. }
    split; [|done]. by rewrite !noDoubleSpace_cons, Hout.
  - rewrite (replaceGo_no_match_here _ _ _ _ _ Hm).
    rewrite noDoubleSpace_cons in Hs. apply andb_prop in Hs as [Hc Hs].
    destruct (IH s (Some c)) as [Hout Hhead]; [simpl in Hlen; lia|done|].
    split; [|done].
    rewrite noDoubleSpace_cons, Hout, andb_true_r.
    destruct (isSpace c); [|done]. cbn [andb] in *.
    destruct (startsWith isSpace (replaceGo _ _ _ s 0)); [|done].
    by rewrite (Hhead eq_refl) in Hc.
Qed.

(** ** Lines *)

Lemma split_not_nil sep s : split sep s <> [].
Proof. destruct s as [|c s]; [done|]. simpl. by destruct (c =? sep), (split sep s). Qed.

Lemma join_cons sep l ls :
  ls <> [] -> join sep (l :: ls) = l ++ sep ++ join sep ls.
Proof. by destruct ls. Qed.

Lemma join_split s : join [LF] (split LF s) = s.
Proof.
  induction s as [|c s IH]; [done|]. cbn [split].
  destruct (N.eqb_spec c LF) as [->|Hc].
  - rewrite join_cons by apply split_not_nil. by rewrite IH.
  - pose proof (split_not_nil LF s) as Hne.
    destruct (split LF s) as [|l ls]; [done|].
    destruct ls as [|l' ls]; [simpl in *; by rewrite IH|].
    rewrite join_cons in * by done. rewrite <- IH. done.
Qed.

Lemma split_noLF s : Forall (fun l => noLF l = true) (split LF s).
Proof.
  induction s as [|c s IH]; [by repeat constructor|]. cbn [split].
  destruct (N.eqb_spec c LF) as [->|Hc]; [by constructor|].
  destruct (split LF s) as [|l ls]; [by repeat constructor; simpl; destruct (N.eqb_spec c LF)|].
  apply Forall_cons in IH as [Hl Hls]. constructor; [|done].
  simpl. destruct (N.eqb_spec c LF); [done|]. exact Hl.
Qed.

Lemma split_app_LF l rest :
  noLF l = true -> split LF (l ++ LF :: rest) = l :: split LF rest.
Proof.
  induction l as [|c l IH]; [done|]. simpl.
  destruct (N.eqb_spec c LF); [done|]. intros Hl. by rewrite IH.
Qed.

Lemma split_noLF_id l : noLF l = true -> split LF l = [l].
Proof.
  induction l as [|c l IH]; [done|]. simpl.
  destruct (N.eqb_spec c LF); [done|]. intros Hl. by rewrite IH.
Qed.

Lemma split_join ls :
  ls <> [] -> Forall (fun l => noLF l = true) ls -> split LF (join [LF] ls) = ls.
Proof.
  induction ls as [|l ls IH]; [done|]. intros _ [Hl Hls]%Forall_cons.
  destruct ls as [|l' ls]; [by apply split_noLF_id|].
  rewrite join_cons by done. cbn [app].
  rewrite split_app_LF by done. by rewrite IH.
Qed.

Lemma noDoubleSpace_app_LF l t :
  noDoubleSpace l = true -> noDoubleSpace t = true ->
  noDoubleSpace (l ++ LF :: t) = true.
Proof.
  intros Hl Ht. induction l as [|c l IH]; [by rewrite app_nil_l, noDoubleSpace_cons|].
  rewrite <- app_comm_cons, noDoubleSpace_cons.
  rewrite noDoubleSpace_cons in Hl. apply andb_prop in Hl as [Hc Hl].
  rewrite (IH Hl), andb_true_r.
  destruct l as [|x l]; [by rewrite andb_false_r|done].
Qed.

Lemma noDoubleSpace_join ls :
  Forall (fun l => noDoubleSpace l = true) ls -> noDoubleSpace (join [LF] ls) = true.
Proof.
  induction ls as [|l ls IH]; [done|]. intros [Hl Hls]%Forall_cons.
  destruct ls as [|l' ls]; [done|].
  rewrite join_cons by done. cbn [app]. apply noDoubleSpace_app_LF; auto.
Qed.

Lemma noDoubleSpace_lines ls :
  noDoubleSpace (join [LF] ls) = true -> Forall (fun l => noDoubleSpace l = true) ls.
Proof.
  induction ls as [|l ls IH]; [done|].
  destruct ls as [|l' ls]; [by repeat constructor|].
  rewrite join_cons by done. intros [Hl Hrest]%noDoubleSpace_app.
  change ([LF] ++ ?x) with (LF :: x) in Hrest.
  rewrite noDoubleSpace_cons in Hrest. apply andb_prop in Hrest as [_ Hrest].
  constructor; auto.
Qed.

Lemma noDoubleSpace_trim s : noDoubleSpace s = true -> noDoubleSpace (trim s) = true.
Proof.
  destruct (trim_split s) as (ws1 & ws2 & Hs & _). rewrite Hs at 1.
  intros [_ H]%noDoubleSpace_app. by apply noDoubleSpace_app in H as [? _].
Qed.

(** ** Trimmed lines *)

Lemma trimStart_head s : headWS (trimStart s) = false.
Proof.
  induction s as [|c s IH]; [done|]. simpl.
  destruct (isWhiteSpace c) eqn:E; [done|]. simpl. exact E.
Qed.

Lemma trimStart_id s : headWS s = false -> trimStart s = s.
Proof. destruct s as [|c s]; [done|]. simpl. by intros ->. Qed.

Lemma trimEnd_id s : lastWS s = false -> trimEnd s = s.
Proof.
  unfold lastWS, trimEnd. intros H. rewrite trimStart_id by done.
  apply rev_involutive.
Qed.

Lemma trimEnd_last s : lastWS (trimEnd s) = false.
Proof. unfold lastWS, trimEnd. rewrite rev_involutive. apply trimStart_head. Qed.

Lemma trimEnd_head s : headWS s = false -> headWS (trimEnd s) = false.
Proof.
  destruct (trimEnd_split s) as (ws & Hs & _).
  destruct (trimEnd s) as [|c t]; [done|]. rewrite Hs. done.
Qed.

Lemma trim_edgeClean s : edgeClean (trim s) = true.
Proof.
  unfold edgeClean, trim.
  by rewrite trimEnd_last, trimEnd_head by apply trimStart_head.
Qed.

Lemma trim_id s : edgeClean s = true -> trim s = s.
Proof.
  unfold edgeClean, trim. intros [Hh Hl]%andb_prop.
  apply negb_true_iff in Hh, Hl. rewrite trimStart_id by done. by apply trimEnd_id.
Qed.

Lemma noLF_app a b : noLF (a ++ b) = noLF a && noLF b.
Proof. apply forallb_app. Qed.

Lemma trim_noLF s : noLF s = true -> noLF (trim s) = true.
Proof.
  destruct (trim_split s) as (ws1 & ws2 & Hs & _). rewrite Hs at 1.
  rewrite !noLF_app. intros [_ [? _]%andb_prop]%andb_prop. done.
Qed.

(** Trimming a text whose lines are trimmed removes empty lines at its
    start: the result is again a list of lines of the text. *)
Lemma trimStart_join ls :
  Forall (fun l => headWS l = false) ls ->
  exists ls', trimStart (join [LF] ls) = join [LF] ls' /\ ls' ⊆ ls.
Proof.
  induction ls as [|l ls IH]; [by exists []|]. intros [Hl Hls]%Forall_cons.
  destruct l as [|c l].
  - destruct ls as [|l' ls]; [exists []; split; [done|apply list_subseteq_nil]|].
    rewrite join_cons by done. cbn [app trimStart].
    change (isWhiteSpace LF) with true. cbn iota.
    destruct (IH Hls) as (ls' & -> & Hsub). exists ls'. split; [done|].
    by apply list_subseteq_cons.
  - exists ((c :: l) :: ls). split; [|done].
    apply trimStart_id. by destruct ls.
Qed.

Lemma join_snoc ls l :
  ls <> [] -> join [LF] (ls ++ [l]) = join [LF] ls ++ LF :: l.
Proof.
  induction ls as [|x ls IH]; [done|]. intros _.
  destruct ls as [|y ls]; [done|].
  rewrite <- app_comm_cons, !join_cons by done.
  rewrite IH by done. by rewrite <- !app_assoc.
Qed.

Lemma rev_join ls : rev (join [LF] ls) = join [LF] (rev (map (@rev char) ls)).
Proof.
  induction ls as [|l ls IH]; [done|].
  destruct ls as [|l' ls]; [done|].
  rewrite join_cons by done.
  rewrite !rev_app_distr, IH.
  change (rev [LF]) with [LF].
  change (map (@rev char) (l :: l' :: ls)) with (rev l :: map (@rev char) (l' :: ls)).
  change (rev (rev l :: ?Y)) with (rev Y ++ [rev l]).
  rewrite join_snoc; [by rewrite <- app_assoc|].
  cbn [map rev]. by destruct (rev (map (@rev char) ls)).
Qed.

Lemma trimEnd_join ls :
  Forall (fun l => lastWS l = false) ls ->
  exists ls', trimEnd (join [LF] ls) = join [LF] ls' /\ ls' ⊆ ls.
Proof.
  intros Hls. unfold trimEnd. rewrite rev_join.
  destruct (trimStart_join (rev (map (@rev char) ls))) as (ls1 & -> & Hsub).
  { apply Forall_rev, Forall_fmap. eapply Forall_impl; [exact Hls|]. done. }
  exists (rev (map (@rev char) ls1)). split.
  - by rewrite rev_join.
  - intros l Hl. apply list_elem_of_In, in_rev, in_map_iff in Hl as (l1 & <- & Hl1).
    apply list_elem_of_In, Hsub, list_elem_of_In, in_rev, in_map_iff in Hl1
      as (l0 & <- & Hl0).
    rewrite rev_involutive. by apply list_elem_of_In.
Qed.

(** The text that [normalizeWhitespace] returns, from its lines on. *)
Lemma trim_join_lines ls :
  Forall (fun l => edgeClean l = true) ls -> Forall (fun l => noLF l = true) ls ->
  linesClean (trim (join [LF] ls)) = true.
Proof.
  intros Hclean HnoLF. unfold trim, linesClean.
  destruct (trimStart_join ls) as (ls1 & -> & Hsub1).
  { eapply Forall_impl; [exact Hclean|]. intros l [H _]%andb_prop.
    by apply negb_true_iff. }
  destruct (trimEnd_join ls1) as (ls2 & -> & Hsub2).
  { apply Forall_forall. intros l Hl.
    apply Hsub1 in Hl. rewrite Forall_forall in Hclean.
    apply Hclean in Hl. apply andb_prop in Hl as [_ H]. by apply negb_true_iff. }
  destruct ls2 as [|l2 ls2]; [done|].
  rewrite split_join; [|done|].
  - apply forallb_forall. intros l Hl%list_elem_of_In.
    rewrite Forall_forall in Hclean. by apply Hclean, Hsub1, Hsub2.
  - apply Forall_forall. intros l Hl.
    rewrite Forall_forall in HnoLF. by apply HnoLF, Hsub1, Hsub2.
Qed.

(** ** The whitespace of a sanitized text *)

Lemma normalizeWhitespace_spec (content : jsstring) :
  noDoubleSpace (normalizeWhitespace content) = true
  /\ linesClean (normalizeWhitespace content) = true
  /\ edgeClean (normalizeWhitespace content) = true.
Proof.
  unfold normalizeWhitespace, replace, replaceWith. cbv zeta.
  set (r1 := replaceGo spacesPattern _ None content 0).
  set (r2 := replaceGo newlinesPattern _ None r1 0).
  assert (H1 : noDoubleSpace r1 = true)
    by apply (replace_spaces_spec (length content) content None (le_n _)).
  assert (H2 : noDoubleSpace r2 = true)
    by apply (replace_newlines_keeps_spaces (length r1) r1 None (le_n _) H1).
  split; [|split].
  - apply noDoubleSpace_trim, noDoubleSpace_join, Forall_fmap.
    rewrite <- (join_split r2) in H2. apply noDoubleSpace_lines in H2.
    eapply Forall_impl; [exact H2|]. intros l. apply noDoubleSpace_trim.
  - apply trim_join_lines; apply Forall_fmap.
    + apply Forall_forall. intros l _. apply trim_edgeClean.
    + eapply Forall_impl; [apply split_noLF|]. intros l. apply trim_noLF.
  - apply trim_edgeClean.
Qed.

(** X14: three of the four parts of normal whitespace hold for every
    input: the output of
    [sanitizeAIResponse] contains no two consecutive space characters, no
    line with leading or trailing whitespace, and no leading or trailing
    whitespace on the whole result. *)
Lemma sanitizeAIResponse_whitespace (content : jsstring) :
  noDoubleSpace (sanitizeAIResponse content) = true
  /\ linesClean (sanitizeAIResponse content) = true
  /\ edgeClean (sanitizeAIResponse content) = true.
Proof. unfold sanitizeAIResponse. apply normalizeWhitespace_spec. Qed.

(** C6, on the code: newlines are collapsed before the lines are
    trimmed, so two lines that hold only a space leave three newlines in
    a row in the output; sanitizing the output once more removes one of
    them. *)
Theorem sanitizeAIResponse_keeps_three_newlines :
  sanitizeAIResponse (js "a" ++ [LF; SPACE; LF; SPACE; LF] ++ js "b")
  = js "a" ++ [LF; LF; LF] ++ js "b"
  /\ noTripleNewline (sanitizeAIResponse (js "a" ++ [LF; SPACE; LF; SPACE; LF] ++ js "b"))
     = false
  /\ sanitizeAIResponse
       (sanitizeAIResponse (js "a" ++ [LF; SPACE; LF; SPACE; LF] ++ js "b"))
     = js "a" ++ [LF; LF] ++ js "b".
Proof. vm_compute. repeat split. Qed.

(** ** Plain text is left alone *)

Lemma replace_no_match r tpl s : hasMatch r s = false -> replace r tpl s = s.
Proof.
  unfold hasMatch, replace, replaceWith. intros H.
  apply (replaceGo_no_match r _ s None 0).
  by destruct (search r None s 0).
Qed.

Lemma replaceAll_no_match table s :
  forallb (fun r => negb (hasMatch r s)) (map fst table) = true ->
  replaceAll table s = s.
Proof.
  unfold replaceAll. induction table as [|[r tpl] table IH]; [done|].
  cbn [map fst forallb fold_left snd]. intros [Hr Ht]%andb_prop.
  apply negb_true_iff in Hr. rewrite replace_no_match by done. auto.
Qed.

Lemma stripCodeBlocks_plain s :
  hasMatch fencedCodePattern s = false -> hasMatch inlineCodePattern s = false ->
  stripCodeBlocks s = s.
Proof.
  intros Hf Hi. unfold stripCodeBlocks, replaceWith. cbv zeta.
  rewrite (replaceGo_no_match fencedCodePattern _ s None 0).
  - by apply replace_no_match.
  - unfold hasMatch in Hf. by destruct (search fencedCodePattern None s 0).
Qed.

Lemma convertTablesLoop_plain lines :
  forallb (fun line => negb (isTableLine line)) lines = true ->
  convertTablesLoop lines 0 = lines.
Proof.
  induction lines as [|line lines IH]; [done|].
  cbn [forallb convertTablesLoop]. intros [Hline Hrest]%andb_prop.
  apply negb_true_iff, orb_false_elim in Hline as [Hsep Hrow].
  rewrite Hsep. unfold test in *. cbn [tablePattern reG global] in *.
  destruct (exec _ line 0) as [[[i n] cap]|]; [done|].
  by rewrite IH.
Qed.

Lemma convertTables_plain s :
  forallb (fun line => negb (isTableLine line)) (split LF s) = true ->
  convertTables s = s.
Proof.
  intros H. unfold convertTables. cbv zeta.
  rewrite convertTablesLoop_plain by done. apply join_split.
Qed.

Lemma spaces_no_match : forall s prev i,
  noDoubleSpace s = true -> search spacesPattern prev s i = None.
Proof.
  induction s as [|c s IH]; intros prev i Hs; cbn [search].
  - by rewrite matchHere_spaces.
  - rewrite matchHere_spaces, spaces_match_iff.
    rewrite noDoubleSpace_cons in Hs. apply andb_prop in Hs as [Hc Hs].
    apply negb_true_iff in Hc. rewrite Hc. by apply IH.
Qed.

Lemma noTripleNewline_cons c s :
  noTripleNewline (c :: s) = true ->
  Nat.leb 3 (lead isLF (c :: s)) = false /\ noTripleNewline s = true.
Proof.
  destruct s as [|b [|a s]]; cbn [noTripleNewline lead].
  - intros _. by destruct (isLF c).
  - intros _. by destruct (isLF c), (isLF b).
  - intros [Hc Hs]%andb_prop. split; [|done].
    apply negb_true_iff in Hc. fold (isLF c) (isLF b) (isLF a) in Hc.
    by destruct (isLF c), (isLF b), (isLF a).
Qed.

Lemma newlines_no_match : forall s prev i,
  noTripleNewline s = true -> search newlinesPattern prev s i = None.
Proof.
  induction s as [|c s IH]; intros prev i Hs; cbn [search].
  - by rewrite matchHere_newlines.
  - rewrite matchHere_newlines.
    destruct (noTripleNewline_cons c s Hs) as [-> Hs']. by apply IH.
Qed.

Lemma normalizeWhitespace_plain s :
  whitespaceNormal s = true -> normalizeWhitespace s = s.
Proof.
  unfold whitespaceNormal.
  intros [[[Hsp Hnl]%andb_prop Hlines]%andb_prop Hedge]%andb_prop.
  unfold normalizeWhitespace, replace, replaceWith. cbv zeta.
  rewrite (replaceGo_no_match spacesPattern _ s None 0) by by apply spaces_no_match.
  rewrite (replaceGo_no_match newlinesPattern _ s None 0) by by apply newlines_no_match.
  replace (map trim (split LF s)) with (split LF s).
  - rewrite join_split. by apply trim_id.
  - unfold linesClean in Hlines. rewrite forallb_forall in Hlines.
    rewrite <- (map_id (split LF s)) at 1. apply map_ext_in.
    intros l Hl. symmetry. by apply trim_id, Hlines.
Qed.

Lemma sanitizeAIResponse_plain s : plainText s = true -> sanitizeAIResponse s = s.
Proof.
  unfold plainText, markupPatterns.
  intros [[Hmarkup Htable]%andb_prop Hws]%andb_prop.
  cbn [app forallb] in Hmarkup.
  apply andb_prop in Hmarkup as [Hfence Hmarkup].
  apply andb_prop in Hmarkup as [Hinline Hmarkup].
  rewrite forallb_app in Hmarkup. apply andb_prop in Hmarkup as [Hmd Hmath].
  apply negb_true_iff in Hfence, Hinline.
  unfold sanitizeAIResponse. cbv zeta.
  rewrite stripCodeBlocks_plain by done.
  unfold stripMarkdown, convertMathSymbols.
  rewrite (replaceAll_no_match markdownPatterns s Hmd).
  rewrite (replaceAll_no_match replacements s Hmath).
  rewrite convertTables_plain by done.
  by apply normalizeWhitespace_plain.
Qed.

(** ** Prose is plain text *)

(** A matcher whose continuation fails on every suffix of the input
    fails. *)
Lemma rrep_fails {A} g lo hi p (k : @cont A) cap : forall s count prev n,
  (forall prev' s' n', s' `suffix_of` s -> k prev' s' n' cap = None) ->
  rrep g lo hi p k cap count prev s n = None.
Proof.
  induction s as [|c s IH]; intros count prev n Hk; cbn [rrep].
  - rewrite (Hk prev [] n) by done. by destruct g, (Nat.leb lo count).
  - rewrite (Hk prev (c :: s) n) by done.
    rewrite IH by (intros; apply Hk; by apply suffix_cons_r).
    by destruct g, (Nat.leb lo count), (p c && belowMax hi count).
Qed.

Lemma rmatch_fails {A} m r : forall s prev n cap (k : @cont A),
  (forall prev' s' n' cap', s' `suffix_of` s -> k prev' s' n' cap' = None) ->
  rmatch m r prev s n cap k = None.
Proof.
  induction r as [c|p|r1 IH1 r2 IH2|g lo hi p|r1 IH1| | |];
    intros s prev n cap k Hk; cbn [rmatch].
  - destruct s as [|x s]; [done|]. destruct (x =? c); [|done].
    apply Hk. by apply suffix_cons_r.
  - destruct s as [|x s]; [done|]. destruct (p x); [|done].
    apply Hk. by apply suffix_cons_r.
  - apply IH1. intros prev' s' n' cap' Hs'. apply IH2.
    intros prev'' s'' n'' cap'' Hs''. apply Hk. by etrans.
  - apply rrep_fails. intros. by apply Hk.
  - apply IH1. intros. by apply Hk.
  - destruct (atBol m prev); [by apply Hk|done].
  - destruct (atEol m s); [by apply Hk|done].
  - by apply Hk.
Qed.

(** A pattern that needs a character of [Q] does not match a text
    without such characters. *)
Lemma rmatch_needs {A} Q m r : forall s prev n cap (k : @cont A),
  needs Q r -> Forall (fun c => Q c = false) s ->
  rmatch m r prev s n cap k = None.
Proof.
  induction r as [c|p|r1 IH1 r2 IH2|g lo hi p|r1 IH1| | |];
    intros s prev n cap k Hneeds Hs; cbn [rmatch needs] in *; try done.
  - destruct s as [|x s]; [done|]. apply Forall_cons in Hs as [Hx _].
    destruct (N.eqb_spec x c) as [->|]; [congruence|done].
  - destruct s as [|x s]; [done|]. apply Forall_cons in Hs as [Hx _].
    destruct (p x) eqn:E; [|done]. apply Hneeds in E. congruence.
  - destruct Hneeds as [H1|H2]; [by apply IH1|].
    apply rmatch_fails. intros prev' s' n' cap' [pre ->]. apply IH2; [done|].
    by apply Forall_app in Hs as [_ ?].
  - destruct Hneeds as [Hlo Hp]. destruct lo as [|lo]; [lia|].
    destruct s as [|x s]; cbn [rrep]; [by destruct g|].
    apply Forall_cons in Hs as [Hx _].
    destruct (p x) eqn:E; [apply Hp in E; congruence|]. by destruct g.
  - by apply IH1.
Qed.

Lemma search_needs Q r : forall s prev i,
  needs Q (source r) -> Forall (fun c => Q c = false) s ->
  search r prev s i = None.
Proof.
  induction s as [|c s IH]; intros prev i Hneeds Hs; cbn [search];
    unfold matchHere; rewrite (rmatch_needs Q) by done; [done|].
  apply IH; [done|]. by apply Forall_cons in Hs as [_ ?].
Qed.

Lemma hasMatch_needs Q r s :
  needs Q (source r) -> Forall (fun c => Q c = false) s -> hasMatch r s = false.
Proof. intros Hn Hs. unfold hasMatch. by rewrite (search_needs Q). Qed.

Ltac numerals :=
  repeat match goal with
         | H : context [ch ?a] |- _ =>
             let v := eval vm_compute in (ch a) in change (ch a) with v in H
         | |- context [ch ?a] =>
             let v := eval vm_compute in (ch a) in change (ch a) with v
         end.

(** A class of the pattern holds no prose character. *)
Ltac class_tac :=
  let c := fresh "c" in
  let Hc := fresh "Hc" in
  intros c Hc;
  unfold notProseChar, isProseChar, isChar, oneOf, isDigit in *;
  cbn [existsb] in Hc; numerals;
  rewrite ?orb_false_r in Hc;
  rewrite ?andb_true_iff, ?orb_true_iff, ?N.leb_le, ?N.eqb_eq in Hc;
  apply negb_true_iff;
  rewrite ?orb_false_iff, ?andb_false_iff, ?N.leb_gt, ?N.eqb_neq;
  lia.

(** Finds the part of a pattern that needs a character outside prose. *)
Ltac needs_tac :=
  cbn [needs];
  first [ reflexivity
        | solve [class_tac]
        | solve [split; [lia | class_tac]]
        | left; needs_tac
        | right; needs_tac ].

(** Every pattern of the sanitizer needs a character that prose does not
    have: a backquote, an asterisk, an underscore, a tilde, a square
    bracket, a hash, a greater-than sign, a dash, a plus, a digit, or one
    of the glyphs. *)
Lemma markup_needs :
  Forall (fun r => needs notProseChar (source r)) markupPatterns.
Proof.
  unfold markupPatterns, markdownPatterns, replacements, fencedCodePattern,
    inlineCodePattern, delimited, glyph, fence.
  cbn [map fst app rseq source reG reGM plus star lazyStar].
  repeat (apply Forall_cons; split; [needs_tac|]).
  constructor.
Qed.

Lemma tablePatterns_need :
  needs notProseChar (source tablePattern)
  /\ needs notProseChar (source separatorPattern).
Proof.
  unfold tablePattern, separatorPattern.
  cbn [rseq source reG rePlain plus]. split; needs_tac.
Qed.

Lemma test_needs r text :
  needs notProseChar (source r) -> Forall (fun c => notProseChar c = false) text ->
  fst (test r text 0) = false.
Proof.
  intros Hn Ht. unfold test, exec. cbn [length Nat.ltb Nat.leb take drop last].
  change (Nat.ltb (length text) 0) with false. cbn iota.
  rewrite drop_0, (search_needs notProseChar) by done. by destruct (global r).
Qed.

Lemma noLF_noTripleNewline s : noLF s = true -> noTripleNewline s = true.
Proof.
  induction s as [|a s IH]; [done|]. cbn [noLF forallb].
  intros [Ha Hs]%andb_prop. destruct s as [|b [|c t]]; [done..|].
  specialize (IH Hs). cbn [noTripleNewline] in *.
  apply negb_true_iff in Ha. by rewrite Ha, IH.
Qed.

(** Prose is plain text: a text of prose characters without two spaces
    in a row and without a space at either end. *)
Lemma prose_plainText s :
  Forall (fun c => isProseChar c = true) s ->
  noDoubleSpace s = true -> edgeClean s = true ->
  plainText s = true.
Proof.
  intros Hprose Hsp Hedge.
  assert (Hnot : Forall (fun c => notProseChar c = false) s).
  { eapply Forall_impl; [exact Hprose|]. intros c Hc. unfold notProseChar.
    by rewrite Hc. }
  assert (HnoLF : noLF s = true).
  { apply forallb_forall. intros c Hc%list_elem_of_In.
    rewrite Forall_forall in Hprose. specialize (Hprose c Hc).
    destruct (N.eqb_spec c LF) as [->|]; [discriminate|done]. }
  unfold plainText.
  apply andb_true_intro; split; [apply andb_true_intro; split|].
  - apply forallb_forall. intros r Hr%list_elem_of_In.
    pose proof markup_needs as Hall. rewrite Forall_forall in Hall.
    apply negb_true_iff, (hasMatch_needs notProseChar); auto.
  - rewrite split_noLF_id by done. cbn [forallb]. rewrite andb_true_r.
    apply negb_true_iff. unfold isTableLine.
    destruct tablePatterns_need as [Hrow Hsep].
    rewrite (test_needs tablePattern s Hrow Hnot), orb_false_r.
    apply test_needs; [done|].
    destruct (trim_split s) as (ws1 & ws2 & Hs & _). rewrite Hs in Hnot.
    apply Forall_app in Hnot as [_ Hnot]. by apply Forall_app in Hnot as [? _].
  - unfold whitespaceNormal, linesClean. rewrite split_noLF_id by done.
    cbn [forallb]. by rewrite Hsp, Hedge, noLF_noTripleNewline.
Qed.

(** C7: [sanitizeAIResponse] leaves already-plain text as it is, and is
    idempotent on it: for every string in which none of the recognized
    markup constructs or mapped glyphs occurs, no line is a table line,
    and the whitespace is normal, [sanitizeAIResponse s = s] and
    [sanitizeAIResponse (sanitizeAIResponse s) = sanitizeAIResponse s]. *)
Theorem sanitizeAIResponse_idempotent_on_plain (s : jsstring) :
  plainText s = true ->
  sanitizeAIResponse s = s
  /\ sanitizeAIResponse (sanitizeAIResponse s) = sanitizeAIResponse s.
Proof.
  intros Hplain. pose proof (sanitizeAIResponse_plain s Hplain) as H.
  split; [done|]. by rewrite !H.
Qed.

Lemma sanitizeAIResponse_idempotent_on_plain_witness :
  sanitizeAIResponse (js "This is normal text without any formatting.")
  = js "This is normal text without any formatting."
  /\ sanitizeAIResponse
       (sanitizeAIResponse (js "This is normal text without any formatting."))
     = sanitizeAIResponse (js "This is normal text without any formatting.").
Proof.
  apply sanitizeAIResponse_idempotent_on_plain. vm_compute. reflexivity.
Defined.

(** X15: prose comes out of the sanitizer as it went in: a text of ASCII
    letters, single spaces and the punctuation of [isProseChar], with no
    whitespace at its ends, is returned unchanged. *)
Lemma sanitizeAIResponse_prose s :
  Forall (fun c => isProseChar c = true) s ->
  noDoubleSpace s = true -> edgeClean s = true ->
  sanitizeAIResponse s = s.
Proof. intros. by apply sanitizeAIResponse_plain, prose_plainText. Qed.

Lemma sanitizeAIResponse_prose_witness :
  sanitizeAIResponse (js "Yes (twice): x is odd, y is even.")
  = js "Yes (twice): x is odd, y is even.".
Proof.
  apply sanitizeAIResponse_prose; [|reflexivity..].
  repeat (apply Forall_cons; split; [reflexivity|]). apply Forall_nil.
  exact I.
Defined.

(** ** Chunking a text without leading or trailing whitespace *)

Lemma headWS_take n s : (0 < n)%nat -> headWS (take n s) = headWS s.
Proof. destruct n, s; (done || lia). Qed.

Lemma lastWS_app a b : b <> [] -> lastWS (a ++ b) = lastWS b.
Proof.
  intros Hb. unfold lastWS. rewrite rev_app_distr.
  destruct (rev b) as [|c r] eqn:E; [|done].
  apply (f_equal (@rev char)) in E. rewrite rev_involutive in E. done.
Qed.

Lemma whitespaceOnly_lastWS s : whitespaceOnly s = true -> s <> [] -> lastWS s = true.
Proof.
  intros Hws Hne. rewrite <- whitespaceOnly_rev in Hws. unfold lastWS.
  destruct (rev s) as [|c r] eqn:E.
  - apply (f_equal (@rev char)) in E. rewrite rev_involutive in E. done.
  - simpl in Hws. by apply andb_prop in Hws as [? _].
Qed.

Lemma trimStart_keeps_end s :
  lastWS s = false -> s <> [] -> trimStart s <> [] /\ lastWS (trimStart s) = false.
Proof.
  intros Hlast Hne. destruct (trimStart_split s) as (ws & Hs & Hws).
  assert (trimStart s <> []) as Hne'.
  { intros E. rewrite E, app_nil_r in Hs. subst ws.
    by rewrite whitespaceOnly_lastWS in Hlast. }
  split; [done|]. rewrite Hs in Hlast. by rewrite lastWS_app in Hlast.
Qed.

(** One cut of a text that starts and ends with a visible character:
    nothing is lost but whitespace between the fragment and the new
    remainder, which again starts and ends with a visible character. *)
Lemma cut_step_clean (maxSize : Z) (remaining : jsstring) :
  (0 < maxSize)%Z -> (maxSize < Z.of_nat (length remaining))%Z ->
  edgeClean remaining = true ->
  let chunk := substring remaining 0 maxSize in
  let boundary := findSafeBoundary chunk in
  let fragment := trim (substring chunk 0 boundary) in
  let remaining' := trim (substringFrom remaining boundary) in
  remaining' <> [] /\ edgeClean remaining' = true
  /\ exists ws, remaining = fragment ++ ws ++ remaining' /\ whitespaceOnly ws = true.
Proof.
  intros Hpos Hlong [Hhead Hlast]%andb_prop chunk boundary fragment remaining'.
  apply negb_true_iff in Hhead, Hlast.
  assert (Hchunk : length chunk = Z.to_nat maxSize).
  { unfold chunk. rewrite substring_0, length_take. lia. }
  assert (Hb : (1 <= boundary <= maxSize)%Z).
  { pose proof (findSafeBoundary_range chunk) as Hr.
    fold boundary in Hr. rewrite Hchunk in Hr.
    destruct chunk; [simpl in Hchunk; lia|]. specialize (Hr ltac:(done)). lia. }
  assert (Htake : substring chunk 0 boundary = take (Z.to_nat boundary) remaining).
  { unfold chunk. rewrite !substring_0, take_take. f_equal. lia. }
  set (rest := substringFrom remaining boundary).
  assert (Hrest : rest = drop (Z.to_nat boundary) remaining)
    by apply substringFrom_drop.
  assert (Hrne : rest <> []).
  { intros E. apply (f_equal length) in E. rewrite Hrest, length_drop in E.
    simpl in E. lia. }
  assert (Hrlast : lastWS rest = false).
  { rewrite <- (take_drop (Z.to_nat boundary) remaining), <- Hrest in Hlast.
    by rewrite lastWS_app in Hlast. }
  destruct (trimStart_keeps_end rest Hrlast Hrne) as [Hne' Hlast'].
  assert (Hrem' : remaining' = trimStart rest).
  { unfold remaining', trim. fold rest. by apply trimEnd_id. }
  split; [by rewrite Hrem'|]. split; [apply trim_edgeClean|].
  destruct (trimStart_split rest) as (ws3 & Hws3 & Hw3).
  destruct (trimEnd_split (substring chunk 0 boundary)) as (ws2 & Hws2 & Hw2).
  assert (Hfrag : fragment = trimEnd (substring chunk 0 boundary)).
  { unfold fragment, trim. rewrite trimStart_id; [done|].
    rewrite Htake, headWS_take; [done|lia]. }
  exists (ws2 ++ ws3). rewrite whitespaceOnly_app, Hw2, Hw3. split; [|done].
  rewrite <- (take_drop (Z.to_nat boundary) remaining) at 1.
  rewrite <- Htake, <- Hrest, Hws2, Hws3 at 1.
  rewrite Hfrag, Hrem'. by rewrite <- !app_assoc.
Qed.

Lemma chunkLoop_between (maxSize : Z) (Hpos : (0 < maxSize)%Z) :
  forall fuel remaining chunks,
    (length remaining < fuel)%nat -> remaining <> [] -> edgeClean remaining = true ->
    exists frags,
      chunkLoop fuel maxSize remaining chunks = Some (chunks ++ frags)
      /\ between frags remaining.
Proof.
  induction fuel as [|fuel IH]; intros remaining chunks Hfuel Hne Hclean; [lia|].
  cbn [chunkLoop].
  destruct (Nat.ltb_spec 0 (length remaining)) as [_|He];
    [|destruct remaining; [done|simpl in He; lia]].
  destruct (Z.leb_spec (Z.of_nat (length remaining)) maxSize) as [Hfit|Hlong].
  - exists [remaining]. split; [done|constructor].
  - destruct (cut_step maxSize remaining Hpos Hlong) as (_ & Hshort & _).
    destruct (cut_step_clean maxSize remaining Hpos Hlong Hclean)
      as (Hne' & Hclean' & ws & Hrem & Hws).
    cbv zeta in Hshort, Hne', Hclean', Hrem.
    set (fragment := trim (substring (substring remaining 0 maxSize) 0
                             (findSafeBoundary (substring remaining 0 maxSize)))) in *.
    set (remaining' := trim (substringFrom remaining
                               (findSafeBoundary (substring remaining 0 maxSize)))) in *.
    destruct (IH remaining' (chunks ++ [fragment]) ltac:(lia) Hne' Hclean')
      as (frags & Hloop & Hbetween).
    exists (fragment :: frags). rewrite Hloop, <- app_assoc. split; [done|].
    rewrite Hrem. by constructor.
Qed.

(** For a text without leading or trailing whitespace, as every
    sanitized text is, the whitespace that chunking drops lies between
    the fragments only. *)
Lemma chunkResponse_reconstructs_trimmed (text : jsstring) (maxSize : Z) :
  (0 < maxSize)%Z -> edgeClean text = true ->
  exists frags, chunkResponse text maxSize = Some frags /\ between frags text.
Proof.
  intros Hpos Hclean. unfold chunkResponse.
  destruct (Z.leb_spec (Z.of_nat (length text) ) maxSize) as [Hfit|Hlong].
  - exists [text]. split; [done|constructor].
  - assert (text <> []) by (intros ->; simpl in Hlong; lia).
    destruct (chunkLoop_between maxSize Hpos (S (length text)) text []
                ltac:(lia) ltac:(done) Hclean) as (frags & Hloop & Hb).
    exists frags. by rewrite Hloop.
Qed.

(** C5: for every text and every maxSize > 0, the text is the fragments
    that [chunkResponse] returns, in order, with a whitespace-only string
    (possibly empty) before the first, between consecutive ones and after
    the last: these are the runs that [trim] removed at the cuts.  When
    the text has no leading or trailing whitespace, as every sanitized
    text, the whitespace lies between consecutive fragments only. *)
Theorem chunkResponse_reconstructs (text : jsstring) (maxSize : Z) :
  (0 < maxSize)%Z ->
  exists frags,
    chunkResponse text maxSize = Some frags
    /\ interleaved frags text
    /\ (edgeClean text = true -> between frags text).
Proof.
  intros Hpos. destruct (chunkResponse_total text maxSize Hpos) as (frags & H & _ & Hint).
  exists frags. split; [done|]. split; [done|]. intros Hclean.
  destruct (chunkResponse_reconstructs_trimmed text maxSize Hpos Hclean)
    as (frags' & H' & Hb).
  rewrite H in H'. by injection H' as <-.
Qed.

Lemma chunkResponse_reconstructs_witness :
  exists frags,
    chunkResponse (js "word1 word2 word3 word4 word5") 8 = Some frags
    /\ interleaved frags (js "word1 word2 word3 word4 word5")
    /\ (edgeClean (js "word1 word2 word3 word4 word5") = true
        -> between frags (js "word1 word2 word3 word4 word5")).
Proof. apply chunkResponse_reconstructs. lia. Defined.

Lemma chunkResponse_of_sanitized (content : jsstring) (maxSize : Z) :
  (0 < maxSize)%Z ->
  exists frags,
    chunkResponse (sanitizeAIResponse content) maxSize = Some frags
    /\ between frags (sanitizeAIResponse content).
Proof.
  intros Hpos. apply chunkResponse_reconstructs_trimmed; [done|].
  unfold sanitizeAIResponse. apply normalizeWhitespace_spec.
Qed.

(** ** The policy screen and the blocked text *)

(** C10: [checkContentPolicy] answers [{ safe: true }] for every input;
    so the guard of the blocked branch of [processAIQuery] is false for
    every generated text, and [processAIQuery] is, for every query, the
    failure of the generation or the delivery of the sanitized text: the
    blocked branch is never taken.  The response of that branch, the
    text [Content blocked by policy] with [has_more = false], is returned
    all the same, by the delivery, exactly when the sanitized answer of
    the provider is that text. *)
Theorem checkContentPolicy_always_safe :
  (forall content, checkContentPolicy content = mkPolicyCheck true None)
  /\ (forall content, negb (safe (checkContentPolicy content)) = false)
  /\ (forall envKey callAIProvider db deviceDbId prompt queryId now,
        processAIQuery envKey callAIProvider db deviceDbId prompt queryId now
        = match generate envKey callAIProvider db deviceDbId prompt with
          | inl e => Some (inl e, db)
          | inr rawResponse =>
              deliver configLimits db deviceDbId rawResponse queryId now
          end)
  /\ (forall envKey callAIProvider db deviceDbId prompt queryId now db',
        processAIQuery envKey callAIProvider db deviceDbId prompt queryId now
        = Some (inr blockedResponse, db')
        <-> exists rawResponse,
              generate envKey callAIProvider db deviceDbId prompt = inr rawResponse
              /\ sanitizeAIResponse rawResponse = js "Content blocked by policy"
              /\ db' = setActivityLog db (<[deviceDbId := now]> (activityLog db))).
Proof.
  split; [done|split; [done|]].
  assert (Hpath : forall envKey callAIProvider db deviceDbId prompt queryId now,
            processAIQuery envKey callAIProvider db deviceDbId prompt queryId now
            = match generate envKey callAIProvider db deviceDbId prompt with
              | inl e => Some (inl e, db)
              | inr rawResponse =>
                  deliver configLimits db deviceDbId rawResponse queryId now
              end).
  { intros. unfold processAIQuery, processAIQueryWith.
    by destruct (generate _ _ _ _ _). }
  split; [exact Hpath|].
  intros envKey callAIProvider db deviceDbId prompt queryId now db'.
  rewrite Hpath.
  destruct (generate envKey callAIProvider db deviceDbId prompt) as [e|rawResponse].
  { split; [done|]. by intros (raw & [=] & _). }
  unfold deliver. cbv zeta. split.
  - destruct (chunkResponse_of_sanitized rawResponse (aiOutputChunkSize configLimits)
                ltac:(done)) as (frags & -> & Hbetween).
    destruct frags as [|c [|c' frags]]; cbn [length Nat.eqb].
    + inversion Hbetween.
    + cbn [lookup list_lookup]. intros [= -> <-].
      exists rawResponse. split; [done|]. split; [|done].
      inversion Hbetween as [f Hf|f ws frags' rest Hws Hrest]; [done|].
      inversion Hrest.
    + cbn [aiChunks setActivityLog].
      by destruct (aiChunks db !! queryId).
  - intros (raw & [= <-] & Hsan & ->). rewrite Hsan.
    by change (chunkResponse (js "Content blocked by policy")
                 (aiOutputChunkSize configLimits))
      with (Some [js "Content blocked by policy"]).
Qed.

(** C10, as stated, fails in its last part: [checkContentPolicy] finds
    the text safe, and a provider that answers [Content blocked by
    policy] has that very text returned, with [has_more = false] and no
    cursor, which is the response of the blocked branch. *)
Lemma processAIQuery_returns_blocked_text :
  safe (checkContentPolicy (js "Content blocked by policy")) = true
  /\ sanitizeAIResponse (js "Content blocked by policy") = js "Content blocked by policy"
  /\ processAIQuery Sample.noEnvKey (fun _ _ => Some (js "Content blocked by policy"))
       Sample.db0 (js "dev") (js "2+2?") (js "query_00") 7
     = Some (inr blockedResponse,
             mkDb (devices Sample.db0) (<[js "dev" := 7%Z]> (activityLog Sample.db0))
               (aiChunks Sample.db0)).
Proof.
  split; [reflexivity|]. split; [vm_compute; reflexivity|].
  unfold processAIQuery, processAIQueryWith.
  replace (generate Sample.noEnvKey (fun _ _ => Some (js "Content blocked by policy"))
             Sample.db0 (js "dev") (js "2+2?"))
    with (@inr error jsstring (js "Content blocked by policy")) by reflexivity.
  cbn [checkContentPolicy safe negb]. unfold deliver.
  replace (sanitizeAIResponse (js "Content blocked by policy"))
    with (js "Content blocked by policy") by (vm_compute; reflexivity).
  reflexivity.
Qed.

(** ** One step of a continuation *)

(** A live session whose cursor is inside its chunks serves the chunk at
    the cursor; it advances the cursor when more chunks follow and is
    deleted otherwise.  (So a session that starts with the cursor at 0
    is served in order, each chunk once.) *)
Lemma continue_step db q now row c :
  aiChunks db !! q = Some row -> (now <= expiresAt row)%Z ->
  chunks row !! cursor row = Some c ->
  continueAIQuery db q now
  = if Nat.ltb (cursor row + 1) (length (chunks row))
    then (inr (mkResponse (Some c) true (Some q)),
          setAiChunks db
            (<[q := mkAIChunk (chunkDeviceId row) (chunks row) (cursor row + 1)
                      (expiresAt row)]> (aiChunks db)))
    else (inr (mkResponse (Some c) false None),
          setAiChunks db (delete q (aiChunks db))).
Proof.
  intros Hrow Hlive Hc. unfold continueAIQuery. rewrite Hrow.
  rewrite (proj2 (Z.ltb_ge _ _) Hlive).
  pose proof (lookup_lt_Some _ _ _ Hc) as Hlt.
  destruct (Nat.leb_spec (length (chunks row)) (cursor row)) as [|_]; [lia|].
  rewrite Hc. by destruct (Nat.ltb _ _).
Qed.

(** With a size that is not positive the loop has no exit once the
    remainder is trimmed and not empty: every iteration cuts at 0 and
    leaves the remainder as it is.  No number of iterations returns an
    array. *)
Lemma chunkLoop_no_exit (maxSize : Z) (remaining : jsstring) :
  (maxSize <= 0)%Z -> trim remaining = remaining -> remaining <> [] ->
  forall fuel chunks, chunkLoop fuel maxSize remaining chunks = None.
Proof.
  intros Hmax Htrim Hne. induction fuel as [|fuel IH]; intros chunks; [done|].
  cbn [chunkLoop].
  destruct (Nat.ltb_spec 0 (length remaining)) as [Hlen|Hlen];
    [|destruct remaining; [done|simpl in Hlen; lia]].
  destruct (Z.leb_spec (Z.of_nat (length remaining)) maxSize); [lia|].
  assert (substring remaining 0 maxSize = []) as ->.
  { rewrite substring_0. replace (Z.to_nat maxSize) with 0%nat by lia. done. }
  change (findSafeBoundary []) with 0%Z.
  rewrite substringFrom_drop. change (Z.to_nat 0) with 0%nat.
  rewrite drop_0, Htrim. apply IH.
Qed.

(** ** The examples of the design document and of the test suite *)

Example sanitize_example :
  sanitizeAIResponse ([SQRT] ++ js "16 is 4. **Bold** point: (a, b, c) done.")
  = js "sqrt(16) is 4. Bold point: (a, b, c) done.".
Proof. vm_compute. reflexivity. Qed.

Example stripCodeBlocks_fenced :
  stripCodeBlocks
    (js "Before" ++ [LF] ++ js "```javascript" ++ [LF] ++ js "const x = 1;" ++ [LF]
     ++ js "```" ++ [LF] ++ js "After")
  = js "Before" ++ [LF] ++ js "const x = 1;" ++ [LF] ++ js "After".
Proof. vm_compute. reflexivity. Qed.

Example stripCodeBlocks_inline :
  stripCodeBlocks (js "Use `console.log()` to debug") = js "Use console.log() to debug".
Proof. vm_compute. reflexivity. Qed.

Example stripMarkdown_headers :
  stripMarkdown (js "# Heading 1" ++ [LF] ++ js "## Heading 2")
  = js "Heading 1" ++ [LF] ++ js "Heading 2".
Proof. vm_compute. reflexivity. Qed.

Example stripMarkdown_bold_italic_link :
  stripMarkdown (js "This is **bold** and *italic*, click [here](https://example.com)")
  = js "This is bold and italic, click here".
Proof. vm_compute. reflexivity. Qed.

Example convertMathSymbols_only_symbols :
  convertMathSymbols [SQRT; 0x222b; 0x2211; 0x221e; 0x3c0]
  = js "sqrtIntegral of Sum of infinitypi".
Proof. vm_compute. reflexivity. Qed.

(** The pattern of table rows has the flag g: after a row matched, the
    search in the next line starts where that match ended. *)
Example convertTables_rows :
  convertTables
    (js "| a | b |" ++ [LF] ++ js "|---|---|" ++ [LF] ++ js "| c | d |" ++ [LF]
     ++ js "| e | f |")
  = js "a | b" ++ [LF] ++ js "| c | d |" ++ [LF] ++ js "e | f".
Proof. vm_compute. reflexivity. Qed.

Example chunkResponse_sentences :
  chunkResponse (js "First sentence. Second sentence. Third sentence.") 20
  = Some [js "First sentence."; js "Second sentence."; js "Third sentence."].
Proof. vm_compute. reflexivity. Qed.

(** Without a positive size the loop of the source does not reach its
    exit, and no array is returned. *)
Example chunkResponse_zero_size : chunkResponse (js "a  bc") 0 = None.
Proof. vm_compute. reflexivity. Qed.

(** * Further properties of the code *)

(** ** The continuation store *)

(** X1: a live session whose cursor is inside its chunks is drained in
    order: the calls answer the chunks from the cursor on, each once,
    with [has_more] and the cursor on all answers but the last, and the
    call after the last chunk is NotFound. *)
Theorem continueAIQuery_drains_in_order (db : Db) (q : jsstring) (row : AIChunk)
    (nows : list Z) (later : Z) :
  aiChunks db !! q = Some row ->
  (cursor row < length (chunks row))%nat ->
  length nows = length (drop (cursor row) (chunks row)) ->
  Forall (fun now => (now <= expiresAt row)%Z) nows ->
  (continueSeq db q (nows ++ [later])).1
  = servedInOrder q (drop (cursor row) (chunks row))
    ++ [inl (NotFoundError "Query not found or expired")].
Proof.
  revert db row. induction nows as [|now nows IH]; intros db row Hrow Hcur Hlen Hlive.
  { simpl in Hlen. symmetry in Hlen. apply length_zero_iff_nil in Hlen.
    apply (f_equal length) in Hlen. rewrite length_drop in Hlen. simpl in Hlen. lia. }
  apply Forall_cons in Hlive as [Hnow Hlive].
  destruct (lookup_lt_is_Some_2 _ _ Hcur) as [c Hc].
  cbn [app continueSeq].
  rewrite (continue_step db q now row c Hrow Hnow Hc).
  rewrite (drop_S _ _ _ Hc) in *. cbn [length] in Hlen.
  destruct (Nat.ltb_spec (cursor row + 1) (length (chunks row))) as [Hmore|Hlast].
  - set (row' := mkAIChunk (chunkDeviceId row) (chunks row) (cursor row + 1)
                   (expiresAt row)).
    set (db' := setAiChunks db (<[q := row']> (aiChunks db))).
    specialize (IH db' row').
    replace (S (cursor row)) with (cursor row + 1)%nat in * by lia.
    cbn [cursor chunks expiresAt row'] in IH.
    destruct (continueSeq db' q (nows ++ [later])) as [rs db''] eqn:E.
    cbn [fst] in *. rewrite IH; try done.
    + destruct (drop (cursor row + 1) (chunks row)) eqn:Ed; [|done].
      apply (f_equal length) in Ed. rewrite length_drop in Ed. simpl in Ed. lia.
    + unfold db'. cbn [aiChunks setAiChunks]. apply lookup_insert_eq.
    + lia.
  - assert (drop (S (cursor row)) (chunks row) = []) as Hnil
      by (apply drop_ge; lia).
    rewrite Hnil in *. destruct nows; [|done].
    cbn [app continueSeq servedInOrder].
    rewrite continue_absent; [done|].
    cbn [aiChunks setAiChunks]. apply lookup_delete_eq.
Qed.

Lemma continueAIQuery_drains_in_order_witness :
  (continueSeq
     (mkDb ∅ ∅ {[ js "q" := mkAIChunk (js "dev") [js "one"; js "two"; js "three"] 0 100 ]})
     (js "q") ([10; 20; 30] ++ [40])%Z).1
  = servedInOrder (js "q") (drop 0 [js "one"; js "two"; js "three"])
    ++ [inl (NotFoundError "Query not found or expired")].
Proof.
  apply (continueAIQuery_drains_in_order _ _
           (mkAIChunk (js "dev") [js "one"; js "two"; js "three"] 0 100)).
  - reflexivity.
  - simpl. lia.
  - reflexivity.
  - repeat constructor; simpl; lia.
Defined.

(** X2: [continueAIQuery] touches nothing but the session of its cursor:
    the other sessions, the devices and the activity log are as before. *)
Theorem continueAIQuery_frame (db : Db) (q : jsstring) (now : Z) :
  devices (continueAIQuery db q now).2 = devices db
  /\ activityLog (continueAIQuery db q now).2 = activityLog db
  /\ forall q', q' <> q ->
       aiChunks (continueAIQuery db q now).2 !! q' = aiChunks db !! q'.
Proof.
  unfold continueAIQuery.
  destruct (aiChunks db !! q) as [row|]; [|done].
  destruct (expiresAt row <? now)%Z.
  { repeat split; intros; cbn; by rewrite ?lookup_delete_ne. }
  destruct (Nat.leb (length (chunks row)) (cursor row)).
  { repeat split; intros; cbn; by rewrite ?lookup_delete_ne. }
  destruct (Nat.ltb (cursor row + 1) (length (chunks row)));
    repeat split; intros; cbn; by rewrite ?lookup_insert_ne, ?lookup_delete_ne.
Qed.

(** X3: in every answer of [processAIQuery] and of [continueAIQuery] the
    cursor is present exactly when [has_more] is true, and the cursor of
    a continuation is the cursor it was called with. *)
Theorem response_cursor_iff_has_more :
  (forall screen limits envKey callAIProvider db deviceDbId prompt queryId now resp db',
      processAIQueryWith screen limits envKey callAIProvider db deviceDbId prompt
        queryId now = Some (inr resp, db') ->
      respCursor resp = if has_more resp then Some queryId else None)
  /\ (forall db q now resp db',
        continueAIQuery db q now = (inr resp, db') ->
        respCursor resp = if has_more resp then Some q else None).
Proof.
  split.
  - intros *. unfold processAIQueryWith, deliver.
    destruct (generate _ _ _ _ _); [done|]. cbv zeta.
    destruct (negb _); [by intros [= <- <-]|].
    destruct (chunkResponse _ _); [|done].
    destruct (Nat.eqb _ _); [by intros [= <- <-]|].
    cbn [aiChunks setActivityLog].
    destruct (aiChunks db !! queryId); [done|]. by intros [= <- <-].
  - intros *. unfold continueAIQuery.
    destruct (aiChunks db !! q) as [row|]; [|done].
    destruct (expiresAt row <? now)%Z; [done|].
    destruct (Nat.leb _ _); [by intros [= <- <-]|].
    destruct (Nat.ltb _ _); by intros [= <- <-].
Qed.

(** ** The reaper *)

Lemma cleanup_lookup (db : Db) (now : Z) (q : jsstring) :
  aiChunks (cleanupExpiredChunks db now).2 !! q
  = match aiChunks db !! q with
    | Some row => if (expiresAt row <? now)%Z then None else Some row
    | None => None
    end.
Proof.
  unfold cleanupExpiredChunks. cbn [snd aiChunks setAiChunks].
  rewrite map_lookup_filter.
  destruct (aiChunks db !! q) as [row|]; [|done]. cbn.
  destruct (Z.ltb_spec (expiresAt row) now).
  - by rewrite option_guard_False by (cbn; lia).
  - by rewrite option_guard_True by (cbn; lia).
Qed.

(** X4: [cleanupExpiredChunks] deletes exactly the sessions whose
    [expiresAt] is before [now] and returns their number: the sessions
    that are not expired stay as they are, the count and the sessions
    left add up to the sessions before, and the devices and the activity
    log are untouched. *)
Theorem cleanupExpiredChunks_exact (db : Db) (now : Z) :
  (forall q,
      aiChunks (cleanupExpiredChunks db now).2 !! q
      = match aiChunks db !! q with
        | Some row => if (expiresAt row <? now)%Z then None else Some row
        | None => None
        end)
  /\ ((cleanupExpiredChunks db now).1 + size (aiChunks (cleanupExpiredChunks db now).2)
      = size (aiChunks db))%nat
  /\ devices (cleanupExpiredChunks db now).2 = devices db
  /\ activityLog (cleanupExpiredChunks db now).2 = activityLog db.
Proof.
  split; [apply cleanup_lookup|]. split; [|done].
  unfold cleanupExpiredChunks. cbn [fst snd aiChunks setAiChunks].
  rewrite <- map_size_disj_union by apply map_disjoint_filter_complement.
  by rewrite map_filter_union_complement.
Qed.

(** X5: a second run of the reaper at the same instant finds nothing to
    delete and changes nothing. *)
Theorem cleanupExpiredChunks_idempotent (db : Db) (now : Z) :
  cleanupExpiredChunks (cleanupExpiredChunks db now).2 now
  = (0%nat, (cleanupExpiredChunks db now).2).
Proof.
  set (db1 := (cleanupExpiredChunks db now).2).
  assert (Hlive : forall q row, aiChunks db1 !! q = Some row -> ¬ (expiresAt row < now)%Z).
  { intros q row. unfold db1. rewrite cleanup_lookup.
    destruct (aiChunks db !! q) as [row0|]; [|done].
    destruct (Z.ltb_spec (expiresAt row0) now); [done|]. intros [= <-]. lia. }
  unfold cleanupExpiredChunks at 1.
  assert (filter (fun kv => (expiresAt kv.2 < now)%Z) (aiChunks db1) = ∅) as ->.
  { apply map_eq. intros q. rewrite lookup_empty. apply map_lookup_filter_None.
    right. intros row Hrow. by apply (Hlive q). }
  assert (filter (fun kv => ¬ (expiresAt kv.2 < now)%Z) (aiChunks db1) = aiChunks db1) as ->.
  { apply map_filter_id. intros q row Hrow. by apply (Hlive q). }
  rewrite map_size_empty. by destruct db1.
Qed.

(** X6: the reaper does not change what a client sees at that instant:
    after it, [continueAIQuery] answers a live session as before, and an
    expired or unknown cursor is NotFound as before (an expired one now
    with the message of an unknown one). *)
Theorem cleanup_then_continue (db : Db) (q : jsstring) (now : Z) :
  (continueAIQuery (cleanupExpiredChunks db now).2 q now).1
  = match (continueAIQuery db q now).1 with
    | inl _ => inl (NotFoundError "Query not found or expired")
    | inr resp => inr resp
    end.
Proof.
  unfold continueAIQuery at 1 2. rewrite cleanup_lookup.
  destruct (aiChunks db !! q) as [row|]; [|done].
  destruct (expiresAt row <? now)%Z eqn:E; [done|]. rewrite E.
  destruct (Nat.leb _ _); [done|]. by destruct (Nat.ltb _ _).
Qed.

(** ** Keys and short answers *)

(** X7: [getApiKey] gives the device's own key when it is not empty,
    whatever the environment holds; it never gives an empty key; and it
    gives none exactly when the device's key and the environment's key
    are both missing or empty. *)
Theorem getApiKey_priority (envKey : AIProvider -> option jsstring)
    (p : AIProvider) (deviceApiKey : option jsstring) :
  (forall k, deviceApiKey = Some k -> k <> [] ->
             getApiKey envKey p deviceApiKey = Some k)
  /\ getApiKey envKey p deviceApiKey <> Some []
  /\ (getApiKey envKey p deviceApiKey = None
      <-> (deviceApiKey = None \/ deviceApiKey = Some [])
          /\ (envKey p = None \/ envKey p = Some [])).
Proof.
  unfold getApiKey, truthy. split; [|split].
  - intros k -> Hk. by destruct k.
  - destruct deviceApiKey as [[|c k]|]; try done; by destruct (envKey p) as [[|c k]|].
  - destruct deviceApiKey as [[|c k]|], (envKey p) as [[|c' k']|];
      (split; [try done; auto | intros [[?|?] [?|?]]; congruence]).
Qed.

(** X8: an answer whose sanitized text fits in one chunk is returned
    whole, with [has_more = false] and no cursor; no continuation session
    is created, and the only change is the time of the last query in the
    activity log of the device. *)
Theorem processAIQuery_short_answer
    (envKey : AIProvider -> option jsstring)
    (callAIProvider : jsstring -> AIProviderConfig -> option jsstring)
    (db : Db) (deviceDbId prompt queryId : jsstring) (now : Z) (rawResponse : jsstring) :
  generate envKey callAIProvider db deviceDbId prompt = inr rawResponse ->
  (length (sanitizeAIResponse rawResponse) <= 2500)%nat ->
  processAIQuery envKey callAIProvider db deviceDbId prompt queryId now
  = Some (inr (mkResponse (Some (sanitizeAIResponse rawResponse)) false None),
          mkDb (devices db) (<[deviceDbId := now]> (activityLog db)) (aiChunks db)).
Proof.
  intros Hgen Hfit. unfold processAIQuery, processAIQueryWith. rewrite Hgen.
  cbn [checkContentPolicy safe negb]. cbv zeta. unfold deliver, chunkResponse.
  cbn [aiOutputChunkSize configLimits].
  by rewrite (proj2 (Z.leb_le _ _)) by lia.
Qed.

Lemma processAIQuery_short_answer_witness :
  processAIQuery Sample.noEnvKey (fun _ _ => Some (js "**4** is the answer."))
    Sample.db0 (js "dev") (js "2+2?") (js "query_00") 7
  = Some (inr (mkResponse (Some (sanitizeAIResponse (js "**4** is the answer.")))
                 false None),
          mkDb (devices Sample.db0) (<[js "dev" := 7%Z]> (activityLog Sample.db0))
            (aiChunks Sample.db0)).
Proof.
  apply processAIQuery_short_answer; [reflexivity|].
  vm_compute. lia.
Defined.

(** X9: a session that [processAIQuery] stores at [now] lives for the
    configured TTL: a continuation at an instant up to
    [now + aiChunkTTL * 1000] is answered, a later one is NotFound and
    deletes the session. *)
Theorem stored_session_lives_for_ttl
    (limits : Limits) (db : Db) (deviceDbId rawResponse queryId : jsstring)
    (now later : Z) (c0 c1 : jsstring) (rest : list jsstring)
    (resp : error + AIQueryResponse) (db1 : Db) :
  chunkResponse (sanitizeAIResponse rawResponse) (aiOutputChunkSize limits)
  = Some (c0 :: c1 :: rest) ->
  aiChunks db !! queryId = None ->
  deliver limits db deviceDbId rawResponse queryId now = Some (resp, db1) ->
  if (later <=? now + aiChunkTTL limits * 1000)%Z
  then exists answer, (continueAIQuery db1 queryId later).1 = inr answer
  else continueAIQuery db1 queryId later
       = (inl (NotFoundError "Query expired"),
          setAiChunks db1 (delete queryId (aiChunks db1)))
       /\ aiChunks (continueAIQuery db1 queryId later).2 !! queryId = None.
Proof.
  intros Hchunks Hfresh Hdeliver.
  rewrite (deliver_several _ _ _ _ _ _ _ _ _ Hchunks Hfresh) in Hdeliver.
  injection Hdeliver as <- <-.
  set (row := mkAIChunk deviceDbId (c1 :: rest) 1 (now + aiChunkTTL limits * 1000)).
  set (db1 := mkDb _ _ _).
  assert (Hrow : aiChunks db1 !! queryId = Some row) by apply lookup_insert_eq.
  destruct (Z.leb_spec later (now + aiChunkTTL limits * 1000)) as [Hlive|Hdead].
  - destruct (continue_live db1 queryId later row Hrow Hlive) as (answer & db2 & ->).
    by exists answer.
  - rewrite (continue_expired db1 queryId later row Hrow Hdead).
    split; [done|]. cbn [snd aiChunks setAiChunks]. apply lookup_delete_eq.
Qed.

Lemma stored_session_lives_for_ttl_witness :
  exists answer,
    (continueAIQuery
       (mkDb (devices Sample.db0) (<[js "dev" := 0%Z]> (activityLog Sample.db0))
          (<[js "query_00" := mkAIChunk (js "dev") [Sample.second] 1 3600000]>
             (aiChunks Sample.db0)))
       (js "query_00") 3600000).1 = inr answer.
Proof.
  apply (stored_session_lives_for_ttl configLimits Sample.db0 (js "dev")
           Sample.answer (js "query_00") 0 3600000
           (repeat (ch "a") 2500) Sample.second []
           (inr (mkResponse (Some (repeat (ch "a") 2500)) true (Some (js "query_00"))))).
  - exact Sample_chunks.
  - reflexivity.
  - apply deliver_several; [exact Sample_chunks|reflexivity].
Defined.

(** ** Where and how often the chunker cuts *)

(** X10: in a window that is not empty [findSafeBoundary] cuts inside the
    window and past its middle: after the first character, at most at
    the end, and at more than half the length. *)
Theorem findSafeBoundary_past_half (text : jsstring) :
  text <> [] ->
  (1 <= findSafeBoundary text <= Z.of_nat (length text))%Z
  /\ (Z.of_nat (length text) < 2 * findSafeBoundary text)%Z.
Proof.
  intros Hne. split; [by apply findSafeBoundary_range|].
  assert (0 < length text)%nat by (destruct text; [done|simpl; lia]).
  unfold findSafeBoundary, pastHalf.
  repeat match goal with
         | |- context [(?a <? ?b)%Z] => destruct (Z.ltb_spec a b)
         end; lia.
Qed.

Lemma findSafeBoundary_past_half_witness :
  (1 <= findSafeBoundary (js "One. Two, three four") <= 20)%Z
  /\ (20 < 2 * findSafeBoundary (js "One. Two, three four"))%Z.
Proof. apply (findSafeBoundary_past_half (js "One. Two, three four")). done. Defined.

Lemma chunkLoop_count (maxSize : Z) (Hpos : (0 < maxSize)%Z) :
  forall fuel remaining chunks out,
    chunkLoop fuel maxSize remaining chunks = Some out ->
    (maxSize * Z.of_nat (length out)
     <= maxSize * Z.of_nat (length chunks) + maxSize + 2 * Z.of_nat (length remaining))%Z.
Proof.
  induction fuel as [|fuel IH]; intros remaining chunks out H; [done|].
  cbn [chunkLoop] in H.
  destruct (Nat.ltb 0 (length remaining)).
  - destruct (Z.leb_spec (Z.of_nat (length remaining)) maxSize) as [Hfit|Hlong].
    + injection H as <-. rewrite length_app. simpl. lia.
    + apply IH in H. rewrite length_app in H. cbn [length] in H.
      set (chunk := substring remaining 0 maxSize) in *.
      assert (Hchunk : length chunk = Z.to_nat maxSize).
      { unfold chunk. rewrite substring_0, length_take. lia. }
      assert (chunk <> []) as Hne by (intros E; rewrite E in Hchunk; simpl in Hchunk; lia).
      pose proof (findSafeBoundary_range chunk Hne) as Hr.
      assert (Hhalf : (Z.of_nat (length chunk) < 2 * findSafeBoundary chunk)%Z).
      { assert (0 < length chunk)%nat by lia.
        unfold findSafeBoundary, pastHalf.
        repeat match goal with
               | |- context [(?a <? ?b)%Z] => destruct (Z.ltb_spec a b)
               end; lia. }
      pose proof (trim_length (substringFrom remaining (findSafeBoundary chunk))) as Ht.
      assert (length (substringFrom remaining (findSafeBoundary chunk))
              = length remaining - Z.to_nat (findSafeBoundary chunk))%nat as Hd
        by (by rewrite substringFrom_drop, length_drop).
      rewrite Nat2Z.inj_add in H. nia.
  - injection H as <-. lia.
Qed.

(** X11: cutting past the middle of each window bounds the number of
    fragments: for a positive maxSize, [chunkResponse] returns at most
    one fragment more than twice the length of the text divided by
    maxSize. *)
Theorem chunkResponse_fragment_count (text : jsstring) (maxSize : Z) (frags : list jsstring) :
  (0 < maxSize)%Z ->
  chunkResponse text maxSize = Some frags ->
  (maxSize * (Z.of_nat (length frags) - 1) <= 2 * Z.of_nat (length text))%Z.
Proof.
  intros Hpos. unfold chunkResponse.
  destruct (Z.of_nat (length text) <=? maxSize)%Z.
  - intros [= <-]. simpl. lia.
  - intros H. apply (chunkLoop_count maxSize Hpos) in H. simpl in H. lia.
Qed.

Lemma chunkResponse_fragment_count_witness :
  (8 * (Z.of_nat (length [js "word1"; js "word2"; js "word3"; js "word4"; js "word5"]) - 1)
   <= 2 * Z.of_nat (length (js "word1 word2 word3 word4 word5")))%Z.
Proof.
  apply (chunkResponse_fragment_count (js "word1 word2 word3 word4 word5") 8);
    [lia | vm_compute; reflexivity].
Defined.

Lemma trim_nil_whitespaceOnly s : trim s = [] -> whitespaceOnly s = true.
Proof.
  intros E. destruct (trim_split s) as (ws1 & ws2 & Hs & Hw1 & Hw2).
  rewrite Hs, E. cbn [app]. by rewrite whitespaceOnly_app, Hw1, Hw2.
Qed.

Lemma chunkLoop_visible (maxSize : Z) (Hpos : (0 < maxSize)%Z) :
  forall fuel remaining chunks,
    (length remaining < fuel)%nat -> remaining <> [] -> edgeClean remaining = true ->
    exists frags,
      chunkLoop fuel maxSize remaining chunks = Some (chunks ++ frags)
      /\ Forall (fun f => f <> [] /\ edgeClean f = true) frags.
Proof.
  induction fuel as [|fuel IH]; intros remaining chunks Hfuel Hne Hclean; [lia|].
  cbn [chunkLoop].
  destruct (Nat.ltb_spec 0 (length remaining)) as [_|He];
    [|destruct remaining; [done|simpl in He; lia]].
  destruct (Z.leb_spec (Z.of_nat (length remaining)) maxSize) as [Hfit|Hlong].
  - exists [remaining]. split; [done|]. by repeat constructor.
  - destruct (cut_step maxSize remaining Hpos Hlong) as (_ & Hshort & _).
    destruct (cut_step_clean maxSize remaining Hpos Hlong Hclean)
      as (Hne' & Hclean' & _).
    cbv zeta in Hshort, Hne', Hclean'.
    set (chunk := substring remaining 0 maxSize) in *.
    set (fragment := trim (substring chunk 0 (findSafeBoundary chunk))) in *.
    set (remaining' := trim (substringFrom remaining (findSafeBoundary chunk))) in *.
    destruct (IH remaining' (chunks ++ [fragment]) ltac:(lia) Hne' Hclean')
      as (frags & Hloop & Hall).
    exists (fragment :: frags). rewrite Hloop, <- app_assoc. split; [done|].
    constructor; [|done]. split; [|apply trim_edgeClean].
    intros E. apply trim_nil_whitespaceOnly in E.
    assert (Hchunk : length chunk = Z.to_nat maxSize).
    { unfold chunk. rewrite substring_0, length_take. lia. }
    assert (chunk <> []) as Hcne
      by (intros E'; rewrite E' in Hchunk; simpl in Hchunk; lia).
    pose proof (findSafeBoundary_range chunk Hcne) as Hr.
    unfold chunk in E at 1. rewrite !substring_0, take_take in E.
    apply andb_prop in Hclean as [Hhead _]. apply negb_true_iff in Hhead.
    destruct remaining as [|c remaining]; [done|].
    destruct (Z.to_nat (findSafeBoundary chunk) `min` Z.to_nat maxSize)%nat eqn:En; [lia|].
    cbn in E, Hhead. by rewrite Hhead in E.
Qed.

(** X12: a text that is not empty and has no leading or trailing
    whitespace (as a sanitized answer) is cut into fragments none of
    which is empty or has leading or trailing whitespace. *)
Theorem chunkResponse_visible_fragments (text : jsstring) (maxSize : Z) :
  (0 < maxSize)%Z -> text <> [] -> edgeClean text = true ->
  exists frags,
    chunkResponse text maxSize = Some frags
    /\ Forall (fun f => f <> [] /\ edgeClean f = true) frags.
Proof.
  intros Hpos Hne Hclean. unfold chunkResponse.
  destruct (Z.leb_spec (Z.of_nat (length text)) maxSize) as [Hfit|Hlong].
  - exists [text]. split; [done|]. by repeat constructor.
  - destruct (chunkLoop_visible maxSize Hpos (S (length text)) text []
                ltac:(lia) Hne Hclean) as (frags & Hloop & Hall).
    exists frags. by rewrite Hloop.
Qed.

Lemma chunkResponse_visible_fragments_witness :
  exists frags,
    chunkResponse (js "First sentence. Second sentence. Third sentence.") 20 = Some frags
    /\ Forall (fun f => f <> [] /\ edgeClean f = true) frags.
Proof. apply chunkResponse_visible_fragments; [lia|done|reflexivity]. Defined.

(** The loop with the limit returns what the loop returns. *)
Lemma chunkLoopWithin_returned (maxLength : nat) (maxSize : Z) :
  forall fuel remaining chunks out,
    chunkLoopWithin maxLength fuel maxSize remaining chunks = Some (Returned out) ->
    chunkLoop fuel maxSize remaining chunks = Some out.
Proof.
  induction fuel as [|fuel IH]; intros remaining chunks out H; [done|].
  cbn [chunkLoopWithin chunkLoop] in *. unfold push in H.
  destruct (Nat.ltb 0 (length remaining)); [|by injection H as <-].
  destruct (Z.of_nat (length remaining) <=? maxSize)%Z.
  - destruct (Nat.ltb (length chunks) maxLength); [by injection H as <-|done].
  - destruct (Nat.ltb (length chunks) maxLength); [by apply IH|done].
Qed.

(** With a size that is not positive and a remainder that is trimmed
    and not empty, every iteration pushes an empty fragment and leaves
    the remainder: the loop ends when the array is full. *)
Lemma chunkLoopWithin_full (maxLength : nat) (maxSize : Z) (remaining : jsstring) :
  (maxSize <= 0)%Z -> trim remaining = remaining -> remaining <> [] ->
  forall fuel chunks,
    (maxLength - length chunks < fuel)%nat ->
    chunkLoopWithin maxLength fuel maxSize remaining chunks = Some RangeError.
Proof.
  intros Hmax Htrim Hne. induction fuel as [|fuel IH]; intros chunks Hfuel; [lia|].
  cbn [chunkLoopWithin].
  destruct (Nat.ltb_spec 0 (length remaining)) as [Hlen|Hlen];
    [|destruct remaining; [done|simpl in Hlen; lia]].
  destruct (Z.leb_spec (Z.of_nat (length remaining)) maxSize); [lia|].
  assert (substring remaining 0 maxSize = []) as ->.
  { rewrite substring_0. replace (Z.to_nat maxSize) with 0%nat by lia. done. }
  change (findSafeBoundary []) with 0%Z.
  rewrite substringFrom_drop. change (Z.to_nat 0) with 0%nat.
  rewrite drop_0, Htrim. unfold push.
  destruct (Nat.ltb_spec (length chunks) maxLength) as [Hroom|]; [|done].
  apply IH. rewrite length_app. cbn [length]. lia.
Qed.

Lemma trim_not_whitespaceOnly text :
  trim text <> [] -> whitespaceOnly text = false.
Proof.
  intros Hne. destruct (whitespaceOnly text) eqn:Ew; [|done]. exfalso.
  pose proof (trim_edgeClean text) as Hc.
  destruct (trim_split text) as (ws1 & ws2 & Hs & _).
  rewrite Hs, !whitespaceOnly_app in Ew.
  apply andb_prop in Ew as [_ [Ew _]%andb_prop].
  destruct (trim text) as [|c t]; [done|].
  unfold edgeClean in Hc. apply andb_prop in Hc as [Hh _].
  apply negb_true_iff in Hh. cbn [headWS] in Hh.
  cbn [whitespaceOnly forallb] in Ew. by rewrite Hh in Ew.
Qed.

(** The call with the limit on the array always comes to an end: it
    returns or it throws. *)
Lemma chunkResponseWithin_total (maxLength : nat) (text : jsstring) (maxSize : Z) :
  exists o, chunkResponseWithin maxLength text maxSize = Some o.
Proof.
  unfold chunkResponseWithin.
  destruct (Z.of_nat (length text) <=? maxSize)%Z; [by eexists|].
  destruct (Z.lt_ge_cases 0 maxSize) as [Hpos|Hmax].
  - assert (Hloop : forall fuel remaining chunks,
               (length remaining < fuel)%nat ->
               exists o, chunkLoopWithin maxLength fuel maxSize remaining chunks = Some o).
    { induction fuel as [|fuel IH]; intros remaining chunks Hfuel; [lia|].
      cbn [chunkLoopWithin]. unfold push.
      destruct (Nat.ltb 0 (length remaining)); [|by eexists].
      destruct (Z.leb_spec (Z.of_nat (length remaining)) maxSize) as [|Hlong].
      { destruct (Nat.ltb (length chunks) maxLength); by eexists. }
      destruct (cut_step maxSize remaining Hpos Hlong) as (_ & Hshort & _).
      cbv zeta in Hshort.
      destruct (Nat.ltb (length chunks) maxLength); [|by eexists].
      apply IH. lia. }
    apply Hloop. lia.
  - replace (S (length text) + S maxLength)%nat
      with (S (S (length text + maxLength))) by lia.
    remember (S (length text + maxLength)) as fuel eqn:Hfuel.
    cbn [chunkLoopWithin].
    destruct (Nat.ltb_spec 0 (length text)) as [Hlen|Hlen]; [|by eexists].
    destruct (Z.leb_spec (Z.of_nat (length text)) maxSize); [lia|].
    assert (substring text 0 maxSize = []) as ->.
    { rewrite substring_0. replace (Z.to_nat maxSize) with 0%nat by lia. done. }
    change (findSafeBoundary []) with 0%Z.
    rewrite substringFrom_drop. change (Z.to_nat 0) with 0%nat. rewrite drop_0.
    unfold push at 1. destruct (Nat.ltb (length (@nil jsstring)) maxLength); [|by eexists].
    destruct (trim text) as [|c r] eqn:Et; [subst fuel; by eexists|].
    rewrite <- Et. exists RangeError. apply chunkLoopWithin_full.
    + exact Hmax.
    + apply trim_id, trim_edgeClean.
    + by rewrite Et.
    + cbn [length app]. lia.
Qed.

(** What the call with the limit returns, [chunkResponse] returns. *)
Lemma chunkResponseWithin_returned (maxLength : nat) (text : jsstring) (maxSize : Z)
    (out : list jsstring) :
  chunkResponseWithin maxLength text maxSize = Some (Returned out) ->
  chunkResponse text maxSize = Some out.
Proof.
  unfold chunkResponseWithin, chunkResponse.
  destruct (Z.leb_spec (Z.of_nat (length text)) maxSize) as [|Hlong];
    [by intros [= <-]|].
  intros H%chunkLoopWithin_returned.
  destruct (Z.lt_ge_cases 0 maxSize) as [Hpos|Hmax].
  - destruct (chunkLoop_spec maxSize Hpos (S (length text)) text [] ltac:(lia))
      as (frags & Hloop & _).
    rewrite (chunkLoop_fuel_mono _ _ (S (length text) + S maxLength) _ _ _ Hloop) in H
      by lia.
    by rewrite Hloop, <- H.
  - replace (S (length text) + S maxLength)%nat
      with (S (S (length text + maxLength))) in H by lia.
    remember (S (length text + maxLength)) as fuel eqn:Hfuel.
    remember (length text) as fuel0 eqn:Hfuel0.
    cbn [chunkLoop] in *. subst fuel0.
    destruct (Nat.ltb_spec 0 (length text)) as [Hlen|Hlen]; [|done].
    destruct (Z.leb_spec (Z.of_nat (length text)) maxSize); [lia|].
    assert (substring text 0 maxSize = []) as Hw.
    { rewrite substring_0. replace (Z.to_nat maxSize) with 0%nat by lia. done. }
    rewrite Hw in *. change (findSafeBoundary []) with 0%Z in *.
    rewrite substringFrom_drop in *. change (Z.to_nat 0) with 0%nat in *.
    rewrite drop_0 in *.
    destruct (trim text) as [|c t] eqn:Et.
    + subst fuel. cbn [chunkLoop] in H. cbn [length Nat.ltb Nat.leb] in H.
      destruct text as [|x text]; [simpl in Hlen; lia|]. exact H.
    + rewrite <- Et in H. rewrite chunkLoop_no_exit in H; [done..| |by rewrite Et].
      apply trim_id, trim_edgeClean.
Qed.

(** X13: with a maxSize that is not positive, [chunkResponse] of a text
    that is not empty returns only when the text is whitespace, and then
    returns one empty fragment.  For any other text no array is returned
    ([None] in [chunkResponse]): the call ends with the RangeError of
    [chunks.push] when the array is full, whatever the greatest length
    of an array is. *)
Theorem chunkResponse_nonpositive_size (maxLength : nat) (text : jsstring) (maxSize : Z) :
  (0 < maxLength)%nat -> (maxSize <= 0)%Z -> text <> [] ->
  chunkResponseWithin maxLength text maxSize
  = Some (if whitespaceOnly text then Returned [[]] else RangeError)
  /\ chunkResponse text maxSize = if whitespaceOnly text then Some [[]] else None.
Proof.
  intros Hroom Hmax Hne. unfold chunkResponseWithin, chunkResponse.
  assert (0 < length text)%nat as Hlen by (destruct text; [done|simpl; lia]).
  destruct (Z.leb_spec (Z.of_nat (length text)) maxSize); [lia|].
  replace (S (length text) + S maxLength)%nat
    with (S (S (length text + maxLength))) by lia.
  remember (S (length text + maxLength)) as fuel eqn:Hfuel.
  remember (length text) as fuel0 eqn:Hfuel0.
  cbn [chunkLoopWithin chunkLoop]. subst fuel0.
  destruct (Nat.ltb_spec 0 (length text)); [|lia].
  destruct (Z.leb_spec (Z.of_nat (length text)) maxSize); [lia|].
  assert (substring text 0 maxSize = []) as ->.
  { rewrite substring_0. replace (Z.to_nat maxSize) with 0%nat by lia. done. }
  change (findSafeBoundary []) with 0%Z.
  rewrite substringFrom_drop. change (Z.to_nat 0) with 0%nat. rewrite drop_0.
  change (trim (substring [] 0 0)) with (@nil char). cbn [app].
  unfold push at 1. cbn [length].
  rewrite (proj2 (Nat.ltb_lt 0 maxLength) Hroom). cbn [app].
  destruct (trim text) as [|c t] eqn:Et.
  - rewrite (trim_nil_whitespaceOnly _ Et). subst fuel.
    destruct text as [|x text]; [done|]. done.
  - rewrite (trim_not_whitespaceOnly text) by (by rewrite Et).
    rewrite <- Et. split.
    + apply chunkLoopWithin_full; [done| |by rewrite Et|cbn [length]; lia].
      apply trim_id, trim_edgeClean.
    + apply chunkLoop_no_exit; [done| |by rewrite Et].
      apply trim_id, trim_edgeClean.
Qed.

Lemma chunkResponse_nonpositive_size_witness :
  chunkResponseWithin 3 (js "a  bc") 0
  = Some (if whitespaceOnly (js "a  bc") then Returned [[]] else RangeError)
  /\ chunkResponse (js "a  bc") 0 = if whitespaceOnly (js "a  bc") then Some [[]] else None.
Proof. apply chunkResponse_nonpositive_size; [lia|lia|done]. Defined.

(** ** What a match and a replacement are made of *)

(** Membership in lists built with [::] and [++]. *)
Ltac elems := rewrite ?elem_of_cons, ?elem_of_app, ?elem_of_nil in *; intuition auto.

Lemma rrep_inv {A} g lo hi p (k : @cont A) cap x : forall s count prev n,
  rrep g lo hi p k cap count prev s n = Some x ->
  exists pre s' prev', s = pre ++ s' /\ k prev' s' (n + length pre)%nat cap = Some x.
Proof.
  induction s as [|c s IH]; intros count prev n H; cbn [rrep] in H; cbv zeta in H.
  - exists [], [], prev. rewrite Nat.add_0_r. split; [done|].
    destruct g, (Nat.leb lo count); cbn beta iota in H; try done.
    by destruct (k prev [] n cap).
  - assert (Hstop : k prev (c :: s) n cap = Some x ->
                    exists pre s' prev', c :: s = pre ++ s'
                                         /\ k prev' s' (n + length pre)%nat cap = Some x).
    { intros Hk. exists [], (c :: s), prev. by rewrite Nat.add_0_r. }
    assert (Hmore : rrep g lo hi p k cap (S count) (Some c) s (S n) = Some x ->
                    exists pre s' prev', c :: s = pre ++ s'
                                         /\ k prev' s' (n + length pre)%nat cap = Some x).
    { intros Hr. destruct (IH _ _ _ Hr) as (pre & s' & prev' & -> & Hk).
      exists (c :: pre), s', prev'. split; [done|]. cbn [length].
      by rewrite <- Nat.add_succ_comm. }
    destruct g, (p c && belowMax hi count), (Nat.leb lo count);
      cbn beta iota in H; try done; auto.
    + destruct (rrep true lo hi p k cap (S count) (Some c) s (S n)) eqn:E; [|auto].
      injection H as ->. auto.
    + by destruct (rrep true lo hi p k cap (S count) (Some c) s (S n)) eqn:E; auto.
    + destruct (k prev (c :: s) n cap) eqn:E; [|auto]. injection H as ->. auto.
    + by destruct (k prev (c :: s) n cap) eqn:E; auto.
Qed.

(** A successful match went on with what follows on a suffix of the
    input, after the characters it consumed; a capture it made is a piece
    of the input. *)
Lemma rmatch_inv {A} m r : forall s prev n cap (k : @cont A) x,
  rmatch m r prev s n cap k = Some x ->
  exists pre s' prev' cap',
    s = pre ++ s'
    /\ k prev' s' (n + length pre)%nat cap' = Some x
    /\ (cap' = cap \/ exists t, cap' = Some t /\ t ⊆ s).
Proof.
  induction r as [c|p|r1 IH1 r2 IH2|g lo hi p|r1 IH1| | |];
    intros s prev n cap k x H; cbn [rmatch] in H.
  - destruct s as [|a s]; [done|]. destruct (a =? c); [|done].
    exists [a], s, (Some a), cap. rewrite Nat.add_1_r. auto.
  - destruct s as [|a s]; [done|]. destruct (p a); [|done].
    exists [a], s, (Some a), cap. rewrite Nat.add_1_r. auto.
  - destruct (IH1 _ _ _ _ _ _ H) as (pre1 & s1 & prev1 & cap1 & -> & H2 & Hcap1).
    destruct (IH2 _ _ _ _ _ _ H2) as (pre2 & s2 & prev2 & cap2 & -> & Hk & Hcap2).
    exists (pre1 ++ pre2), s2, prev2, cap2.
    rewrite length_app, Nat.add_assoc, <- app_assoc. split; [done|]. split; [done|].
    destruct Hcap2 as [->|(t & -> & Ht)]; [done|].
    right. exists t. split; [done|]. intros c Hc. apply Ht in Hc. elems.
  - destruct (rrep_inv _ _ _ _ _ _ _ _ _ _ _ H) as (pre & s' & prev' & -> & Hk).
    exists pre, s', prev', cap. auto.
  - destruct (IH1 _ _ _ _ _ _ H) as (pre & s' & prev' & cap' & -> & Hk & _).
    exists pre, s', prev', (Some (take (n + length pre - n) (pre ++ s'))).
    split; [done|]. split; [done|]. right. eexists. split; [done|].
    apply sublist_subseteq, sublist_take.
  - destruct (atBol m prev); [|done].
    exists [], s, prev, cap. rewrite Nat.add_0_r. auto.
  - destruct (atEol m s); [|done].
    exists [], s, prev, cap. rewrite Nat.add_0_r. auto.
  - exists [], s, prev, cap. rewrite Nat.add_0_r. auto.
Qed.

Lemma matchHere_inv r prev s n cap :
  matchHere r prev s = Some (n, cap) ->
  (n <= length s)%nat /\ forall t, cap = Some t -> t ⊆ s.
Proof.
  unfold matchHere. intros H.
  destruct (rmatch_inv _ _ _ _ _ _ _ _ H) as (pre & s' & prev' & cap' & -> & Hk & Hcap).
  injection Hk as <- <-. split; [rewrite length_app; lia|].
  intros t ->. by destruct Hcap as [|(t' & [= <-] & ?)].
Qed.

Lemma expand_other a rest m cap :
  a <> 36 -> expand (a :: rest) m cap = a :: expand rest m cap.
Proof.
  intros Ha. destruct a as [|p]; [by destruct rest|].
  do 6 (destruct p as [p|p|]; try by destruct rest).
Qed.

Lemma expand_dollar_other b rest m cap :
  b <> 49 -> b <> 38 -> b <> 36 ->
  expand (36 :: b :: rest) m cap = 36 :: expand (b :: rest) m cap.
Proof.
  intros H1 H2 H3. rewrite (expand_other b) by done.
  destruct b as [|p]; [done|].
  do 6 (destruct p as [p|p|]; try done).
Qed.

(** The characters of an expanded replacement come from the replacement
    string, the match or the capture. *)
Lemma expand_chars m cap c : forall tpl,
  c ∈ expand tpl m cap -> c ∈ tpl \/ c ∈ m \/ c ∈ default [] cap.
Proof.
  intros tpl. remember (length tpl) as len eqn:Hlen.
  revert tpl Hlen. induction len as [len IH] using lt_wf_ind. intros tpl ->.
  destruct tpl as [|a rest]; [by left|].
  destruct (N.eq_dec a 36) as [->|Ha].
  - destruct rest as [|b rest]; [by left|].
    destruct (N.eq_dec b 49) as [->|H49]; [|destruct (N.eq_dec b 38) as [->|H38];
      [|destruct (N.eq_dec b 36) as [->|H36]]].
    + change (expand (36 :: 49 :: rest) m cap) with (default [] cap ++ expand rest m cap).
      intros [?|H]%elem_of_app; [auto|].
      apply (IH (length rest)) in H; [|simpl; lia|done]. elems.
    + change (expand (36 :: 38 :: rest) m cap) with (m ++ expand rest m cap).
      intros [?|H]%elem_of_app; [auto|].
      apply (IH (length rest)) in H; [|simpl; lia|done]. elems.
    + change (expand (36 :: 36 :: rest) m cap) with (36 :: expand rest m cap).
      intros [->|H]%elem_of_cons; [left; elems|].
      apply (IH (length rest)) in H; [|simpl; lia|done]. elems.
    + rewrite expand_dollar_other by done.
      intros [->|H]%elem_of_cons; [left; elems|].
      apply (IH (length (b :: rest))) in H; [|simpl; lia|done]. elems.
  - rewrite expand_other by done.
    intros [->|H]%elem_of_cons; [left; elems|].
    apply (IH (length rest)) in H; [|simpl; lia|done]. elems.
Qed.

Lemma expand_no_dollar m cap : forall tpl,
  occursIn 36 tpl = false -> expand tpl m cap = tpl.
Proof.
  induction tpl as [|a rest IH]; [done|]. cbn [occursIn existsb].
  intros [Ha Hrest]%orb_false_elim. apply N.eqb_neq in Ha.
  rewrite expand_other by done. f_equal. by apply IH.
Qed.

Lemma occursIn_false c s : occursIn c s = false <-> c ∉ s.
Proof.
  unfold occursIn. induction s as [|x s IH].
  { split; [intros _; apply not_elem_of_nil|done]. }
  cbn [existsb]. rewrite orb_false_iff, IH, not_elem_of_cons, N.eqb_neq.
  split; intros [? ?]; (split; [congruence|done]).
Qed.

(** The characters of [s.replace(r, tpl)] come from [s] or from [tpl]. *)
Lemma replaceGo_chars r tpl c : forall s prev skip,
  c ∈ replaceGo r (expand tpl) prev s skip -> c ∈ s \/ c ∈ tpl.
Proof.
  induction s as [|x s IH]; intros prev skip.
  - destruct skip; cbn [replaceGo]; [|by rewrite elem_of_nil].
    destruct (matchHere r prev []) as [[n cap]|] eqn:E; [|by rewrite elem_of_nil].
    destruct (matchHere_inv _ _ _ _ _ E) as [Hn Hcap].
    assert (n = 0)%nat as -> by (simpl in Hn; lia).
    destruct (global r); cbn [take drop]; rewrite app_nil_r;
      intros [?|[H|H]]%expand_chars; auto; try by apply elem_of_nil in H.
    all: destruct cap as [t|]; [apply (Hcap t eq_refl) in H; auto|by apply elem_of_nil in H].
  - destruct skip as [|skip]; cbn [replaceGo].
    + destruct (matchHere r prev (x :: s)) as [[n cap]|] eqn:E.
      * destruct (matchHere_inv _ _ _ _ _ E) as [Hn Hcap].
        intros [H|H]%elem_of_app.
        -- apply expand_chars in H as [?|[H|H]]; [auto| |].
           ++ left. by apply (sublist_subseteq _ _ (sublist_take _ _)) in H.
           ++ destruct cap as [t|]; [left; by apply (Hcap t eq_refl)|by apply elem_of_nil in H].
        -- destruct (global r).
           ++ apply elem_of_app in H as [H|H].
              ** destruct n; [|by apply elem_of_nil in H]. left. elems.
              ** apply IH in H as [?|?]; [left; elems|auto].
           ++ left. by apply (sublist_subseteq _ _ (sublist_drop _ _)) in H.
      * intros [->|H]%elem_of_cons; [left; elems|].
        apply IH in H as [?|?]; [left; elems|auto].
    + intros H. apply IH in H as [?|?]; [left; elems|auto].
Qed.

Lemma replace_chars r tpl s c : c ∈ replace r tpl s -> c ∈ s \/ c ∈ tpl.
Proof. apply replaceGo_chars. Qed.

(** A row whose pattern is the character [g] leaves no [g], when its
    replacement holds neither [g] nor a dollar sign. *)
Lemma replaceGo_removes r tpl g :
  source r = RChar g -> global r = true ->
  occursIn 36 tpl = false -> g ∉ tpl ->
  forall s prev, g ∉ replaceGo r (expand tpl) prev s 0.
Proof.
  intros Hr Hg Hd Htpl. induction s as [|x s IH]; intros prev.
  - cbn [replaceGo]. unfold matchHere. rewrite Hr. cbn [rmatch]. apply not_elem_of_nil.
  - cbn [replaceGo]. unfold matchHere. rewrite Hr. cbn [rmatch].
    destruct (N.eqb_spec x g) as [->|Hx].
    + rewrite Hg, expand_no_dollar by done. cbn [Nat.sub app].
      rewrite elem_of_app. intros [?|?]; [done|]. by apply (IH (Some g)).
    + rewrite not_elem_of_cons. split; [done|]. apply IH.
Qed.

Lemma replaceAll_keeps_absent g : forall table s,
  forallb (fun pr => negb (occursIn g (snd pr))) table = true ->
  g ∉ s -> g ∉ replaceAll table s.
Proof.
  unfold replaceAll. induction table as [|[r tpl] table IH]; intros s Ht Hs; [done|].
  cbn [forallb snd fst fold_left] in *. apply andb_prop in Ht as [Htpl Ht].
  apply negb_true_iff, occursIn_false in Htpl.
  apply IH; [done|]. intros [?|?]%replace_chars; done.
Qed.

Lemma removes_sound g : forall table s,
  removes g table = true -> g ∉ replaceAll table s.
Proof.
  induction table as [|[r tpl] table IH]; intros s; [done|].
  cbn [removes]. intros [Hrow|Hrest]%orb_prop.
  - apply andb_prop in Hrow as [[Hr Hd]%andb_prop Hall].
    apply negb_true_iff in Hd.
    cbn [forallb snd] in Hall. apply andb_prop in Hall as [Htpl Hall].
    apply negb_true_iff, occursIn_false in Htpl.
    destruct (source r) as [c| | | | | | |] eqn:Hsrc; try done.
    apply andb_prop in Hr as [->%N.eqb_eq Hg].
    change (replaceAll ((r, tpl) :: table) s) with (replaceAll table (replace r tpl s)).
    apply replaceAll_keeps_absent; [done|].
    by apply replaceGo_removes.
  - change (replaceAll ((r, tpl) :: table) s) with (replaceAll table (replace r tpl s)).
    by apply IH.
Qed.

(** ** No mapped glyph is left *)

Lemma elem_of_trim c s : c ∈ trim s -> c ∈ s.
Proof.
  destruct (trim_split s) as (ws1 & ws2 & Hs & _). intros H. rewrite Hs. elems.
Qed.

Lemma elem_of_split sep c : forall s l, l ∈ split sep s -> c ∈ l -> c ∈ s.
Proof.
  induction s as [|x s IH]; intros l; cbn [split].
  - intros ->%list_elem_of_singleton. done.
  - destruct (x =? sep).
    + intros [->|Hl]%elem_of_cons Hc; [by apply elem_of_nil in Hc|].
      apply elem_of_cons. right. by apply (IH l).
    + pose proof (split_not_nil sep s) as Hne.
      destruct (split sep s) as [|l0 ls]; [done|].
      intros [->|Hl]%elem_of_cons Hc.
      * apply elem_of_cons in Hc as [->|Hc]; [elems|].
        apply elem_of_cons. right. apply (IH l0); [elems|done].
      * apply elem_of_cons. right. apply (IH l); [elems|done].
Qed.

Lemma elem_of_join sep c : forall ls,
  c ∈ join sep ls -> c ∈ sep \/ exists l, l ∈ ls /\ c ∈ l.
Proof.
  induction ls as [|l ls IH]; [by intros ?%elem_of_nil|].
  destruct ls as [|l' ls].
  - intros Hc. right. exists l. elems.
  - rewrite join_cons by done. intros [Hc|[Hc|Hc]%elem_of_app]%elem_of_app; [|auto|].
    + right. exists l. elems.
    + destruct (IH Hc) as [?|(l0 & Hl0 & Hc0)]; [auto|].
      right. exists l0. elems.
Qed.

Lemma convertTablesLoop_chars c : forall lines lastIndex l,
  l ∈ convertTablesLoop lines lastIndex -> c ∈ l ->
  c ∈ js " | " \/ exists line, line ∈ lines /\ c ∈ line.
Proof.
  induction lines as [|line lines IH]; intros lastIndex l; cbn [convertTablesLoop];
    [by intros ?%elem_of_nil|].
  assert (Hrest : forall li, l ∈ convertTablesLoop lines li -> c ∈ l ->
            c ∈ js " | " \/ exists line0, line0 ∈ line :: lines /\ c ∈ line0).
  { intros li Hl Hc. destruct (IH li l Hl Hc) as [?|(line0 & ? & ?)]; [auto|].
    right. exists line0. elems. }
  destruct (test separatorPattern (trim line) 0).1; [apply Hrest|].
  destruct (test tablePattern line lastIndex) as [isRow lastIndex'].
  destruct isRow.
  - intros [->|Hl]%elem_of_cons Hc; [|by apply (Hrest lastIndex')].
    apply elem_of_join in Hc as [?|(cell & Hcell & Hc)]; [auto|].
    right. exists line. split; [elems|].
    apply list_elem_of_In, in_map_iff in Hcell as (cell0 & <- & Hcell0).
    apply filter_In in Hcell0 as [Hcell0 _].
    apply elem_of_trim in Hc.
    apply (elem_of_split (ch "|") c line cell0); [by apply list_elem_of_In|done].
  - intros [->|Hl]%elem_of_cons Hc; [|by apply (Hrest lastIndex')].
    right. exists line. elems.
Qed.

Lemma convertTables_chars c s :
  c ∈ convertTables s -> c ∈ s \/ c = LF \/ c = SPACE \/ c = ch "|".
Proof.
  unfold convertTables. cbv zeta.
  intros [Hc|(l & Hl & Hc)]%elem_of_join.
  - apply list_elem_of_singleton in Hc. auto.
  - destruct (convertTablesLoop_chars c _ _ _ Hl Hc) as [Hsep|(line & Hline & Hc')].
    + change (js " | ") with [SPACE; ch "|"; SPACE] in Hsep.
      repeat (apply elem_of_cons in Hsep as [->|Hsep]; [by auto|]).
      by apply elem_of_nil in Hsep.
    + left. by apply (elem_of_split LF c s line).
Qed.

Lemma normalizeWhitespace_chars c s :
  c ∈ normalizeWhitespace s -> c ∈ s \/ c = LF \/ c = SPACE.
Proof.
  unfold normalizeWhitespace. cbv zeta. intros Hc%elem_of_trim.
  apply elem_of_join in Hc as [Hc|(l & Hl & Hc)].
  { apply list_elem_of_singleton in Hc. auto. }
  apply list_elem_of_In, in_map_iff in Hl as (l0 & <- & Hl0).
  apply elem_of_trim in Hc. apply list_elem_of_In in Hl0.
  pose proof (elem_of_split LF c _ l0 Hl0 Hc) as H2.
  apply replace_chars in H2 as [H1|H2].
  - apply replace_chars in H1 as [?|H1]; [auto|].
    apply list_elem_of_singleton in H1. auto.
  - repeat (apply elem_of_cons in H2 as [->|H2]; [by auto|]).
    by apply elem_of_nil in H2.
Qed.

Lemma mappedGlyphs_removed :
  forallb (fun g => removes g replacements
                    && negb (occursIn g [LF; SPACE; ch "|"])) mappedGlyphs = true.
Proof. vm_compute. reflexivity. Qed.

Lemma forallb_occursIn (f : char -> bool) g : forall l,
  forallb f l = true -> occursIn g l = true -> f g = true.
Proof.
  induction l as [|x l IH]; cbn [forallb occursIn existsb]; [done|].
  intros [Hx Hl]%andb_prop [Hg%N.eqb_eq|Hg]%orb_prop; [by subst x|by apply IH].
Qed.

Lemma mappedGlyph_removed g :
  occursIn g mappedGlyphs = true ->
  removes g replacements = true /\ g <> LF /\ g <> SPACE /\ g <> ch "|".
Proof.
  intros Hg.
  pose proof (forallb_occursIn _ g _ mappedGlyphs_removed Hg) as Hin.
  cbv beta in Hin.
  apply andb_prop in Hin as [Hrem Hsep].
  split; [exact Hrem|].
  apply negb_true_iff in Hsep. cbn [occursIn existsb] in Hsep.
  apply orb_false_elim in Hsep as [HLF Hsep].
  apply orb_false_elim in Hsep as [HSP Hsep].
  apply orb_false_elim in Hsep as [Hbar _].
  apply N.eqb_neq in HLF, HSP, Hbar. auto.
Qed.

(** X16: none of the glyphs that the table of [convertMathSymbols] maps
    is left in its output, whatever the input, nor in the output of
    [sanitizeAIResponse]. *)
Theorem sanitizeAIResponse_no_mapped_glyph (content : jsstring) (g : char) :
  occursIn g mappedGlyphs = true ->
  occursIn g (convertMathSymbols content) = false
  /\ occursIn g (sanitizeAIResponse content) = false.
Proof.
  intros (Hrem & HLF & HSP & Hbar)%mappedGlyph_removed.
  assert (Hmath : forall s, g ∉ convertMathSymbols s).
  { intros s. apply removes_sound. exact Hrem. }
  split; apply occursIn_false; [apply Hmath|].
  unfold sanitizeAIResponse. cbv zeta.
  intros Hn. apply normalizeWhitespace_chars in Hn as [Ht|[Hn|Hn]];
    [|congruence..].
  apply convertTables_chars in Ht as [Ht|[Hn|[Hn|Hn]]]; [|congruence..].
  exact (Hmath _ Ht).
Qed.

Lemma sanitizeAIResponse_no_mapped_glyph_witness :
  occursIn 0x3c0 (convertMathSymbols ([0x3c0] ++ js " r squared")) = false
  /\ occursIn 0x3c0 (sanitizeAIResponse ([0x3c0] ++ js " r squared")) = false.
Proof. apply sanitizeAIResponse_no_mapped_glyph. reflexivity. Defined.

(** ** Answers of whitespace only *)

Lemma whitespaceOnly_visible s :
  whitespaceOnly s = true -> Forall (fun c => visible c = false) s.
Proof.
  intros Hws. apply Forall_forall. intros c Hc%list_elem_of_In.
  unfold whitespaceOnly in Hws. rewrite forallb_forall in Hws.
  unfold visible. by rewrite (Hws c Hc).
Qed.

(** A class of the pattern that holds visible characters only. *)
Ltac visible_class :=
  let c := fresh "c" in
  let Hc := fresh "Hc" in
  intros c Hc; unfold isChar, oneOf in Hc; cbn [existsb] in Hc;
  rewrite ?orb_false_r in Hc;
  repeat (apply orb_prop in Hc as [Hc|Hc]);
  apply N.eqb_eq in Hc; subst c; reflexivity.

Ltac visible_tac :=
  cbn [needs];
  first [ reflexivity
        | solve [visible_class]
        | solve [split; [lia | visible_class]]
        | left; visible_tac
        | right; visible_tac ].

(** Every pattern of the sanitizer before the whitespace step needs a
    character that is not whitespace. *)
Lemma markup_needs_visible :
  Forall (fun r => needs visible (source r)) markupPatterns.
Proof.
  unfold markupPatterns, markdownPatterns, replacements, fencedCodePattern,
    inlineCodePattern, delimited, glyph, fence.
  cbn [map fst app rseq source reG reGM plus star lazyStar].
  repeat (apply Forall_cons; split; [visible_tac|]).
  constructor.
Qed.

Lemma tablePatterns_need_visible :
  needs visible (source tablePattern) /\ needs visible (source separatorPattern).
Proof.
  unfold tablePattern, separatorPattern.
  cbn [rseq source reG rePlain plus]. split; visible_tac.
Qed.

Lemma test_needs_at Q r text :
  needs Q (source r) -> Forall (fun c => Q c = false) text ->
  fst (test r text 0) = false.
Proof.
  intros Hn Ht. unfold test, exec. cbn [length Nat.ltb Nat.leb take drop last].
  change (Nat.ltb (length text) 0) with false. cbn iota.
  rewrite drop_0, (search_needs Q) by done. by destruct (global r).
Qed.

(** The stages before the whitespace step leave a text of whitespace
    alone. *)
Lemma markup_stages_whitespaceOnly s :
  whitespaceOnly s = true ->
  convertTables (convertMathSymbols (stripMarkdown (stripCodeBlocks s))) = s.
Proof.
  intros Hws. pose proof (whitespaceOnly_visible s Hws) as Hvis.
  assert (Hmarkup : forallb (fun r => negb (hasMatch r s)) markupPatterns = true).
  { apply forallb_forall. intros r Hr%list_elem_of_In.
    pose proof markup_needs_visible as Hall. rewrite Forall_forall in Hall.
    apply negb_true_iff, (hasMatch_needs visible); auto. }
  unfold markupPatterns in Hmarkup. cbn [app forallb] in Hmarkup.
  apply andb_prop in Hmarkup as [Hfence Hmarkup].
  apply andb_prop in Hmarkup as [Hinline Hmarkup].
  rewrite forallb_app in Hmarkup. apply andb_prop in Hmarkup as [Hmd Hmath].
  apply negb_true_iff in Hfence, Hinline.
  rewrite stripCodeBlocks_plain by done.
  unfold stripMarkdown, convertMathSymbols.
  rewrite (replaceAll_no_match markdownPatterns s Hmd).
  rewrite (replaceAll_no_match replacements s Hmath).
  apply convertTables_plain, forallb_forall. intros line Hline%list_elem_of_In.
  assert (Hl : Forall (fun c => visible c = false) line).
  { rewrite Forall_forall in Hvis. apply Forall_forall. intros c Hc.
    apply Hvis. by apply (elem_of_split LF c s line). }
  destruct tablePatterns_need_visible as [Hrow Hsep].
  apply negb_true_iff, orb_false_intro; [|by apply (test_needs_at visible)].
  apply (test_needs_at visible); [done|].
  rewrite Forall_forall in Hl. apply Forall_forall. intros c Hc%elem_of_trim. auto.
Qed.

(** X17: an answer of whitespace only is sanitized to the empty string. *)
Theorem sanitizeAIResponse_whitespaceOnly (content : jsstring) :
  whitespaceOnly content = true -> sanitizeAIResponse content = [].
Proof.
  intros Hws. unfold sanitizeAIResponse. cbv zeta.
  rewrite markup_stages_whitespaceOnly by done.
  destruct (normalizeWhitespace content) as [|c rest] eqn:E; [done|].
  exfalso.
  assert (Hc : c ∈ normalizeWhitespace content) by (rewrite E; apply elem_of_cons; auto).
  assert (Hh : headWS (normalizeWhitespace content) = false).
  { destruct (normalizeWhitespace_spec content) as (_ & _ & Hedge).
    unfold edgeClean in Hedge. apply andb_prop in Hedge as [Hh _].
    by apply negb_true_iff in Hh. }
  rewrite E in Hh. cbn [headWS] in Hh.
  unfold whitespaceOnly in Hws. rewrite forallb_forall in Hws.
  apply normalizeWhitespace_chars in Hc as [Hc|[->| ->]]; [|done..].
  apply list_elem_of_In, Hws in Hc. congruence.
Qed.

Lemma sanitizeAIResponse_whitespaceOnly_witness :
  sanitizeAIResponse [SPACE; LF; 9; LF; LF; LF; SPACE; SPACE] = [].
Proof. apply sanitizeAIResponse_whitespaceOnly. reflexivity. Defined.

(** ** The size of what a device receives *)

Lemma chunkLoop_extends (maxSize : Z) : forall fuel remaining chunks out,
  chunkLoop fuel maxSize remaining chunks = Some out ->
  exists frags, out = chunks ++ frags.
Proof.
  induction fuel as [|fuel IH]; intros remaining chunks out H; [done|].
  cbn [chunkLoop] in H.
  destruct (Nat.ltb 0 (length remaining)).
  - destruct (Z.of_nat (length remaining) <=? maxSize)%Z.
    + injection H as <-. by eexists.
    + apply IH in H as (frags & ->). rewrite <- app_assoc. by eexists.
  - injection H as <-. exists []. by rewrite app_nil_r.
Qed.

(** The fragments of [chunkResponse] are never none. *)
Lemma chunkResponse_within (text : jsstring) (size : nat) :
  (0 < size)%nat ->
  exists c0 rest,
    chunkResponse text (Z.of_nat size) = Some (c0 :: rest)
    /\ Forall (fun c => (length c <= size)%nat) (c0 :: rest).
Proof.
  intros Hpos.
  destruct (chunkResponse_total text (Z.of_nat size) ltac:(lia))
    as (frags & Hfrags & Hall & _).
  assert (Hall' : Forall (fun c => (length c <= size)%nat) frags).
  { eapply Forall_impl; [exact Hall|]. intros c. unfold withinSize. lia. }
  destruct frags as [|c0 rest]; [|by exists c0, rest].
  exfalso. unfold chunkResponse in Hfrags.
  destruct (Z.leb_spec (Z.of_nat (length text)) (Z.of_nat size)) as [|Hlong]; [done|].
  cbn [chunkLoop] in Hfrags.
  destruct (Nat.ltb_spec 0 (length text)) as [_|]; [|lia].
  rewrite (proj2 (Z.leb_gt _ _) Hlong) in Hfrags.
  apply chunkLoop_extends in Hfrags as (frags & Hfrags).
  by destruct frags.
Qed.

Lemma chunksWithin_insert size db q row :
  chunksWithin size db ->
  Forall (fun c => (length c <= size)%nat) (chunks row) ->
  chunksWithin size (setAiChunks db (<[q := row]> (aiChunks db))).
Proof. intros Hdb Hrow. by apply map_Forall_insert_2. Qed.

Lemma chunksWithin_delete size db q :
  chunksWithin size db ->
  chunksWithin size (setAiChunks db (delete q (aiChunks db))).
Proof. intros Hdb. by apply map_Forall_delete. Qed.

(** X18: with the limits of the configuration [processAIQuery] always
    comes to an end, for every state of the tables, and what it returns
    to the device carries a chunk, never more than 2500 characters long;
    and if the chunks stored before have at most 2500 characters, so have
    the chunks stored afterwards. *)
Theorem processAIQuery_returns_within
    (envKey : AIProvider -> option jsstring)
    (callAIProvider : jsstring -> AIProviderConfig -> option jsstring)
    (db : Db) (deviceDbId prompt queryId : jsstring) (now : Z) :
  exists r db',
    processAIQuery envKey callAIProvider db deviceDbId prompt queryId now
    = Some (r, db')
    /\ carriesChunk 2500 r
    /\ (chunksWithin 2500 db -> chunksWithin 2500 db').
Proof.
  unfold processAIQuery, processAIQueryWith.
  destruct (generate _ _ _ _ _) as [e|rawResponse]; [by eexists _, _|].
  cbn [checkContentPolicy safe negb]. unfold deliver.
  destruct (chunkResponse_within (sanitizeAIResponse rawResponse) 2500 ltac:(lia))
    as (c0 & rest & Hchunks & Hall).
  change (aiOutputChunkSize configLimits) with (Z.of_nat 2500).
  rewrite Hchunks. cbv zeta. apply Forall_cons in Hall as [Hc0 Hrest].
  destruct (Nat.eqb (length (c0 :: rest)) 1).
  - eexists _, _. split; [done|]. split; [by exists c0|done].
  - cbn [aiChunks setActivityLog].
    destruct (aiChunks db !! queryId); eexists _, _; (split; [done|]).
    + split; [done|]. done.
    + split; [by exists c0|]. intros Hdb. by apply map_Forall_insert_2.
Qed.

(** X19: [continueAIQuery] and [cleanupExpiredChunks] keep the bound: if
    every stored chunk has at most [size] characters, a continuation
    answers with a chunk of at most [size] characters or with an error,
    and the stored chunks are within [size] afterwards. *)
Theorem continueAIQuery_within (size : nat) (db : Db) (cursor_ : jsstring) (now : Z) :
  chunksWithin size db ->
  carriesChunk size (continueAIQuery db cursor_ now).1
  /\ chunksWithin size (continueAIQuery db cursor_ now).2
  /\ chunksWithin size (cleanupExpiredChunks db now).2.
Proof.
  intros Hdb. split; [|split].
  - unfold continueAIQuery.
    destruct (aiChunks db !! cursor_) as [row|] eqn:Hrow; [|done].
    destruct (expiresAt row <? now)%Z; [done|]. cbv zeta.
    destruct (Nat.leb_spec (length (chunks row)) (cursor row)) as [|Hin].
    { exists []. split; [done|]. cbn [length]. lia. }
    cbn [fst chunk].
    destruct (lookup_lt_is_Some_2 (chunks row) (cursor row) Hin) as [c Hc].
    exists c. split; [done|].
    specialize (Hdb cursor_ row Hrow). cbn beta in Hdb.
    rewrite Forall_forall in Hdb. apply Hdb. by eapply list_elem_of_lookup_2.
  - unfold continueAIQuery.
    destruct (aiChunks db !! cursor_) as [row|] eqn:Hrow; [|done].
    destruct (expiresAt row <? now)%Z; [by apply chunksWithin_delete|]. cbv zeta.
    destruct (Nat.leb (length (chunks row)) (cursor row));
      [by apply chunksWithin_delete|].
    cbn [snd]. destruct (Nat.ltb (cursor row + 1) (length (chunks row)));
      [|by apply chunksWithin_delete].
    apply chunksWithin_insert; [done|]. exact (Hdb cursor_ row Hrow).
  - unfold cleanupExpiredChunks, chunksWithin. cbn [snd aiChunks setAiChunks].
    intros q row [Hrow _]%map_lookup_filter_Some. exact (Hdb q row Hrow).
Qed.

Lemma continueAIQuery_within_witness :
  carriesChunk 5
    (continueAIQuery
       (mkDb ∅ ∅ {[ js "q" := mkAIChunk (js "dev") [js "one"; js "two"; js "three"] 0 100 ]})
       (js "q") 10).1
  /\ chunksWithin 5
       (continueAIQuery
          (mkDb ∅ ∅ {[ js "q" := mkAIChunk (js "dev") [js "one"; js "two"; js "three"] 0 100 ]})
          (js "q") 10).2
  /\ chunksWithin 5
       (cleanupExpiredChunks
          (mkDb ∅ ∅ {[ js "q" := mkAIChunk (js "dev") [js "one"; js "two"; js "three"] 0 100 ]})
          10).2.
Proof.
  apply continueAIQuery_within.
  apply map_Forall_singleton. repeat constructor; simpl; lia.
Defined.

(** ** Runs of a quantifier *)

(** A lazy quantifier goes on as long as what follows fails: it stops
    after the run [t] when what follows fails at every position inside
    [t] and succeeds after it. *)
Lemma rrep_lazy_run {A} p (k : @cont A) cap x rest : forall t count prev n,
  Forall (fun c => p c = true) t ->
  (forall t1 c t2 prev' n', t = t1 ++ c :: t2 ->
                            k prev' (c :: t2 ++ rest) n' cap = None) ->
  (forall prev', k prev' rest (n + length t)%nat cap = Some x) ->
  rrep false 0 None p k cap count prev (t ++ rest) n = Some x.
Proof.
  induction t as [|c t IH]; intros count prev n Hp Hfail Hk.
  - cbn [app length] in *. rewrite Nat.add_0_r in Hk.
    destruct rest; cbn [rrep Nat.leb]; by rewrite Hk.
  - apply Forall_cons in Hp as [Hc Hp]. cbn [app rrep Nat.leb].
    rewrite (Hfail [] c t prev n eq_refl), Hc. cbn [andb belowMax].
    apply IH; [done| |].
    + intros t1 c' t2 prev' n' ->. by apply (Hfail (c :: t1) c' t2).
    + intros prev'. cbn [length] in Hk. by rewrite Nat.add_succ_comm.
Qed.

(** A greedy quantifier takes the whole run [t] when no character of the
    class follows it and what follows the pattern succeeds there. *)
Lemma rrep_greedy_run {A} lo hi p (k : @cont A) cap x rest : forall t count prev n,
  Forall (fun c => p c = true) t ->
  startsWith p rest = false ->
  (lo <= count + length t)%nat ->
  (forall i, (i < length t)%nat -> belowMax hi (count + i) = true) ->
  (forall prev', k prev' rest (n + length t)%nat cap = Some x) ->
  rrep true lo hi p k cap count prev (t ++ rest) n = Some x.
Proof.
  induction t as [|c t IH]; intros count prev n Hp Hrest Hlo Hhi Hk.
  - cbn [app length] in *. rewrite Nat.add_0_r in Hk, Hlo.
    destruct rest as [|r rest]; cbn [rrep].
    + by rewrite (proj2 (Nat.leb_le _ _) Hlo), Hk.
    + cbn [startsWith] in Hrest. rewrite Hrest. cbn [andb].
      by rewrite (proj2 (Nat.leb_le _ _) Hlo), Hk.
  - apply Forall_cons in Hp as [Hc Hp]. cbn [app rrep].
    rewrite Hc, <- (Nat.add_0_r count), (Hhi 0%nat) by (simpl; lia).
    cbn [andb]. rewrite Nat.add_0_r. rewrite IH; [done..| | |].
    + cbn [length] in Hlo. lia.
    + intros i Hi. rewrite Nat.add_succ_comm. apply Hhi. cbn [length]. lia.
    + intros prev'. cbn [length] in Hk. by rewrite Nat.add_succ_comm.
Qed.

(** ** Fenced code blocks *)

Lemma anyChar_true c : anyChar c = true.
Proof. unfold anyChar. by destruct (isWhiteSpace c). Qed.

Lemma matchHere_fenced prev body :
  occursIn (ch "`") body = false ->
  matchHere fencedCodePattern prev (ticks ++ body ++ ticks)
  = Some ((length body + 6)%nat, None).
Proof.
  intros Hb. unfold matchHere, ticks.
  cbn [fencedCodePattern reG source multiline rseq rmatch fence lazyStar app].
  rewrite !N.eqb_refl.
  apply rrep_lazy_run.
  - apply Forall_forall. intros c _. apply anyChar_true.
  - intros t1 c t2 prev' n' ->. apply occursIn_false in Hb.
    destruct (N.eqb_spec c (ch "`")) as [->|]; [|done].
    exfalso. apply Hb. apply elem_of_app. right. apply elem_of_cons. by left.
  - intros prev'. rewrite !N.eqb_refl. do 2 f_equal. lia.
Qed.

(** A block that is the whole text is replaced by its lines without the
    first and the last. *)
Lemma stripFence body :
  occursIn (ch "`") body = false ->
  replaceWith fencedCodePattern
    (fun m _ => join [LF] (slice_1_m1 (split LF m)))
    (ticks ++ body ++ ticks)
  = join [LF] (slice_1_m1 (split LF (ticks ++ body ++ ticks))).
Proof.
  intros Hb. unfold replaceWith.
  assert (Hlen : length (ticks ++ body ++ ticks) = (length body + 6)%nat)
    by (rewrite !length_app; cbn [ticks length]; lia).
  destruct (replaceGo_match fencedCodePattern
              (fun m _ => join [LF] (slice_1_m1 (split LF m)))
              None (ticks ++ body ++ ticks) (length body + 6) None)
    as (prev' & ->); [done|by apply matchHere_fenced|lia|].
  rewrite firstn_all2, skipn_all2 by lia.
  cbn [replaceGo]. change (matchHere fencedCodePattern prev' []) with
    (@None (nat * option jsstring)). by rewrite app_nil_r.
Qed.

Lemma inlineCode_absent s :
  occursIn (ch "`") s = false -> replace inlineCodePattern (js "$1") s = s.
Proof.
  intros Hs. apply replace_no_match, (hasMatch_needs (isChar "`")).
  - cbn. left. reflexivity.
  - apply Forall_forall. intros c Hc. apply occursIn_false in Hs.
    unfold isChar. apply N.eqb_neq. intros ->. done.
Qed.

Lemma split_app (sep : char) (a b : jsstring) :
  split sep (a ++ sep :: b) = split sep a ++ split sep b.
Proof.
  induction a as [|c a IH]; cbn [app split].
  - by rewrite N.eqb_refl.
  - destruct (c =? sep); [by rewrite IH|].
    rewrite IH. pose proof (split_not_nil sep a). by destruct (split sep a).
Qed.

Lemma slice_1_m1_inner {A} (x y : A) (l : list A) : slice_1_m1 (x :: l ++ [y]) = l.
Proof.
  unfold slice_1_m1.
  assert (length (x :: l ++ [y]) - 2 = length l)%nat as ->
    by (cbn [length]; rewrite length_app; cbn [length]; lia).
  cbn [drop]. rewrite drop_0. by rewrite take_app_length.
Qed.

Lemma occursIn_app c a b : occursIn c (a ++ b) = occursIn c a || occursIn c b.
Proof. apply existsb_app. Qed.

(** X20: a fenced block is replaced by its lines without the first and
    the last.  What stands on the line of the opening fence (the
    language tag) and on the line of the closing fence is dropped: a
    block whose fences are on lines of their own leaves its code; a block
    written on one line or on two leaves nothing. *)
Theorem stripCodeBlocks_fence_lines (first middle last : jsstring) :
  occursIn (ch "`") (first ++ middle ++ last) = false ->
  noLF first = true -> noLF last = true ->
  stripCodeBlocks (ticks ++ first ++ [LF] ++ middle ++ [LF] ++ last ++ ticks) = middle
  /\ stripCodeBlocks (ticks ++ first ++ [LF] ++ last ++ ticks) = []
  /\ stripCodeBlocks (ticks ++ first ++ last ++ ticks) = [].
Proof.
  intros Hb Hfirst Hlast. rewrite !occursIn_app in Hb.
  apply orb_false_elim in Hb as [Hb1 Hb]. apply orb_false_elim in Hb as [Hb2 Hb3].
  assert (Hhead : noLF (ticks ++ first) = true) by (by rewrite noLF_app, Hfirst).
  assert (Htail : noLF (last ++ ticks) = true)
    by (by rewrite noLF_app, Hlast).
  unfold stripCodeBlocks. cbv zeta. split; [|split].
  - replace (ticks ++ first ++ [LF] ++ middle ++ [LF] ++ last ++ ticks)
      with (ticks ++ (first ++ [LF] ++ middle ++ [LF] ++ last) ++ ticks)
      by (by rewrite <- !app_assoc).
    rewrite stripFence by (by rewrite !occursIn_app, Hb1, Hb2, Hb3).
    replace (ticks ++ (first ++ [LF] ++ middle ++ [LF] ++ last) ++ ticks)
      with ((ticks ++ first) ++ LF :: middle ++ LF :: (last ++ ticks))
      by (by rewrite <- !app_assoc).
    rewrite split_app_LF, split_app, (split_noLF_id (last ++ ticks)) by done.
    rewrite slice_1_m1_inner, join_split. by apply inlineCode_absent.
  - replace (ticks ++ first ++ [LF] ++ last ++ ticks)
      with (ticks ++ (first ++ [LF] ++ last) ++ ticks)
      by (by rewrite <- !app_assoc).
    rewrite stripFence by (by rewrite !occursIn_app, Hb1, Hb3).
    replace (ticks ++ (first ++ [LF] ++ last) ++ ticks)
      with ((ticks ++ first) ++ LF :: (last ++ ticks))
      by (by rewrite <- !app_assoc).
    by rewrite split_app_LF, (split_noLF_id (last ++ ticks)) by done.
  - replace (ticks ++ first ++ last ++ ticks)
      with (ticks ++ (first ++ last) ++ ticks)
      by (by rewrite <- !app_assoc).
    rewrite stripFence by (by rewrite !occursIn_app, Hb1, Hb3).
    rewrite split_noLF_id; [done|].
    by rewrite !noLF_app, Hfirst, Hlast.
Qed.

Lemma stripCodeBlocks_fence_lines_witness :
  stripCodeBlocks (ticks ++ js "js" ++ [LF] ++ (js "let x = 1;" ++ [LF] ++ js "x + 1")
                     ++ [LF] ++ [] ++ ticks)
  = js "let x = 1;" ++ [LF] ++ js "x + 1"
  /\ stripCodeBlocks (ticks ++ js "js" ++ [LF] ++ [] ++ ticks) = []
  /\ stripCodeBlocks (ticks ++ js "js" ++ [] ++ ticks) = [].
Proof. apply stripCodeBlocks_fence_lines; reflexivity. Defined.

(** ** Headings and emphasis *)

Lemma replaceAll_app a b s : replaceAll (a ++ b) s = replaceAll b (replaceAll a s).
Proof. apply fold_left_app. Qed.

Lemma replaceAll_absent Q table s :
  Forall (fun r => needs Q (source r)) (map fst table) ->
  Forall (fun c => Q c = false) s ->
  replaceAll table s = s.
Proof.
  intros Hneeds Hs. apply replaceAll_no_match, forallb_forall.
  intros r Hr%list_elem_of_In. rewrite Forall_forall in Hneeds.
  apply negb_true_iff, (hasMatch_needs Q); auto.
Qed.

Lemma stripCodeBlocks_absent s :
  occursIn (ch "`") s = false -> stripCodeBlocks s = s.
Proof.
  intros Hs.
  assert (Hq : Forall (fun c => isChar "`" c = false) s).
  { apply Forall_forall. intros c Hc. apply occursIn_false in Hs.
    unfold isChar. apply N.eqb_neq. by intros ->. }
  apply stripCodeBlocks_plain; apply (hasMatch_needs (isChar "`")); try done.
  - cbn. do 2 left. reflexivity.
  - cbn. left. reflexivity.
Qed.

(** The stages after [stripMarkdown] leave plain text alone. *)
Lemma sanitize_after_markdown s t :
  stripMarkdown (stripCodeBlocks s) = t -> plainText t = true ->
  sanitizeAIResponse s = t.
Proof.
  intros Hmd. unfold plainText, markupPatterns.
  intros [[Hmarkup Htable]%andb_prop Hws]%andb_prop.
  rewrite !forallb_app in Hmarkup.
  apply andb_prop in Hmarkup as [_ [_ Hmath]%andb_prop].
  unfold sanitizeAIResponse. cbv zeta. rewrite Hmd.
  unfold convertMathSymbols. rewrite (replaceAll_no_match replacements t Hmath).
  rewrite convertTables_plain by done.
  by apply normalizeWhitespace_plain.
Qed.

(** The patterns of [stripMarkdown] from the [i]-th on leave prose
    alone. *)
Lemma markdown_rest_prose i t :
  Forall (fun c => isProseChar c = true) t ->
  replaceAll (drop i markdownPatterns) t = t.
Proof.
  intros Hprose. apply (replaceAll_absent notProseChar).
  - pose proof markup_needs as Hall. unfold markupPatterns in Hall.
    apply Forall_app in Hall as [_ Hall]. apply Forall_app in Hall as [Hall _].
    rewrite fmap_drop. by apply Forall_drop.
  - eapply Forall_impl; [exact Hprose|]. intros c Hc. unfold notProseChar.
    by rewrite Hc.
Qed.

Lemma prose_occursIn c t :
  isProseChar c = false -> Forall (fun c => isProseChar c = true) t ->
  occursIn c t = false.
Proof.
  intros Hc Ht. apply occursIn_false. intros Hin.
  rewrite Forall_forall in Ht. specialize (Ht c Hin). congruence.
Qed.

Lemma lead_headWS t : headWS t = false -> lead isWhiteSpace t = 0%nat.
Proof. destruct t as [|c t]; [done|]. cbn [headWS lead]. by intros ->. Qed.

Lemma replaceGo_nil r f prev :
  matchHere r prev [] = None -> replaceGo r f prev [] 0 = [].
Proof. intros H. cbn [replaceGo]. by rewrite H. Qed.

Lemma heading_stripped (level : nat) (t : jsstring) :
  (1 <= level <= 6)%nat -> headWS t = false -> occursIn (ch "#") t = false ->
  replace (reGM (rseq [RBol; RRep true 1 (Some 6%nat) (isChar "#"); plus isWhiteSpace]))
    (js "") (repeat (ch "#") level ++ SPACE :: t)
  = t.
Proof.
  intros Hlevel Hhead Hhash.
  set (r := reGM _). unfold replace, replaceWith.
  assert (Hm : matchHere r None (repeat (ch "#") level ++ SPACE :: t)
               = Some (S level, None)).
  { unfold matchHere, r. cbn [reGM source multiline rseq rmatch atBol plus].
    apply rrep_greedy_run.
    - apply Forall_forall. intros c ->%list_elem_of_In%repeat_spec. reflexivity.
    - reflexivity.
    - rewrite repeat_length. lia.
    - intros i. rewrite repeat_length. cbn [belowMax]. intros Hi.
      apply Nat.ltb_lt. lia.
    - intros prev'. rewrite rrep_greedy_end. cbn [lead].
      change (isWhiteSpace SPACE) with true. cbn iota.
      rewrite (lead_headWS t Hhead), repeat_length. cbn [Nat.add Nat.leb].
      do 2 f_equal. lia. }
  destruct (replaceGo_match r (expand (js "")) None _ _ _ eq_refl Hm) as (prev' & ->).
  { rewrite length_app, repeat_length. cbn [length]. lia. }
  replace (drop (S level) (repeat (ch "#") level ++ SPACE :: t)) with t.
  - cbn [js list_ascii_of_string map expand app].
    apply (replaceGo_no_match r _ t prev' 0), (search_needs (isChar "#")).
    + unfold r. cbn [reGM source rseq needs]. right. left. split; [lia|auto].
    + apply Forall_forall. intros c Hc. apply occursIn_false in Hhash.
      unfold isChar. apply N.eqb_neq. by intros ->.
  - rewrite drop_app_ge by (rewrite repeat_length; lia).
    rewrite repeat_length. by replace (S level - level)%nat with 1%nat by lia.
Qed.

(** [stripMarkdown] when the [i]-th pattern is the first that finds
    something and leaves prose. *)
Lemma stripMarkdown_at (i : nat) r tpl Q s t :
  drop i markdownPatterns = (r, tpl) :: drop (S i) markdownPatterns ->
  Forall (fun r => needs Q (source r)) (map fst (take i markdownPatterns)) ->
  Forall (fun c => Q c = false) s ->
  replace r tpl s = t ->
  Forall (fun c => isProseChar c = true) t ->
  stripMarkdown s = t.
Proof.
  intros Hi Hbefore Hs Hr Ht. unfold stripMarkdown.
  rewrite <- (take_drop i markdownPatterns), replaceAll_app.
  rewrite (replaceAll_absent Q (take i markdownPatterns) s) by done.
  rewrite Hi. change (replaceAll ((r, tpl) :: ?l) s) with (replaceAll l (replace r tpl s)).
  rewrite Hr. by apply markdown_rest_prose.
Qed.

Lemma occursIn_repeat c d n : c <> d -> occursIn c (repeat d n) = false.
Proof.
  intros Hcd. apply occursIn_false. intros ->%list_elem_of_In%repeat_spec. done.
Qed.

(** X21: a heading of prose loses its marker: one to six hash signs and
    a space before a text of prose are removed, and nothing else. *)
Theorem sanitizeAIResponse_heading (level : nat) (t : jsstring) :
  (1 <= level <= 6)%nat ->
  Forall (fun c => isProseChar c = true) t ->
  noDoubleSpace t = true -> edgeClean t = true ->
  sanitizeAIResponse (repeat (ch "#") level ++ SPACE :: t) = t.
Proof.
  intros Hlevel Hprose Hsp Hedge.
  apply sanitize_after_markdown; [|by apply prose_plainText].
  rewrite stripCodeBlocks_absent.
  2:{ rewrite occursIn_app, occursIn_repeat by done. cbn [occursIn existsb orb].
      change (SPACE =? ch "`") with false. by apply prose_occursIn. }
  eapply (stripMarkdown_at 0 _ _ (fun _ => false)); [reflexivity|constructor| | |done].
  - by apply Forall_forall.
  - apply heading_stripped; [done| |by apply prose_occursIn].
    unfold edgeClean in Hedge. apply andb_prop in Hedge as [Hh _].
    by apply negb_true_iff.
Qed.

Lemma sanitizeAIResponse_heading_witness :
  sanitizeAIResponse (repeat (ch "#") 2 ++ SPACE :: js "Results (first run)")
  = js "Results (first run)".
Proof.
  apply sanitizeAIResponse_heading; [lia| |reflexivity..].
  repeat (apply Forall_cons; split; [reflexivity|]). by apply Forall_nil.
Defined.

Lemma matchHere_nil_delimited (a : ascii) prev :
  matchHere (delimited [RChar (ch a); RChar (ch a)] a) prev [] = None.
Proof. reflexivity. Qed.

Lemma emphasis_stripped (a : ascii) (t : jsstring) :
  t <> [] -> occursIn (ch a) t = false ->
  replace (delimited [RChar (ch a); RChar (ch a)] a) (js "$1")
    ([ch a; ch a] ++ t ++ [ch a; ch a])
  = t.
Proof.
  intros Hne Ht.
  set (r := delimited _ _). unfold replace, replaceWith.
  assert (Hlen : length ([ch a; ch a] ++ t ++ [ch a; ch a]) = (length t + 4)%nat)
    by (rewrite !length_app; cbn [length]; lia).
  assert (Hm : matchHere r None ([ch a; ch a] ++ t ++ [ch a; ch a])
               = Some ((length t + 4)%nat, Some t)).
  { unfold matchHere, r.
    cbn [delimited reG source multiline rseq app rmatch plus].
    rewrite !N.eqb_refl.
    apply rrep_greedy_run.
    - apply Forall_forall. intros c Hc. apply occursIn_false in Ht.
      apply negb_true_iff, N.eqb_neq. by intros ->.
    - cbn [startsWith]. by rewrite N.eqb_refl.
    - destruct t; [done|]. cbn [length]. lia.
    - done.
    - intros prev'. rewrite !N.eqb_refl. f_equal. f_equal; [lia|].
      f_equal. replace (2 + length t - 2)%nat with (length t) by lia.
      by rewrite take_app_length. }
  destruct (replaceGo_match r (expand (js "$1")) None _ _ _ eq_refl Hm) as (prev' & ->);
    [lia|].
  rewrite skipn_all2 by lia.
  rewrite replaceGo_nil by apply matchHere_nil_delimited.
  cbn. by rewrite !app_nil_r.
Qed.

Lemma emphasis_text (a : ascii) (t : jsstring) :
  Forall (fun c => isProseChar c = true) t ->
  Forall (fun c => otherMarkup a c = false) ([ch a; ch a] ++ t ++ [ch a; ch a]).
Proof.
  intros Hprose.
  assert (Ha : otherMarkup a (ch a) = false)
    by (unfold otherMarkup; by rewrite N.eqb_refl, andb_false_r).
  repeat (apply Forall_cons; split; [done|]). apply Forall_app. split.
  - eapply Forall_impl; [exact Hprose|]. intros c Hc. unfold otherMarkup, notProseChar.
    by rewrite Hc.
  - by repeat constructor.
Qed.

Ltac before_tac :=
  unfold markdownPatterns, delimited;
  cbn [take map fst app rseq source reG reGM plus star lazyStar];
  repeat (apply Forall_cons; split; [visible_tac|]);
  apply Forall_nil; exact I.

(** X22: emphasis around prose is unwrapped: a text of prose between two
    asterisks, two underscores or two tildes on each side comes out
    without them. *)
Theorem sanitizeAIResponse_emphasis (a : ascii) (t : jsstring) :
  (a = "*" \/ a = "_" \/ a = "~")%char ->
  t <> [] ->
  Forall (fun c => isProseChar c = true) t ->
  noDoubleSpace t = true -> edgeClean t = true ->
  sanitizeAIResponse ([ch a; ch a] ++ t ++ [ch a; ch a]) = t.
Proof.
  intros Ha Hne Hprose Hsp Hedge.
  apply sanitize_after_markdown; [|by apply prose_plainText].
  assert (Htick : occursIn (ch "`") t = false) by (by apply prose_occursIn).
  assert (Hstrip : replace (delimited [RChar (ch a); RChar (ch a)] a) (js "$1")
                     ([ch a; ch a] ++ t ++ [ch a; ch a]) = t).
  { apply emphasis_stripped; [done|].
    destruct Ha as [->|[->| ->]]; by apply prose_occursIn. }
  pose proof (emphasis_text a t Hprose) as Htext.
  rewrite stripCodeBlocks_absent.
  2:{ rewrite !occursIn_app, Htick. by destruct Ha as [->|[->| ->]]. }
  destruct Ha as [->|[->| ->]].
  - eapply (stripMarkdown_at 1 _ _ (otherMarkup "*") _ t);
      [reflexivity|before_tac|done|exact Hstrip|done].
  - eapply (stripMarkdown_at 2 _ _ (otherMarkup "_") _ t);
      [reflexivity|before_tac|done|exact Hstrip|done].
  - eapply (stripMarkdown_at 5 _ _ (otherMarkup "~") _ t);
      [reflexivity|before_tac|done|exact Hstrip|done].
Qed.

Lemma sanitizeAIResponse_emphasis_witness :
  sanitizeAIResponse ([ch "~"; ch "~"] ++ js "not this one" ++ [ch "~"; ch "~"])
  = js "not this one".
Proof.
  apply sanitizeAIResponse_emphasis; [auto|done| |reflexivity..].
  repeat (apply Forall_cons; split; [reflexivity|]). by apply Forall_nil.
Defined.

(** ** Table rows *)

(** A quantifier fails when what follows fails after every run of the
    class at the start of the input. *)
Lemma rrep_fails_run {A} g lo hi p (k : @cont A) cap : forall s count prev n,
  (forall pre s' prev' n', s = pre ++ s' -> Forall (fun c => p c = true) pre ->
                           k prev' s' n' cap = None) ->
  rrep g lo hi p k cap count prev s n = None.
Proof.
  induction s as [|c s IH]; intros count prev n Hk; cbn [rrep].
  - rewrite (Hk [] [] prev n) by done. by destruct g, (Nat.leb lo count).
  - rewrite (Hk [] (c :: s) prev n) by done.
    destruct (p c) eqn:Hc; cbn [andb].
    + rewrite IH.
      * by destruct g, (Nat.leb lo count), (belowMax hi count).
      * intros pre s' prev' n' -> Hpre. apply (Hk (c :: pre)); [done|].
        by constructor.
    + by destruct g, (Nat.leb lo count).
Qed.

(** A greedy quantifier whose class holds the last character of the
    input gives it back when what follows needs it. *)
Lemma rrep_greedy_back {A} lo p (k : @cont A) cap x c : forall t count prev n,
  Forall (fun c => p c = true) t -> p c = true ->
  (lo <= count + length t)%nat ->
  (forall prev' n', k prev' [] n' cap = None) ->
  (forall prev', k prev' [c] (n + length t)%nat cap = Some x) ->
  rrep true lo None p k cap count prev (t ++ [c]) n = Some x.
Proof.
  induction t as [|a t IH]; intros count prev n Ht Hc Hlo Hnil Hk.
  - cbn [app length] in *. rewrite Nat.add_0_r in Hk, Hlo.
    cbn [rrep]. rewrite Hc, Hnil. cbn [andb belowMax].
    rewrite (proj2 (Nat.leb_le _ _) Hlo), Hk.
    by destruct (Nat.leb lo (S count)).
  - apply Forall_cons in Ht as [Ha Ht]. cbn [app rrep]. rewrite Ha.
    cbn [andb belowMax]. rewrite IH; [done..| | |].
    + cbn [length] in Hlo. lia.
    + done.
    + intros prev'. cbn [length] in Hk. by rewrite Nat.add_succ_comm.
Qed.

Lemma rowOf_length body : length (rowOf body) = (length body + 2)%nat.
Proof. unfold rowOf. cbn [length]. rewrite length_app. cbn [length]. lia. Qed.

Lemma rowOf_trim body : trim (rowOf body) = rowOf body.
Proof.
  apply trim_id. unfold edgeClean, lastWS, rowOf.
  cbn [headWS rev]. rewrite rev_app_distr. reflexivity.
Qed.

Lemma separator_later c s i : search separatorPattern (Some c) s i = None.
Proof.
  revert c i. induction s as [|x s IH]; intros c i; cbn [search];
    unfold matchHere; cbn [separatorPattern rePlain source multiline rseq rmatch atBol andb];
    [done|apply IH].
Qed.

Lemma rowOf_not_separator body :
  forallb (oneOf ["-"; ":"; "|"; " "]%char) body = false ->
  fst (test separatorPattern (trim (rowOf body)) 0) = false.
Proof.
  intros Hbody. rewrite rowOf_trim. unfold test, exec.
  cbn [separatorPattern rePlain global]. fold separatorPattern.
  change (Nat.ltb (length (rowOf body)) 0) with false. cbn iota.
  rewrite take_0, drop_0. cbn [last]. unfold rowOf. cbn [search].
  rewrite separator_later.
  assert (matchHere separatorPattern None (bar :: body ++ [bar]) = None) as ->; [|done].
  unfold matchHere.
  cbn [separatorPattern rePlain source multiline rseq rmatch atBol plus].
  change (bar =? ch "|") with true. cbn iota.
  apply rrep_fails_run. intros pre s' prev' n' Heq Hpre.
  destruct s' as [|x s']; [done|]. destruct (x =? ch "|") eqn:Hx; [|done].
  destruct s' as [|y s']; [|done]. exfalso.
  apply app_inj_tail in Heq as [<- _].
  apply (f_equal negb) in Hbody. cbn [negb] in Hbody.
  apply not_true_iff_false in Hbody; [done|]. apply negb_false_iff, forallb_forall.
  rewrite Forall_forall in Hpre. intros c Hc%list_elem_of_In. by apply Hpre.
Qed.

Lemma rowOf_is_row body :
  body <> [] -> forallb dot body = true ->
  test tablePattern (rowOf body) 0 = (true, length (rowOf body)).
Proof.
  intros Hne Hdot. unfold test, exec. cbn [tablePattern reG global].
  fold tablePattern.
  change (Nat.ltb (length (rowOf body)) 0) with false. cbn iota.
  rewrite take_0, drop_0. cbn [last]. unfold rowOf at 1. cbn [search].
  assert (matchHere tablePattern None (bar :: body ++ [bar])
          = Some ((length body + 2)%nat, Some body)) as ->.
  { unfold matchHere.
    cbn [tablePattern reG source multiline rseq rmatch plus].
    change (bar =? ch "|") with true. cbn iota.
    apply rrep_greedy_back.
    - apply Forall_forall. intros c Hc%list_elem_of_In.
      rewrite forallb_forall in Hdot. by apply Hdot.
    - reflexivity.
    - destruct body; [done|]. cbn [length]. lia.
    - done.
    - intros prev'. change (bar =? ch "|") with true. cbn iota.
      f_equal. f_equal; [lia|]. f_equal.
      replace (1 + length body - 1)%nat with (length body) by lia.
      by rewrite take_app_length. }
  by rewrite rowOf_length.
Qed.

(** After a row the search in a line that is not longer starts at or
    after its end and finds nothing. *)
Lemma not_row_after (line : jsstring) (lastIndex : nat) :
  (length line <= lastIndex)%nat ->
  test tablePattern line lastIndex = (false, 0%nat).
Proof.
  intros Hlen. unfold test, exec. cbn [tablePattern reG global]. fold tablePattern.
  destruct (Nat.ltb_spec (length line) lastIndex) as [|Hge]; [done|].
  rewrite drop_ge by lia. reflexivity.
Qed.

Lemma dot_noLF body : forallb dot body = true -> noLF body = true.
Proof.
  intros Hdot. apply forallb_forall. intros c Hc.
  rewrite forallb_forall in Hdot. specialize (Hdot c Hc).
  destruct (N.eqb_spec c LF) as [->|]; [discriminate|done].
Qed.

(** X23: the test for a table row keeps its position from one line to
    the next.  After a row that was rewritten, a line that is not longer
    than that row is left as it is, whether it is a row or not, and also
    when a separator line stands between the two. *)
Theorem convertTables_skips_next_row (body sep next : jsstring) :
  body <> [] -> forallb dot body = true ->
  forallb (oneOf ["-"; ":"; "|"; " "]%char) body = false ->
  noLF sep = true -> fst (test separatorPattern (trim sep) 0) = true ->
  noLF next = true -> fst (test separatorPattern (trim next) 0) = false ->
  (length next <= length (rowOf body))%nat ->
  convertTables (rowOf body ++ LF :: next) = cellsOf (rowOf body) ++ LF :: next
  /\ convertTables (rowOf body ++ LF :: sep ++ LF :: next)
     = cellsOf (rowOf body) ++ LF :: next.
Proof.
  intros Hne Hdot Hbody Hsep1 Hsep2 Hnext1 Hnext2 Hlen.
  assert (Hrow : noLF (rowOf body) = true).
  { unfold rowOf. cbn [noLF forallb]. fold (noLF (body ++ [bar])).
    by rewrite noLF_app, (dot_noLF body Hdot). }
  unfold convertTables. cbv zeta. split.
  - rewrite split_app_LF, (split_noLF_id next) by done.
    cbn [convertTablesLoop].
    rewrite (rowOf_not_separator body Hbody), (rowOf_is_row body Hne Hdot), Hnext2.
    by rewrite (not_row_after next _ Hlen).
  - rewrite split_app_LF, split_app_LF, (split_noLF_id next) by done.
    cbn [convertTablesLoop].
    rewrite (rowOf_not_separator body Hbody), (rowOf_is_row body Hne Hdot), Hsep2, Hnext2.
    by rewrite (not_row_after next _ Hlen).
Qed.

Lemma convertTables_skips_next_row_witness :
  convertTables (rowOf (js " a | b ") ++ LF :: js "| c | d |")
  = cellsOf (rowOf (js " a | b ")) ++ LF :: js "| c | d |"
  /\ convertTables (rowOf (js " a | b ") ++ LF :: js "|---|---|" ++ LF :: js "| c | d |")
     = cellsOf (rowOf (js " a | b ")) ++ LF :: js "| c | d |".
Proof.
  apply convertTables_skips_next_row; try reflexivity. done.
Defined.

(** ** What a query leaves behind *)

(** X24: [processAIQuery] never touches the devices, writes the activity
    log of its own device only and the session of its own query id only;
    when it fails before the delivery (device, configuration, key or
    provider) it leaves the tables as they were, and the only failure
    after that is the unique constraint on the query id, which leaves the
    sessions as they were. *)
Theorem processAIQuery_frame
    (envKey : AIProvider -> option jsstring)
    (callAIProvider : jsstring -> AIProviderConfig -> option jsstring)
    (db : Db) (deviceDbId prompt queryId : jsstring) (now : Z)
    (r : error + AIQueryResponse) (db' : Db) :
  processAIQuery envKey callAIProvider db deviceDbId prompt queryId now = Some (r, db') ->
  devices db' = devices db
  /\ (forall d, d <> deviceDbId -> activityLog db' !! d = activityLog db !! d)
  /\ (forall q, q <> queryId -> aiChunks db' !! q = aiChunks db !! q)
  /\ (forall e, r = inl e ->
        aiChunks db' = aiChunks db
        /\ (e <> UniqueConstraintError ->
            db' = db /\ generate envKey callAIProvider db deviceDbId prompt = inl e)
        /\ (e = UniqueConstraintError -> is_Some (aiChunks db !! queryId))).
Proof.
  unfold processAIQuery, processAIQueryWith.
  destruct (generate _ _ _ _ _) as [e|rawResponse] eqn:Hgen.
  { intros [= <- <-]. split; [done|]. split; [done|]. split; [done|].
    intros e' [= <-]. split; [done|]. split; [done|].
    intros ->. unfold generate in Hgen.
    repeat match type of Hgen with
           | context [match ?x with _ => _ end] => destruct x
           end; discriminate. }
  cbn [checkContentPolicy safe negb]. unfold deliver.
  destruct (chunkResponse _ _) as [chunks|]; [|done]. cbv zeta.
  destruct (Nat.eqb (length chunks) 1).
  { intros [= <- <-]. unfold setActivityLog. cbn [devices activityLog aiChunks].
    split; [done|]. split; [|done].
    intros d Hd. by rewrite lookup_insert_ne. }
  unfold setActivityLog at 1. cbn [aiChunks].
  destruct (aiChunks db !! queryId) as [row|] eqn:Hrow.
  - intros [= <- <-]. unfold setActivityLog. cbn [devices activityLog aiChunks].
    split; [done|]. split; [|split; [done|]].
    + intros d Hd. by rewrite lookup_insert_ne.
    + intros e [= <-]. split; [done|]. split; [done|]. by intros _.
  - intros [= <- <-]. unfold setAiChunks, setActivityLog.
    cbn [devices activityLog aiChunks].
    split; [done|]. split; [|split; [|done]].
    + intros d Hd. by rewrite lookup_insert_ne.
    + intros q Hq. by rewrite lookup_insert_ne.
Qed.

Lemma processAIQuery_frame_witness :
  devices Sample.db0 = devices Sample.db0
  /\ (forall d, d <> js "nobody" -> activityLog Sample.db0 !! d = activityLog Sample.db0 !! d)
  /\ (forall q, q <> js "query_00" -> aiChunks Sample.db0 !! q = aiChunks Sample.db0 !! q)
  /\ (forall e, @inl error AIQueryResponse (NotFoundError "Device not found") = inl e ->
        aiChunks Sample.db0 = aiChunks Sample.db0
        /\ (e <> UniqueConstraintError ->
            Sample.db0 = Sample.db0
            /\ generate Sample.noEnvKey Sample.provider Sample.db0 (js "nobody") (js "why?")
               = inl e)
        /\ (e = UniqueConstraintError -> is_Some (aiChunks Sample.db0 !! js "query_00"))).
Proof.
  apply (processAIQuery_frame Sample.noEnvKey Sample.provider Sample.db0 (js "nobody")
           (js "why?") (js "query_00") 0).
  reflexivity.
Defined.

(** ** Versions *)

Lemma part_beyond (p : list Z) (i : nat) : (length p <= i)%nat -> part p i = 0%Z.
Proof. intros Hi. unfold part. by rewrite lookup_ge_None_2. Qed.

Lemma newerFrom_spec (p q : list Z) : forall steps i,
  newerFrom steps i p q = true
  <-> exists k, (i <= k < i + steps)%nat /\ (part q k < part p k)%Z
                /\ forall j, (i <= j < k)%nat -> part p j = part q j.
Proof.
  induction steps as [|steps IH]; intros i; cbn [newerFrom].
  { split; [done|]. intros (k & Hk & _). lia. }
  destruct (Z.ltb_spec (part q i) (part p i)) as [Hgt|Hle].
  { split; [|done]. intros _. exists i. split; [lia|]. split; [done|]. intros j. lia. }
  destruct (Z.ltb_spec (part p i) (part q i)) as [Hlt|Hge].
  { split; [done|]. intros (k & Hk & Hgt & Heq).
    destruct (decide (k = i)) as [->|Hne]; [lia|].
    specialize (Heq i ltac:(lia)). lia. }
  rewrite IH. split.
  - intros (k & Hk & Hgt & Heq). exists k. split; [lia|]. split; [done|].
    intros j Hj. destruct (decide (j = i)) as [->|]; [lia|]. apply Heq. lia.
  - intros (k & Hk & Hgt & Heq).
    destruct (decide (k = i)) as [->|Hne]; [lia|].
    exists k. split; [lia|]. split; [done|]. intros j Hj. apply Heq. lia.
Qed.

(** The loop decides the order of the parts. *)
Lemma newerParts_spec (p q : list Z) : newerParts p q = true <-> greaterParts p q.
Proof.
  unfold newerParts, greaterParts. rewrite newerFrom_spec. split.
  - intros (k & _ & Hgt & Heq). exists k. split; [done|]. intros j Hj. apply Heq. lia.
  - intros (k & Hgt & Heq). exists k. split; [|split; [done|]].
    + destruct (Nat.lt_ge_cases k (Nat.max (length p) (length q))) as [|Hge]; [lia|].
      rewrite !part_beyond in Hgt by lia. lia.
    + intros j Hj. apply Heq. lia.
Qed.

Lemma greaterParts_irrefl p : ~ greaterParts p p.
Proof. intros (i & Hgt & _). lia. Qed.

Lemma greaterParts_asym p q : greaterParts p q -> ~ greaterParts q p.
Proof.
  intros (i & Hi & Hbefore) (j & Hj & Hbefore').
  destruct (Nat.lt_trichotomy i j) as [Hlt|[->|Hlt]].
  - specialize (Hbefore' i Hlt). lia.
  - lia.
  - specialize (Hbefore j Hlt). lia.
Qed.

Lemma greaterParts_trans p q r : greaterParts p q -> greaterParts q r -> greaterParts p r.
Proof.
  intros (i & Hi & Hbefore) (j & Hj & Hbefore').
  destruct (Nat.lt_trichotomy i j) as [Hlt|[->|Hlt]].
  - exists i. split; [rewrite <- (Hbefore' i Hlt); lia|].
    intros k Hk. rewrite (Hbefore k Hk). apply Hbefore'. lia.
  - exists j. split; [lia|]. intros k Hk. rewrite (Hbefore k Hk). by apply Hbefore'.
  - exists j. split; [rewrite (Hbefore j Hlt); lia|].
    intros k Hk. rewrite (Hbefore k ltac:(lia)). by apply Hbefore'.
Qed.

Lemma isNewerVersion_parts a b p q :
  parseVersion a = Some p -> parseVersion b = Some q ->
  isNewerVersion a b = Some (newerParts p q).
Proof. intros Ha Hb. unfold isNewerVersion. by rewrite Ha, Hb. Qed.

Lemma newerParts_false p q : newerParts p q = false <-> ~ greaterParts p q.
Proof. rewrite <- newerParts_spec. by destruct (newerParts p q). Qed.

(** X25: for versions within the model, [isNewerVersion] compares the
    numbers between the dots from the left, a missing number counting as
    zero: the new version is newer exactly when, at the first position
    where the two differ, its number is the greater one. *)
Theorem isNewerVersion_first_difference (a b : jsstring) (p q : list Z) :
  parseVersion a = Some p -> parseVersion b = Some q ->
  exists newer, isNewerVersion a b = Some newer
                /\ (newer = true <-> greaterParts p q).
Proof.
  intros Ha Hb. exists (newerParts p q).
  split; [by apply isNewerVersion_parts|apply newerParts_spec].
Qed.

Lemma isNewerVersion_first_difference_witness :
  exists newer, isNewerVersion (js "1.10") (js "1.9.4") = Some newer
                /\ (newer = true <-> greaterParts [1; 10]%Z [1; 9; 4]%Z).
Proof. apply isNewerVersion_first_difference; reflexivity. Defined.

Lemma part_snoc_zero p i : part (p ++ [0%Z]) i = part p i.
Proof.
  unfold part. destruct (Nat.lt_ge_cases i (length p)) as [Hlt|Hge].
  - by rewrite lookup_app_l.
  - rewrite lookup_app_r, (lookup_ge_None_2 p) by done.
    by destruct (i - length p)%nat as [|[|n]].
Qed.

Lemma parseVersion_dot_zero a p :
  parseVersion a = Some p -> parseVersion (a ++ js ".0") = Some (p ++ [0%Z]).
Proof.
  unfold parseVersion. rewrite !mapM_Some. intros Hall.
  change (js ".0") with (ch "." :: js "0"). rewrite split_app.
  apply Forall2_app; [done|]. by repeat constructor.
Qed.

(** X26: on versions within the model [isNewerVersion] is a strict
    order: no version is newer than itself, of two versions at most one
    is newer than the other, and newer than newer is newer.  A further
    [.0] at the end of a version changes nothing. *)
Theorem isNewerVersion_strict_order (a b c : jsstring) (p q r : list Z) :
  parseVersion a = Some p -> parseVersion b = Some q -> parseVersion c = Some r ->
  isNewerVersion a a = Some false
  /\ (isNewerVersion a b = Some true -> isNewerVersion b a = Some false)
  /\ (isNewerVersion a b = Some true -> isNewerVersion b c = Some true ->
      isNewerVersion a c = Some true)
  /\ isNewerVersion (a ++ js ".0") b = isNewerVersion a b
  /\ isNewerVersion b (a ++ js ".0") = isNewerVersion b a.
Proof.
  intros Ha Hb Hc. pose proof (parseVersion_dot_zero a p Ha) as Ha0.
  rewrite (isNewerVersion_parts a a p p), (isNewerVersion_parts a b p q),
    (isNewerVersion_parts b a q p), (isNewerVersion_parts b c q r),
    (isNewerVersion_parts a c p r), (isNewerVersion_parts _ b _ q Ha0),
    (isNewerVersion_parts b _ q _ Hb Ha0) by done.
  split; [|split; [|split; [|split]]].
  - f_equal. apply newerParts_false, greaterParts_irrefl.
  - intros [= H%newerParts_spec]. f_equal.
    by apply newerParts_false, greaterParts_asym.
  - intros [= H1%newerParts_spec] [= H2%newerParts_spec]. f_equal.
    apply newerParts_spec. by eapply greaterParts_trans.
  - f_equal. apply eq_true_iff_eq. rewrite !newerParts_spec. unfold greaterParts.
    by setoid_rewrite part_snoc_zero.
  - f_equal. apply eq_true_iff_eq. rewrite !newerParts_spec. unfold greaterParts.
    by setoid_rewrite part_snoc_zero.
Qed.

Lemma isNewerVersion_strict_order_witness :
  isNewerVersion (js "2.0") (js "2.0") = Some false
  /\ (isNewerVersion (js "2.0") (js "1.9.9") = Some true ->
      isNewerVersion (js "1.9.9") (js "2.0") = Some false)
  /\ (isNewerVersion (js "2.0") (js "1.9.9") = Some true ->
      isNewerVersion (js "1.9.9") (js "1.9") = Some true ->
      isNewerVersion (js "2.0") (js "1.9") = Some true)
  /\ isNewerVersion (js "2.0" ++ js ".0") (js "1.9.9") = isNewerVersion (js "2.0") (js "1.9.9")
  /\ isNewerVersion (js "1.9.9") (js "2.0" ++ js ".0") = isNewerVersion (js "1.9.9") (js "2.0").
Proof.
  apply (isNewerVersion_strict_order _ _ _ [2; 0]%Z [1; 9; 9]%Z [1; 9]%Z); reflexivity.
Defined.

(** X27: [checkForUpdates] offers the firmware created last only when
    its version is newer than the one the device runs: never the version
    of the device itself, and never a version that the device's version
    is newer than. *)
Theorem checkForUpdates_only_newer (current : jsstring) (latest : Firmware)
    (response : UpdateCheckResponse) :
  checkForUpdates (Some current) (Some latest) = Some (inr response) ->
  available response = true ->
  version response = Some (fwVersion latest)
  /\ checksum response = Some (fwChecksum latest)
  /\ file_size response = Some (fwFileSize latest)
  /\ fwVersion latest <> current
  /\ isNewerVersion current (fwVersion latest) = Some false.
Proof.
  unfold checkForUpdates. intros Hcheck Havailable.
  destruct (isNewerVersion (fwVersion latest) current) as [newer|] eqn:Hnewer; [|done].
  cbn in Hcheck. destruct newer; injection Hcheck as <-; [|done].
  unfold isNewerVersion in Hnewer.
  destruct (parseVersion (fwVersion latest)) as [p|] eqn:Hp; [|done].
  destruct (parseVersion current) as [q|] eqn:Hq; [|done].
  cbn in Hnewer. injection Hnewer as Hnewer%newerParts_spec.
  repeat split.
  - intros Heq. rewrite Heq, Hq in Hp. injection Hp as ->.
    by apply greaterParts_irrefl in Hnewer.
  - rewrite (isNewerVersion_parts _ _ q p) by done. f_equal.
    by apply newerParts_false, greaterParts_asym.
Qed.

Lemma checkForUpdates_only_newer_witness :
  version (mkUpdateCheck true (Some (js "1.10.0")) (Some (js "c0ffee")) (Some 4096%Z))
  = Some (js "1.10.0")
  /\ checksum (mkUpdateCheck true (Some (js "1.10.0")) (Some (js "c0ffee")) (Some 4096%Z))
     = Some (js "c0ffee")
  /\ file_size (mkUpdateCheck true (Some (js "1.10.0")) (Some (js "c0ffee")) (Some 4096%Z))
     = Some 4096%Z
  /\ js "1.10.0" <> js "1.9.2"
  /\ isNewerVersion (js "1.9.2") (js "1.10.0") = Some false.
Proof.
  apply (checkForUpdates_only_newer (js "1.9.2")
           (mkFirmware (js "1.10.0") (js "c0ffee") 4096)); reflexivity.
Defined.

Lemma split_head_cons (sep c : char) (s : jsstring) :
  c <> sep -> exists l ls, split sep (c :: s) = (c :: l) :: ls.
Proof.
  intros Hc. cbn [split]. rewrite (proj2 (N.eqb_neq _ _) Hc).
  pose proof (split_not_nil sep s). destruct (split sep s) as [|l ls]; [done|].
  by exists l, ls.
Qed.

(** X28: a first number that does not begin with a digit, a sign or
    whitespace counts as zero: a version with a letter before its first
    number, as [v2.0.0], is not newer than any version whose first number
    is positive. *)
Theorem isNewerVersion_tag_counts_zero (c : char) (a b : jsstring) (p q : list Z) :
  isDigit c = false -> isWhiteSpace c = false ->
  c <> ch "-" -> c <> ch "+" -> c <> ch "." ->
  parseVersion (c :: a) = Some p -> parseVersion b = Some q ->
  (0 < part q 0)%Z ->
  part p 0 = 0%Z /\ isNewerVersion (c :: a) b = Some false.
Proof.
  intros Hdigit Hws Hminus Hplus Hdot Ha Hb Hq.
  assert (Hp : part p 0 = 0%Z).
  { unfold parseVersion in Ha. rewrite mapM_Some in Ha.
    destruct (split_head_cons (ch ".") c a Hdot) as (l & ls & Hsplit).
    rewrite Hsplit in Ha. apply Forall2_cons_inv_l in Ha as (z & p' & Hz & _ & ->).
    unfold parseInt10 in Hz. cbn [trimStart] in Hz. rewrite Hws in Hz.
    rewrite (proj2 (N.eqb_neq _ _) Hminus), (proj2 (N.eqb_neq _ _) Hplus) in Hz.
    cbn [digitRun] in Hz. rewrite Hdigit in Hz. cbn in Hz. by injection Hz as <-. }
  split; [done|].
  rewrite (isNewerVersion_parts _ _ p q) by done. f_equal.
  apply newerParts_false. intros (i & Hi & Hbefore).
  destruct i as [|i]; [lia|]. specialize (Hbefore 0%nat ltac:(lia)). lia.
Qed.

Lemma isNewerVersion_tag_counts_zero_witness :
  part [0; 0; 0]%Z 0 = 0%Z /\ isNewerVersion (ch "v" :: js "2.0.0") (js "1.0.0") = Some false.
Proof.
  apply (isNewerVersion_tag_counts_zero _ _ _ [0; 0; 0]%Z [1; 0; 0]%Z);
    try reflexivity; try done.
Defined.

(** ** Single asterisks and underscores *)

(** A pattern that begins with two [c] finds nothing in a text without
    two [c] in a row. *)
Lemma doubled_no_match (a : ascii) : forall s prev i,
  adjacent (ch a) s = false ->
  search (delimited [RChar (ch a); RChar (ch a)] a) prev s i = None.
Proof.
  induction s as [|x s IH]; intros prev i Hs; [done|].
  cbn [search].
  assert (matchHere (delimited [RChar (ch a); RChar (ch a)] a) prev (x :: s) = None) as ->.
  { unfold matchHere. cbn [delimited reG source multiline rseq app rmatch].
    destruct (x =? ch a) eqn:Hx; [|done].
    destruct s as [|y s]; [done|]. cbn [adjacent] in Hs. rewrite Hx in Hs.
    apply orb_false_elim in Hs as [Hy _]. cbn [andb] in Hy. by rewrite Hy. }
  apply IH. destruct s as [|y s]; [done|]. cbn [adjacent] in Hs.
  by apply orb_false_elim in Hs as [_ ?].
Qed.

Lemma adjacent_absent c s : occursIn c s = false -> adjacent c s = false.
Proof.
  induction s as [|x s IH]; [done|]. cbn [occursIn existsb].
  intros [Hx Hs]%orb_false_elim. destruct s as [|y s]; [done|].
  cbn [adjacent]. rewrite Hx. cbn [andb orb]. by apply IH.
Qed.

Lemma adjacent_cons_other c x s :
  (x =? c) = false -> adjacent c (x :: s) = adjacent c s.
Proof. intros Hx. destruct s as [|y s]; [done|]. cbn [adjacent]. by rewrite Hx. Qed.

Lemma adjacent_app_other c u s :
  occursIn c u = false -> adjacent c (u ++ s) = adjacent c s.
Proof.
  induction u as [|x u IH]; [done|]. cbn [occursIn existsb].
  intros [Hx Hu]%orb_false_elim. cbn [app]. rewrite adjacent_cons_other by done.
  by apply IH.
Qed.

Lemma adjacent_single c v s :
  v <> [] -> occursIn c v = false -> adjacent c (c :: v ++ s) = adjacent c s.
Proof.
  intros Hne Hv. destruct v as [|x v]; [done|].
  cbn [occursIn existsb] in Hv. apply orb_false_elim in Hv as [Hx Hv].
  cbn [app].
  change (adjacent c (c :: x :: v ++ s))
    with (((c =? c) && (x =? c)) || adjacent c (x :: v ++ s)).
  rewrite Hx, andb_false_r. cbn [orb].
  rewrite adjacent_cons_other by done. by apply adjacent_app_other.
Qed.

(** The text before the first match is copied. *)
Lemma replaceGo_prefix r f rest : forall u prev,
  (forall u1 x u2 prev', u = u1 ++ x :: u2 -> matchHere r prev' (x :: u2 ++ rest) = None) ->
  exists prev', replaceGo r f prev (u ++ rest) 0 = u ++ replaceGo r f prev' rest 0.
Proof.
  induction u as [|x u IH]; intros prev Hu; [by exists prev|].
  cbn [app]. rewrite replaceGo_no_match_here by apply (Hu [] x u prev eq_refl).
  destruct (IH (Some x)) as (prev' & ->).
  - intros u1 y u2 prev' ->. by apply (Hu (x :: u1) y u2).
  - by exists prev'.
Qed.

Lemma single_stripped (a : ascii) (u v w : jsstring) :
  v <> [] ->
  occursIn (ch a) u = false -> occursIn (ch a) v = false -> occursIn (ch a) w = false ->
  replace (delimited [RChar (ch a)] a) (js "$1") (u ++ ch a :: v ++ ch a :: w)
  = u ++ v ++ w.
Proof.
  intros Hne Hu Hv Hw. set (r := delimited _ _). unfold replace, replaceWith.
  destruct (replaceGo_prefix r (expand (js "$1")) (ch a :: v ++ ch a :: w) u None)
    as (prev' & ->).
  { intros u1 x u2 prev' ->. unfold matchHere, r.
    cbn [delimited reG source multiline rseq app rmatch].
    rewrite occursIn_app in Hu. apply orb_false_elim in Hu as [_ Hu].
    cbn [occursIn existsb] in Hu. apply orb_false_elim in Hu as [Hx _].
    by rewrite Hx. }
  f_equal.
  assert (Hm : matchHere r prev' (ch a :: v ++ ch a :: w)
               = Some ((length v + 2)%nat, Some v)).
  { unfold matchHere, r. cbn [delimited reG source multiline rseq app rmatch plus].
    rewrite N.eqb_refl.
    apply rrep_greedy_run.
    - apply Forall_forall. intros c Hc. apply occursIn_false in Hv.
      apply negb_true_iff, N.eqb_neq. by intros ->.
    - cbn [startsWith]. by rewrite N.eqb_refl.
    - destruct v; [done|]. cbn [length]. lia.
    - done.
    - intros prev''. rewrite N.eqb_refl. f_equal. f_equal; [lia|]. f_equal.
      replace (1 + length v - 1)%nat with (length v) by lia.
      by rewrite take_app_length. }
  destruct (replaceGo_match r (expand (js "$1")) prev' _ _ _ eq_refl Hm) as (prev'' & ->).
  { cbn [length]. rewrite length_app. cbn [length]. lia. }
  replace (drop (length v + 2) (ch a :: v ++ ch a :: w)) with w.
  2:{ replace (length v + 2)%nat with (S (length v + 1)) by lia. cbn [drop].
      rewrite drop_app_ge by lia. by replace (length v + 1 - length v)%nat with 1%nat by lia. }
  rewrite (replaceGo_no_match r _ w prev'' 0).
  - cbn. by rewrite app_nil_r.
  - apply (search_needs (isChar a)).
    + unfold r. cbn [delimited reG source rseq app needs]. left. apply N.eqb_refl.
    + apply Forall_forall. intros c Hc. apply occursIn_false in Hw.
      unfold isChar. apply N.eqb_neq. by intros ->.
Qed.

(** [stripMarkdown] when the patterns before the [i]-th find nothing,
    the [i]-th rewrites the text and leaves prose. *)
Lemma stripMarkdown_from (i : nat) r tpl s t :
  drop i markdownPatterns = (r, tpl) :: drop (S i) markdownPatterns ->
  forallb (fun r => negb (hasMatch r s)) (map fst (take i markdownPatterns)) = true ->
  replace r tpl s = t ->
  Forall (fun c => isProseChar c = true) t ->
  stripMarkdown s = t.
Proof.
  intros Hi Hbefore Hr Ht. unfold stripMarkdown.
  rewrite <- (take_drop i markdownPatterns), replaceAll_app.
  rewrite (replaceAll_no_match (take i markdownPatterns) s Hbefore).
  rewrite Hi. change (replaceAll ((r, tpl) :: ?l) s) with (replaceAll l (replace r tpl s)).
  rewrite Hr. by apply markdown_rest_prose.
Qed.

Lemma hasMatch_doubled (a : ascii) s :
  adjacent (ch a) s = false ->
  hasMatch (delimited [RChar (ch a); RChar (ch a)] a) s = false.
Proof. intros Hs. unfold hasMatch. by rewrite doubled_no_match. Qed.

Lemma hasMatch_absent (c : char) r s :
  needs (fun x => x =? c) (source r) -> occursIn c s = false -> hasMatch r s = false.
Proof.
  intros Hr Hs. apply (hasMatch_needs (fun x => x =? c)); [done|].
  apply Forall_forall. intros x Hx. apply occursIn_false in Hs.
  apply N.eqb_neq. by intros ->.
Qed.

(** X29: single asterisks and single underscores are taken for
    emphasis wherever they stand: of a text of prose with two asterisks
    (or two underscores) that are not side by side, as in [a*b*c] or in
    [snake_case_name], both are dropped. *)
Theorem sanitizeAIResponse_drops_pair (a : ascii) (u v w : jsstring) :
  (a = "*" \/ a = "_")%char ->
  v <> [] ->
  Forall (fun c => isProseChar c = true) (u ++ v ++ w) ->
  noDoubleSpace (u ++ v ++ w) = true -> edgeClean (u ++ v ++ w) = true ->
  sanitizeAIResponse (u ++ ch a :: v ++ ch a :: w) = u ++ v ++ w.
Proof.
  intros Ha Hne Hprose Hsp Hedge.
  apply sanitize_after_markdown; [|by apply prose_plainText].
  assert (Hnot : forall c, isProseChar c = false ->
                           occursIn c u = false /\ occursIn c v = false
                           /\ occursIn c w = false).
  { intros c Hc. pose proof (prose_occursIn c _ Hc Hprose) as H.
    rewrite !occursIn_app in H. apply orb_false_elim in H as [? H].
    by apply orb_false_elim in H as [? ?]. }
  assert (Habsent : forall c, isProseChar c = false -> c <> ch a ->
                              occursIn c (u ++ ch a :: v ++ ch a :: w) = false).
  { intros c Hc Hca. destruct (Hnot c Hc) as (Hu & Hv & Hw).
    rewrite occursIn_app, Hu. cbn [occursIn existsb orb].
    rewrite (proj2 (N.eqb_neq _ _) (not_eq_sym Hca)). cbn [orb].
    fold (occursIn c (v ++ ch a :: w)). rewrite occursIn_app, Hv.
    cbn [occursIn existsb orb]. rewrite (proj2 (N.eqb_neq _ _) (not_eq_sym Hca)).
    exact Hw. }
  assert (Hadj : forall Ha' : isProseChar (ch a) = false,
             adjacent (ch a) (u ++ ch a :: v ++ ch a :: w) = false).
  { intros Ha'. destruct (Hnot _ Ha') as (Hu & Hv & Hw).
    rewrite adjacent_app_other, adjacent_single by done.
    destruct w as [|x w]; [done|]. cbn [occursIn existsb] in Hw.
    apply orb_false_elim in Hw as [Hx Hw].
    change (adjacent (ch a) (ch a :: x :: w))
      with (((ch a =? ch a) && (x =? ch a)) || adjacent (ch a) (x :: w)).
    rewrite Hx, andb_false_r. cbn [orb]. rewrite adjacent_cons_other by done.
    by apply adjacent_absent. }
  assert (Hstrip : forall Ha' : isProseChar (ch a) = false,
             replace (delimited [RChar (ch a)] a) (js "$1")
               (u ++ ch a :: v ++ ch a :: w) = u ++ v ++ w).
  { intros Ha'. destruct (Hnot _ Ha') as (Hu & Hv & Hw). by apply single_stripped. }
  rewrite stripCodeBlocks_absent by (by destruct Ha as [->| ->]; apply Habsent).
  destruct Ha as [->| ->].
  - eapply (stripMarkdown_from 3); [reflexivity| |by apply Hstrip|done].
    cbn [take markdownPatterns map fst forallb]. rewrite andb_true_r.
    rewrite (hasMatch_absent (ch "#")), hasMatch_doubled,
      (hasMatch_absent (ch "_")); try done; try (by apply Hadj); try (by apply Habsent).
    + cbn. left. reflexivity.
    + cbn. right. left. split; [lia|]. by intros c ->%N.eqb_eq.
  - eapply (stripMarkdown_from 4); [reflexivity| |by apply Hstrip|done].
    cbn [take markdownPatterns map fst forallb]. rewrite andb_true_r.
    rewrite (hasMatch_absent (ch "#")), (hasMatch_absent (ch "*")), hasMatch_doubled,
      (hasMatch_absent (ch "*")); try done; try (by apply Hadj); try (by apply Habsent).
    + cbn. left. reflexivity.
    + cbn. left. reflexivity.
    + cbn. right. left. split; [lia|]. by intros c ->%N.eqb_eq.
Qed.

Lemma sanitizeAIResponse_drops_pair_witness :
  sanitizeAIResponse (js "a" ++ ch "*" :: js "b" ++ ch "*" :: js "c") = js "a" ++ js "b" ++ js "c".
Proof.
  apply sanitizeAIResponse_drops_pair; [auto|done| |reflexivity..].
  repeat (apply Forall_cons; split; [reflexivity|]). by apply Forall_nil.
Defined.

(** ** Query ids *)

Lemma hexDigit_inj n m : (n < 16)%N -> (m < 16)%N -> hexDigit n = hexDigit m -> n = m.
Proof.
  unfold hexDigit, char. intros Hn Hm.
  destruct (N.ltb_spec n 10), (N.ltb_spec m 10); intros Heq; lia.
Qed.

Lemma hexDigit_isHex n : (n < 16)%N -> isHexDigit (hexDigit n) = true.
Proof.
  unfold hexDigit, isHexDigit, isDigit. intros Hn.
  destruct (N.ltb_spec n 10).
  - apply orb_true_intro. left. apply andb_true_intro. split; apply N.leb_le; lia.
  - apply orb_true_intro. right. apply andb_true_intro. split; apply N.leb_le; lia.
Qed.

Lemma hexByte_inj b c : (b < 256)%N -> (c < 256)%N -> hexByte b = hexByte c -> b = c.
Proof.
  unfold hexByte. intros Hb Hc [= Hhi Hlo].
  assert (b / 16 < 16)%N by (apply N.Div0.div_lt_upper_bound; lia).
  assert (c / 16 < 16)%N by (apply N.Div0.div_lt_upper_bound; lia).
  assert (b mod 16 < 16)%N by (apply N.mod_lt; lia).
  assert (c mod 16 < 16)%N by (apply N.mod_lt; lia).
  apply hexDigit_inj in Hhi, Hlo; try done.
  rewrite (N.div_mod b 16), (N.div_mod c 16) by lia. by rewrite Hhi, Hlo.
Qed.

Lemma toHex_inj : forall bs cs,
  Forall (fun b => (b < 256)%N) bs -> Forall (fun b => (b < 256)%N) cs ->
  toHex bs = toHex cs -> bs = cs.
Proof.
  unfold toHex.
  induction bs as [|b bs IH]; intros [|c cs] Hbs Hcs; cbn [flat_map hexByte app];
    try done.
  apply Forall_cons in Hbs as [Hb Hbs]. apply Forall_cons in Hcs as [Hc Hcs].
  intros [= Hhi Hlo Hrest]. f_equal.
  - apply hexByte_inj; [done..|]. unfold hexByte. by rewrite Hhi, Hlo.
  - by apply IH.
Qed.

Lemma toHex_length bs : length (toHex bs) = (2 * length bs)%nat.
Proof.
  unfold toHex. induction bs as [|b bs IH]; [done|].
  cbn [flat_map hexByte app length]. lia.
Qed.

Lemma toHex_isHex bs :
  Forall (fun b => (b < 256)%N) bs -> forallb isHexDigit (toHex bs) = true.
Proof.
  unfold toHex. induction bs as [|b bs IH]; [done|]. intros [Hb Hbs]%Forall_cons.
  cbn [flat_map hexByte app forallb].
  rewrite !hexDigit_isHex; [by apply IH| |].
  - apply N.mod_lt. lia.
  - apply N.Div0.div_lt_upper_bound. lia.
Qed.

(** X30: a query id is [query_] followed by two lowercase hexadecimal
    digits for each random byte, 30 characters for the 12 bytes drawn;
    different bytes give different query ids. *)
Theorem generateQueryId_format (bytes bytes' : list N) :
  length bytes = 12%nat -> Forall (fun b => (b < 256)%N) bytes ->
  Forall (fun b => (b < 256)%N) bytes' ->
  length (generateQueryId bytes) = 30%nat
  /\ take 6 (generateQueryId bytes) = js "query_"
  /\ forallb isHexDigit (drop 6 (generateQueryId bytes)) = true
  /\ (generateQueryId bytes = generateQueryId bytes' -> bytes = bytes').
Proof.
  intros Hlen Hbytes Hbytes'. unfold generateQueryId.
  split; [|split; [|split]].
  - rewrite length_app, toHex_length, Hlen. reflexivity.
  - reflexivity.
  - change (drop 6 (js "query_" ++ toHex bytes)) with (toHex bytes).
    by apply toHex_isHex.
  - intros H%app_inv_head. by apply toHex_inj.
Qed.

Lemma generateQueryId_format_witness :
  length (generateQueryId [0; 1; 2; 3; 4; 5; 6; 7; 8; 9; 171; 255]%N) = 30%nat
  /\ take 6 (generateQueryId [0; 1; 2; 3; 4; 5; 6; 7; 8; 9; 171; 255]%N) = js "query_"
  /\ forallb isHexDigit (drop 6 (generateQueryId [0; 1; 2; 3; 4; 5; 6; 7; 8; 9; 171; 255]%N))
     = true
  /\ (generateQueryId [0; 1; 2; 3; 4; 5; 6; 7; 8; 9; 171; 255]%N
      = generateQueryId [0; 1; 2; 3; 4; 5; 6; 7; 8; 9; 171; 254]%N ->
      [0; 1; 2; 3; 4; 5; 6; 7; 8; 9; 171; 255]%N = [0; 1; 2; 3; 4; 5; 6; 7; 8; 9; 171; 254]%N).
Proof.
  apply generateQueryId_format; [reflexivity| |];
    repeat (apply Forall_cons; split; [reflexivity|]); by apply Forall_nil.
Defined.
